(** * UCT Monte-Carlo tree search with a deviation heuristic (UCT.py)

    A shallow embedding of [src/UCT.py]: the [Node] class, the blended UCB1
    selection rule, the two deviation heuristics and the search loop [UCT].

    Modelling choices.
    - Python objects live in a store: the tree is a [list Node] indexed by
      node identifiers; [parentNode] and [childNodes] hold identifiers, and
      the in-place updates of the source are updates of the store.  The root
      is node [0]; [AddChild] allocates the next identifier.
    - Game states are immutable values, so [Clone] is the identity and
      [DoMove] returns the new state.  The concrete games (Nim, OXO, ...)
      are imported by the source; here a game is an instance of the class
      [GameState].  [GetMoves] returns a list of its own, as the source
      compares it with [[]] and removes moves from it.
    - Numbers are modelled twice.  The search is embedded over exact
      numbers: results, [wins] and the keys of [rollouts_counter] are
      rationals ([Qc]), and quantities that go through [sqrt] or [log] are
      reals.  What is proved of the search there (the shape of the tree, the
      counts, the errors) does not depend on which child a selection picks.
      The module [F64] embeds [Node.Update], the heuristics and
      [Node.UCTSelectChild] over binary64 floats, with the rounding of every
      operation; statements about the value of [wins], of a heuristic or of
      a sort key are made there.
    - [rollouts_counter] is a [Counter], a dict: an association list in
      insertion order, which is the order [items()] iterates in.
    - [random.choice] reads an explicit sequence of draws [rng : nat -> nat];
      the number of draws consumed so far is threaded through the search.
    - Exceptions are values of [exn]; loops that the source runs until a
      condition holds take fuel and raise [Diverges] when it runs out.  The
      fuel of a rollout from the state [s] is [gas s].
    - The diagnostic [print] of [UCT] is left out, and with it [__repr__],
      [TreeToString], [IndentString] and [ChildrenToString], whose text
      depends on how Python prints numbers and moves.
    - The match driver [UCTPlayGame] is modelled for players 1 and 2; the
      experiment script and [get_game_instance], which build games that
      are outside these files and write a results file, are not. *)

From Stdlib Require Import Reals QArith Qcanon Qreals Qabs Lra Lia Sorted
  SpecFloat.
From stdpp Require Import base numbers list.

Set Default Proof Using "Type".

(** ** Exceptions *)

Inductive exn : Type :=
  | ZeroDivisionError   (* x / 0 *)
  | ValueError          (* list.remove(x) with x absent, math domain error *)
  | IndexError          (* [][-1], random.choice([]) *)
  | TypeError           (* arithmetic on None, a move that is None *)
  | BadReference        (* an identifier outside the store *)
  | OverflowError       (* x ** 2 out of range *)
  | Diverges.           (* a loop that ran out of fuel *)

Inductive result (A : Type) : Type :=
  | Ok (a : A)
  | Raise (e : exn).
Arguments Ok {A} a.
Arguments Raise {A} e.

#[global] Instance result_ret : MRet result := λ A a, Ok a.
#[global] Instance result_bind : MBind result := λ A B f r,
  match r with Ok a => f a | Raise e => Raise e end.

Definition is_Ok {A} (r : result A) : Prop := ∃ a, r = Ok a.

#[global] Instance exn_eq_dec : EqDecision exn.
Proof. solve_decision. Defined.

(** ** Python built-ins on lists *)

Section builtins.
Context {A : Type}.

(** [l.remove(x)]: drops the first occurrence; [None] stands for the
    [ValueError] raised when [x] is absent. *)
Fixpoint list_remove `{EqDecision A} (x : A) (l : list A) : option (list A) :=
  match l with
  | [] => None
  | y :: l' => if decide (y = x) then Some l'
               else cons y <$> list_remove x l'
  end.

(** [random.choice(l)] with the draw [r]. *)
Definition choice (r : nat) (l : list A) : result A :=
  match l with
  | [] => Raise IndexError
  | _ => match l !! (r mod length l) with
         | Some x => Ok x
         | None => Raise IndexError
         end
  end.

(** [l[-1]]. *)
Definition py_last (l : list A) : result A :=
  match last l with
  | Some x => Ok x
  | None => Raise IndexError
  end.

(** [sorted(l, key = f)]: the keys are computed once, in list order, and
    the sort is stable.  Insertion from the right is a stable sort; it
    compares keys with [<] only, as the source's sort does. *)
Context {K : Type} (ltb : K → K → bool).

Fixpoint insert_by (x : K * A) (l : list (K * A)) : list (K * A) :=
  match l with
  | [] => [x]
  | y :: l' => if ltb y.1 x.1 then y :: insert_by x l' else x :: y :: l'
  end.

Definition sort_decorated (l : list (K * A)) : list (K * A) :=
  foldr insert_by [] l.

Definition decorate (key : A → result K) (l : list A) : result (list (K * A)) :=
  mapM (λ a, k ← key a; Ok (k, a)) l.

Definition sorted (key : A → result K) (l : list A) : result (list A) :=
  d ← decorate key l; Ok ((sort_decorated d).*2).

(** The element a stable ascending sort puts last: the last one among
    those of greatest key. *)
Fixpoint last_max (l : list (K * A)) : option (K * A) :=
  match l with
  | [] => None
  | x :: l' => match last_max l' with
               | None => Some x
               | Some y => if ltb y.1 x.1 then Some x else Some y
               end
  end.
End builtins.

(** Comparison of real keys. *)
#[global] Instance Rlt_decision (x y : R) : Decision (x < y)%R := Rlt_dec x y.
Definition Rltb (x y : R) : bool := bool_decide (x < y)%R.

(** Rationals as reals. *)
Definition Qc2R (q : Qc) : R := Q2R q.

(** ** The game interface (class [GameState] of the source) *)

Class GameState (State Move Player : Type) := {
  DoMove : State → Move → State;
  GetMoves : State → list Move;
  GetResult : State → Player → Qc;
  state_playerJustMoved : State → Player;
}.

(** States are values: a deep copy is the state itself. *)
Definition Clone {State : Type} (s : State) : State := s.

(** ** Nodes *)

Section Node.
Context {State Move Player : Type} `{EqDecision Move}
        `{G : GameState State Move Player}.

Record Node : Type := mkNode {
  move : option Move;            (* None for the root *)
  parentNode : option nat;       (* None for the root *)
  childNodes : list nat;
  wins : Qc;
  visits : nat;
  untriedMoves : list Move;
  playerJustMoved : Player;
  rollouts_counter : list (Qc * nat);
  last_rollout_res : option Qc;
}.

(** [Node.__init__] *)
Definition Node_init (m : option Move) (parent : option nat) (s : State) : Node :=
  {| move := m; parentNode := parent; childNodes := [];
     wins := 0%Qc; visits := 0;
     untriedMoves := GetMoves s;
     playerJustMoved := state_playerJustMoved s;
     rollouts_counter := []; last_rollout_res := None |}.

Definition set_untriedMoves (u : list Move) (n : Node) : Node :=
  {| move := move n; parentNode := parentNode n; childNodes := childNodes n;
     wins := wins n; visits := visits n; untriedMoves := u;
     playerJustMoved := playerJustMoved n;
     rollouts_counter := rollouts_counter n;
     last_rollout_res := last_rollout_res n |}.

Definition set_childNodes (c : list nat) (n : Node) : Node :=
  {| move := move n; parentNode := parentNode n; childNodes := c;
     wins := wins n; visits := visits n; untriedMoves := untriedMoves n;
     playerJustMoved := playerJustMoved n;
     rollouts_counter := rollouts_counter n;
     last_rollout_res := last_rollout_res n |}.

(** [Counter]: [c[k]] and [c[k] += 1]. *)
Fixpoint counter_get (k : Qc) (c : list (Qc * nat)) : nat :=
  match c with
  | [] => 0
  | (k', v) :: c' => if decide (k' = k) then v else counter_get k c'
  end.

Fixpoint counter_incr (k : Qc) (c : list (Qc * nat)) : list (Qc * nat) :=
  match c with
  | [] => [(k, 1)]
  | (k', v) :: c' => if decide (k' = k) then (k', S v) :: c'
                     else (k', v) :: counter_incr k c'
  end.

Definition counter_total (c : list (Qc * nat)) : nat := sum_list (c.*2).

(** [Node.Update] *)
Definition Update (n : Node) (r : Qc) : Node :=
  {| move := move n; parentNode := parentNode n; childNodes := childNodes n;
     wins := (wins n + r)%Qc; visits := visits n + 1;
     untriedMoves := untriedMoves n;
     playerJustMoved := playerJustMoved n;
     rollouts_counter := counter_incr r (rollouts_counter n);
     last_rollout_res := Some r |}.

(** The store. *)
Definition deref (heap : list Node) (i : nat) : result Node :=
  match heap !! i with
  | Some n => Ok n
  | None => Raise BadReference
  end.

(** [Node.AddChild]: run on the node [self] of [heap]; gives the store
    after the call together with the outcome.  The new node is built
    first, then [remove] may raise, then the child is appended. *)
Definition AddChild (heap : list Node) (self : nat) (m : Move) (s : State)
    : list Node * result nat :=
  match heap !! self with
  | None => (heap, Raise BadReference)
  | Some nd =>
      let n := length heap in
      let heap1 := heap ++ [Node_init (Some m) (Some self) s] in
      match list_remove m (untriedMoves nd) with
      | None => (heap1, Raise ValueError)
      | Some u =>
          let nd1 := set_untriedMoves u nd in
          let nd2 := set_childNodes (childNodes nd1 ++ [n]) nd1 in
          (<[self := nd2]> heap1, Ok n)
      end
  end.
End Node.
Arguments Node : clear implicits.

(** ** Arithmetic of the source that can raise *)

Definition Qc_of_nat (n : nat) : Qc := Q2Qc (inject_Z (Z.of_nat n)).

(** [x / n] *)
Definition py_div (x : R) (n : nat) : result R :=
  if decide (n = 0) then Raise ZeroDivisionError else Ok (x / INR n)%R.

(** [log(n)] *)
Definition py_log (n : nat) : result R :=
  if decide (n = 0) then Raise ValueError else Ok (ln (INR n)).

(** [sqrt(x)] *)
Definition py_sqrt (x : R) : result R :=
  if decide (x < 0)%R then Raise ValueError else Ok (sqrt x).

(** ** Heuristics and selection *)

Section Selection.
Context {Move Player : Type}.
Abbreviation Node := (Node Move Player).

(** [sum([k*v for k, v in c.items()]) / n] *)
Definition counter_mean (c : list (Qc * nat)) (n : nat) : result Qc :=
  let s := foldl (λ acc kv, acc + kv.1 * Qc_of_nat kv.2)%Qc 0%Qc c in
  if decide (n = 0) then Raise ZeroDivisionError else Ok (s / Qc_of_nat n)%Qc.

Definition regular_std (node : Node) : result R :=
  let c := rollouts_counter node in
  let n := visits node in
  mean ← counter_mean c n;
  let std := foldl (λ acc kv, acc + Qc_of_nat kv.2 * (kv.1 - mean) ^ 2)%Qc 0%Qc c in
  py_sqrt (Qc2R (std / Qc_of_nat n)%Qc).

Definition last_res_std (node : Node) : result R :=
  let c := rollouts_counter node in
  let n := visits node in
  mean ← counter_mean c n;
  match last_rollout_res node with
  | None => Raise TypeError
  | Some r => Ok (Rabs (Qc2R (mean - r)%Qc))
  end.

(** The default [selected_std_function], [lambda c: 0]. *)
Definition zero_std (node : Node) : result R := Ok 0%R.

(** The sort key of [UCTSelectChild] for the child [c] of a node with
    [self_visits] visits; the sub-expressions are evaluated left to right. *)
Definition ucb_key (selection_function : Node → result R) (w : R)
    (self_visits : nat) (c : Node) : result R :=
  exploit ← py_div (Qc2R (wins c)) (visits c);
  lg ← py_log self_visits;
  q ← py_div (2 * lg) (visits c);
  explore ← py_sqrt q;
  hv ← selection_function c;
  Ok ((1 - w) * (exploit + explore) + w * hv)%R.

(** [Node.UCTSelectChild] *)
Definition UCTSelectChild (selection_function : Node → result R) (w : R)
    (heap : list Node) (self : nat) : result nat :=
  nd ← deref heap self;
  s ← sorted Rltb
        (λ c, cn ← deref heap c; ucb_key selection_function w (visits nd) cn)
        (childNodes nd);
  py_last s.
End Selection.

(** ** The search *)

Section UCT.
Context {State Move Player : Type} `{EqDecision Move}
        `{G : GameState State Move Player}.
Abbreviation Node := (Node Move Player).

(** [rng k] is the [k]-th draw of the random source; [gas s] bounds the
    number of moves a rollout from [s] may take. *)
Variable rng : nat → nat.
Variable gas : State → nat.
Variable selected_std_function : Node → result R.
Variable std_weight : R.

(** Select: [while node.untriedMoves == [] and node.childNodes != []]. *)
Fixpoint Select (fuel : nat) (heap : list Node) (node : nat) (state : State)
    : result (nat * State) :=
  nd ← deref heap node;
  match untriedMoves nd, childNodes nd with
  | [], _ :: _ =>
      match fuel with
      | 0 => Raise Diverges
      | S fuel' =>
          c ← UCTSelectChild selected_std_function std_weight heap node;
          cn ← deref heap c;
          match move cn with
          | None => Raise TypeError
          | Some m => Select fuel' heap c (DoMove state m)
          end
      end
  | _, _ => Ok (node, state)
  end.

(** Expand: [if node.untriedMoves != []]. *)
Definition Expand (heap : list Node) (node : nat) (state : State) (pos : nat)
    : result (list Node * nat * State * nat) :=
  nd ← deref heap node;
  match untriedMoves nd with
  | [] => Ok (heap, node, state, pos)
  | _ :: _ =>
      m ← choice (rng pos) (untriedMoves nd);
      let state := DoMove state m in
      match AddChild heap node m state with
      | (heap', Ok c) => Ok (heap', c, state, S pos)
      | (_, Raise e) => Raise e
      end
  end.

(** Rollout: [while state.GetMoves() != []]. *)
Fixpoint Rollout (fuel : nat) (state : State) (pos : nat) : result (State * nat) :=
  match GetMoves state with
  | [] => Ok (state, pos)
  | _ :: _ =>
      match fuel with
      | 0 => Raise Diverges
      | S fuel' =>
          m ← choice (rng pos) (GetMoves state);
          Rollout fuel' (DoMove state m) (S pos)
      end
  end.

(** Backpropagate: [while node != None]. *)
Fixpoint Backpropagate (fuel : nat) (state : State) (heap : list Node)
    (node : option nat) : result (list Node) :=
  match node with
  | None => Ok heap
  | Some i =>
      match fuel with
      | 0 => Raise Diverges
      | S fuel' =>
          nd ← deref heap i;
          let nd' := Update nd (GetResult state (playerJustMoved nd)) in
          Backpropagate fuel' state (<[i := nd']> heap) (parentNode nd)
      end
  end.

(** One pass of the [for] loop of [UCT]; the root is node [0]. *)
Definition UCT_iteration (rootstate : State) (heap : list Node) (pos : nat)
    : result (list Node * nat) :=
  let node := 0 in
  let state := Clone rootstate in
  '(node, state) ← Select (length heap) heap node state;
  '(heap, node, state, pos) ← Expand heap node state pos;
  '(state, pos) ← Rollout (gas state) state pos;
  heap ← Backpropagate (length heap) state heap (Some node);
  Ok (heap, pos).

(** [rootnode = Node(state = rootstate)] followed by the [for] loop. *)
Fixpoint UCT_loop (rootstate : State) (itermax : nat) : result (list Node * nat) :=
  match itermax with
  | 0 => Ok ([Node_init None None rootstate], 0)
  | S n => '(heap, pos) ← UCT_loop rootstate n; UCT_iteration rootstate heap pos
  end.

(** The [return] of [UCT]: the move of the last root child in the order of
    [visits].  (The tree is printed before; printing is not modelled.) *)
Definition most_visited (heap : list Node) : result (option Move) :=
  rootnode ← deref heap 0;
  s ← sorted Nat.ltb (λ c, cn ← deref heap c; Ok (visits cn)) (childNodes rootnode);
  c ← py_last s;
  cn ← deref heap c;
  Ok (move cn).

Definition UCT (rootstate : State) (itermax : nat) : result (option Move) :=
  '(heap, _) ← UCT_loop rootstate itermax;
  most_visited heap.
End UCT.

(** ** Specification-side definitions *)

Section Spec.
Context {Move Player : Type}.
Abbreviation Node := (Node Move Player).

(** The blended selection score as the specification writes it, for a child
    [c] of a node with [pv] visits and a heuristic [h]. *)
Definition blended_score (w : R) (h : Node → R) (pv : nat) (c : Node) : R :=
  ((1 - w) * (Qc2R (wins c) / INR (visits c)
              + sqrt (2 * ln (INR pv) / INR (visits c)))
   + w * h c)%R.

(** Sums over the items of an outcome distribution. *)
Definition Rsum_items (f : Qc → nat → R) (c : list (Qc * nat)) : R :=
  foldr (λ kv acc, f kv.1 kv.2 + acc)%R 0%R c.

(** [mean = Σ value·count / visits] *)
Definition spec_mean (node : Node) : R :=
  (Rsum_items (λ k v, Qc2R k * INR v) (rollouts_counter node)
   / INR (visits node))%R.

(** [std = sqrt (Σ count·(value - mean)² / visits)] *)
Definition spec_std (node : Node) : R :=
  sqrt (Rsum_items (λ k v, INR v * (Qc2R k - spec_mean node) ^ 2)
                   (rollouts_counter node)
        / INR (visits node))%R.
End Spec.

(** ** Invariants of the tree *)

Section Invariants.
Context {State Move Player : Type} `{EqDecision Move}
        `{G : GameState State Move Player}.
Abbreviation Node := (Node Move Player).

(** [history n rs]: the node [n] was built by [Node.__init__] and has since
    been updated with the results [rs], oldest first. *)
Inductive history : Node → list Qc → Prop :=
  | history_init m p s : history (Node_init m p s) []
  | history_Update n rs r : history n rs → history (Update n r) (rs ++ [r])
  | history_untriedMoves n rs u : history n rs → history (set_untriedMoves u n) rs
  | history_childNodes n rs c : history n rs → history (set_childNodes c n) rs.

(** Nodes reachable from the root through [childNodes]. *)
Inductive reachable (heap : list Node) : nat → Prop :=
  | reachable_root : reachable heap 0
  | reachable_child p pn c :
      reachable heap p → heap !! p = Some pn → c ∈ childNodes pn →
      reachable heap c.

Definition visits_of (heap : list Node) (i : nat) : nat :=
  from_option visits 0 (heap !! i).

Definition child_visits (heap : list Node) (nd : Node) : nat :=
  sum_list_with (visits_of heap) (childNodes nd).

(** The invariant of the search.  [cur] is the node backpropagation is
    about to update ([None] between iterations); [n] is the number of
    iterations started. *)
Record Inv (rootstate : State) (heap : list Node) (cur : option nat) (n : nat)
    : Prop := {
  inv_parent : ∀ i nd, heap !! i = Some nd →
    match parentNode nd with
    | None => i = 0
    | Some p => p < i ∧ ∃ pn, heap !! p = Some pn ∧ i ∈ childNodes pn
    end;
  inv_child : ∀ p pn c, heap !! p = Some pn → c ∈ childNodes pn →
    ∃ cn, heap !! c = Some cn ∧ parentNode cn = Some p ∧ is_Some (move cn);
  inv_nodup : ∀ p pn, heap !! p = Some pn → NoDup (childNodes pn);
  inv_history : ∀ i nd, heap !! i = Some nd → ∃ rs, history nd rs;
  inv_visited : ∀ i nd, heap !! i = Some nd → i ≠ 0 → cur ≠ Some i →
    1 ≤ visits nd;
  inv_children : ∀ p pn, heap !! p = Some pn →
    child_visits heap pn ≤ visits pn + (if decide (cur = Some p) then 1 else 0);
  inv_cur : ∀ i, cur = Some i → i < length heap;
  inv_root : ∃ root, heap !! 0 = Some root ∧
    visits root + match cur with Some _ => 1 | None => 0 end = n ∧
    (GetMoves rootstate ≠ [] →
       (untriedMoves root ≠ [] ∨ childNodes root ≠ []) ∧
       child_visits heap root
         = visits root + (if decide (cur = Some 0) then 1 else 0));
}.
(** The game ends: every legal move lowers [gas]. *)
Definition game_ends (gas : State → nat) : Prop :=
  ∀ s m, m ∈ GetMoves s → gas (DoMove s m) < gas s.

(** The heuristic returns on every node the program built and visited. *)
Definition heuristic_returns (selected_std_function : Node → result R) : Prop :=
  ∀ nd rs, history nd rs → 1 ≤ visits nd → is_Ok (selected_std_function nd).
End Invariants.

(** ** A concrete game

    A take-away game: a pile of chips, a move takes one or two, the player
    who takes the last chip wins. *)

Module TakeAway.
Record state := mk { chips : nat; justMoved : bool }.

#[global] Instance game : GameState state nat bool := {|
  DoMove s m := mk (chips s - m) (negb (justMoved s));
  GetMoves s := match chips s with 0 => [] | 1 => [1] | _ => [1; 2] end;
  GetResult s p := if bool_decide (justMoved s = p) then 1%Qc else 0%Qc;
  state_playerJustMoved := justMoved;
|}.

Definition start (n : nat) : state := mk n false.

(** A fixed sequence of draws. *)
Definition draws (k : nat) : nat := k.

(** The tree before the first iteration, after it, and a node updated once. *)
Definition tree0 : list (Node nat bool) := [Node_init None None (start 3)].

Definition tree1 : list (Node nat bool) :=
  [ {| move := None; parentNode := None; childNodes := [1];
       wins := 1%Qc; visits := 1; untriedMoves := [2];
       playerJustMoved := false;
       rollouts_counter := [(1%Qc, 1)]; last_rollout_res := Some 1%Qc |};
    {| move := Some 1; parentNode := Some 0; childNodes := [];
       wins := 0%Qc; visits := 1; untriedMoves := [1; 2];
       playerJustMoved := true;
       rollouts_counter := [(0%Qc, 1)]; last_rollout_res := Some 0%Qc |} ].

Definition visited_once : Node nat bool :=
  Update (Node_init (Some 1) (Some 0) (start 2)) 0%Qc.
End TakeAway.

(** ** Paths and positions in the tree *)

Section Paths.
Context {State Move Player : Type} `{EqDecision Move}
        `{G : GameState State Move Player}.
Abbreviation Node := (Node Move Player).

(** The nodes backpropagation walks through from [i]: [i], its parent, and
    so on up to the node without a parent. *)
Fixpoint path_to_root (fuel : nat) (heap : list Node) (i : nat) : list nat :=
  match fuel with
  | 0 => []
  | S fuel' =>
      i :: match heap !! i ≫= parentNode with
           | Some p => path_to_root fuel' heap p
           | None => []
           end
  end.

(** [legal_play s ms s']: playing the moves [ms] from [s], each legal where
    it is played, gives [s']. *)
Inductive legal_play : State → list Move → State → Prop :=
  | legal_play_nil s : legal_play s [] s
  | legal_play_cons s m ms s' :
      m ∈ GetMoves s → legal_play (DoMove s m) ms s' →
      legal_play s (m :: ms) s'.

(** The game position of a node: the root state with the moves on the path
    from the root to the node played. *)
Fixpoint position_at (rootstate : State) (fuel : nat) (heap : list Node)
    (i : nat) : State :=
  match fuel with
  | 0 => rootstate
  | S fuel' =>
      match heap !! i with
      | Some nd =>
          match parentNode nd, move nd with
          | Some p, Some m => DoMove (position_at rootstate fuel' heap p) m
          | _, _ => rootstate
          end
      | None => rootstate
      end
  end.

Definition position (rootstate : State) (heap : list Node) (i : nat) : State :=
  position_at rootstate (S i) heap i.

(** The moves of the children of a node, in the order of [childNodes]. *)
Definition child_moves (heap : list Node) (nd : Node) : list Move :=
  omap (λ c, heap !! c ≫= move) (childNodes nd).

(** Positions and moves only depend on the [parentNode] and [move]
    fields, which no method changes. *)
Definition same_links (heap heap' : list Node) : Prop :=
  ∀ j nd, heap !! j = Some nd →
    ∃ nd', heap' !! j = Some nd' ∧ parentNode nd' = parentNode nd
           ∧ move nd' = move nd.



(** A node other than the root that has a move, tried or not, has one
    visit from the iteration that built it and one for each visit of a
    child; [cur] is the node backpropagation is about to update. *)
Definition visits_exact (heap : list Node) (cur : option nat) : Prop :=
  ∀ p pn, heap !! p = Some pn → p ≠ 0 →
    untriedMoves pn ≠ [] ∨ childNodes pn ≠ [] →
    1 + child_visits heap pn
    = visits pn + (if decide (cur = Some p) then 1 else 0).

(** Every node accounts for the legal moves of its position: those tried
    (its children) and those untried. *)
Definition moves_accounted (rootstate : State) (heap : list Node) : Prop :=
  ∀ i nd, heap !! i = Some nd →
    child_moves heap nd ++ untriedMoves nd
    ≡ₚ GetMoves (position rootstate heap i).
End Paths.

(** ** The match driver [UCTPlayGame]

    The players are the integers 1 and 2.  The state is given (the default
    [C4State()] of the source is a game outside these files) and printing
    is left out.  Each call of [UCT] goes on in the sequence of draws where
    the previous one stopped. *)

Section PlayGame.
Context {State Move : Type} `{EqDecision Move}
        `{G : GameState State Move Z}.
Abbreviation Node := (Node Move Z).

Variable rng : nat → nat.
Variable gas : State → nat.

(** [UCT(rootstate, itermax, ...)] from the draw [pos] on; also gives the
    position in the sequence of draws after the call. *)
Definition UCT_call (pos : nat) (selected_std_function : Node → result R)
    (std_weight : R) (rootstate : State) (itermax : nat)
    : result (option Move * nat) :=
  '(heap, used) ← UCT_loop (λ k, rng (pos + k)) gas selected_std_function
                    std_weight rootstate itermax;
  m ← most_visited heap;
  Ok (m, pos + used).

(** The [while] loop of [UCTPlayGame]. *)
Fixpoint play (fuel : nat) (player1_uct_iter player2_uct_iter : nat)
    (std_weight : R) (selected_std_function : Node → result R)
    (state : State) (pos : nat) : result (State * nat) :=
  match GetMoves state with
  | [] => Ok (state, pos)
  | _ :: _ =>
      match fuel with
      | 0 => Raise Diverges
      | S fuel' =>
          '(m, pos') ←
            (if decide (state_playerJustMoved state = 1%Z)
             then UCT_call pos zero_std 0%R state player1_uct_iter
             else UCT_call pos selected_std_function std_weight state
                    player2_uct_iter);
          match m with
          | None => Raise TypeError
          | Some m =>
              play fuel' player1_uct_iter player2_uct_iter std_weight
                selected_std_function (DoMove state m) pos'
          end
      end
  end.

(** What [UCTPlayGame] returns for the final state. *)
Definition match_result (state : State) : Qc :=
  let p := state_playerJustMoved state in
  if decide (GetResult state p = 1%Qc) then Q2Qc (inject_Z p)
  else if decide (GetResult state p = 0%Qc) then Q2Qc (inject_Z (3 - p))
  else Q2Qc (3 # 2).

Definition UCTPlayGame (state : State) (player1_uct_iter player2_uct_iter : nat)
    (std_weight : R) (selected_std_function : Node → result R) : result Qc :=
  '(final, _) ← play (gas state) player1_uct_iter player2_uct_iter std_weight
                  selected_std_function state 0;
  Ok (match_result final).
End PlayGame.

(** ** A concrete game with players 1 and 2

    A pile of chips, a move takes one, two or three; the player who takes
    the last chip wins. *)

Module Subtraction.
Record state := mk { chips : nat; justMoved : Z }.

#[global] Instance game : GameState state nat Z := {|
  DoMove s m := mk (chips s - m) (3 - justMoved s);
  GetMoves s := seq 1 (Nat.min 3 (chips s));
  GetResult s p := if bool_decide (justMoved s = p) then 1%Qc else 0%Qc;
  state_playerJustMoved := justMoved;
|}.

Definition start (n : nat) : state := mk n 2.
Definition draws (k : nat) : nat := k.
End Subtraction.

(** ** The arithmetic of the source in binary64

    Python's [float] is the IEEE 754 binary64 format and [+], [-], [*], [/],
    [sqrt] and [abs] round to nearest, ties to even: these are the
    operations of [SpecFloat] at precision 53.  The results of a game are
    floats here; integer results and counts below [2^53] convert without
    rounding, so a game that returns 0 and 1 is covered.  [math.log] and the
    power behind [x ** 2] are functions of the C library, whose rounding the
    language does not fix: they are the parameters [libm_log] and
    [libm_pow2].  The module embeds the part of the source whose value
    depends on rounding: [Node.Update], the two heuristics, the sort key and
    [Node.UCTSelectChild]. *)

Module F64.
Abbreviation float := spec_float.

Definition prec : Z := 53.
Definition emax : Z := 1024.

Definition fadd : float → float → float := SFadd prec emax.
Definition fsub : float → float → float := SFsub prec emax.
Definition fmul : float → float → float := SFmul prec emax.
Definition fdiv : float → float → float := SFdiv prec emax.
Definition fsqrt : float → float := SFsqrt prec emax.
Definition fabs : float → float := SFabs.
Definition fltb : float → float → bool := SFltb.
Definition fleb : float → float → bool := SFleb.
Definition feqb : float → float → bool := SFeqb.

(** [float(n)] for an integer [n], as [x / n] and [k * v] convert an
    integer operand.  (Python refuses the conversion from [2^1024] on, which
    no count reaches.) *)
Definition of_Z (z : Z) : float := binary_normalize prec emax z 0 false.
Definition of_nat (n : nat) : float := of_Z (Z.of_nat n).

Definition zero : float := S754_zero false.
Definition one : float := of_Z 1.
Definition two : float := of_Z 2.

Definition is_nan (x : float) : bool :=
  match x with S754_nan => true | _ => false end.

(** The rational number a finite float stands for. *)
Definition to_Q (x : float) : Q :=
  match x with
  | S754_finite s m e =>
      ((if s then -1 else 1) * (inject_Z (Z.pos m) * 2 ^ e))%Q
  | _ => 0%Q
  end.

Definition to_R (x : float) : R := Q2R (to_Q x).

(** *** The order of the floats

    [<] on floats that are not NaN is the lexicographic order of [rank]:
    the sign class, then the exponent, then the mantissa.  [total_ltb]
    extends it to a strict weak order on all floats (NaN below the rest);
    the source's sort is read through it when no key is NaN. *)
Definition rank (x : float) : Z * Z * Z :=
  match x with
  | S754_nan => (-3, 0, 0)
  | S754_infinity true => (-2, 0, 0)
  | S754_finite true m e => (-1, - e, Z.neg m)
  | S754_zero _ => (0, 0, 0)
  | S754_finite false m e => (1, e, Z.pos m)
  | S754_infinity false => (2, 0, 0)
  end%Z.

Definition lex_lt (a b : Z * Z * Z) : Prop :=
  (a.1.1 < b.1.1
   ∨ (a.1.1 = b.1.1 ∧ (a.1.2 < b.1.2 ∨ (a.1.2 = b.1.2 ∧ a.2 < b.2))))%Z.

#[global] Instance lex_lt_dec a b : Decision (lex_lt a b).
Proof. unfold lex_lt. apply _. Defined.

Definition total_ltb (x y : float) : bool := bool_decide (lex_lt (rank x) (rank y)).

(** No minus sign: [+0.0], a positive finite float, [+inf], or NaN. *)
Definition unsigned (x : float) : bool :=
  match x with
  | S754_zero s | S754_infinity s | S754_finite s _ _ => negb s
  | S754_nan => true
  end.

(** [x / n] with an integer [n] *)
Definition py_div (x : float) (n : nat) : result float :=
  if decide (n = 0) then Raise ZeroDivisionError else Ok (fdiv x (of_nat n)).

(** [sqrt(x)] *)
Definition py_sqrt (x : float) : result float :=
  if fltb x zero then Raise ValueError else Ok (fsqrt x).

Section Node.
Context {State Move Player : Type} `{G : GameState State Move Player}.

Record Node : Type := mkNode {
  move : option Move;
  parentNode : option nat;
  childNodes : list nat;
  wins : float;
  visits : nat;
  untriedMoves : list Move;
  playerJustMoved : Player;
  rollouts_counter : list (float * nat);
  last_rollout_res : option float;
}.

(** [Node.__init__] *)
Definition Node_init (m : option Move) (parent : option nat) (s : State) : Node :=
  {| move := m; parentNode := parent; childNodes := [];
     wins := zero; visits := 0;
     untriedMoves := GetMoves s;
     playerJustMoved := state_playerJustMoved s;
     rollouts_counter := []; last_rollout_res := None |}.

(** [Counter] with float keys: a key is found by [==], so [0.0] and [-0.0]
    are one key, stored as first inserted.  A NaN is never found again,
    as for two NaN objects that are not identical. *)
Fixpoint counter_get (k : float) (c : list (float * nat)) : nat :=
  match c with
  | [] => 0
  | (k', v) :: c' => if feqb k' k then v else counter_get k c'
  end.

Fixpoint counter_incr (k : float) (c : list (float * nat)) : list (float * nat) :=
  match c with
  | [] => [(k, 1)]
  | (k', v) :: c' => if feqb k' k then (k', S v) :: c'
                     else (k', v) :: counter_incr k c'
  end.

(** [Node.Update] *)
Definition Update (n : Node) (r : float) : Node :=
  {| move := move n; parentNode := parentNode n; childNodes := childNodes n;
     wins := fadd (wins n) r; visits := visits n + 1;
     untriedMoves := untriedMoves n;
     playerJustMoved := playerJustMoved n;
     rollouts_counter := counter_incr r (rollouts_counter n);
     last_rollout_res := Some r |}.

Definition deref (heap : list Node) (i : nat) : result Node :=
  match heap !! i with
  | Some n => Ok n
  | None => Raise BadReference
  end.

(** [sum([k*v for k, v in c.items()]) / n]; [sum] adds from the left,
    starting from 0. *)
Definition counter_mean (c : list (float * nat)) (n : nat) : result float :=
  let s := foldl (λ acc kv, fadd acc (fmul kv.1 (of_nat kv.2))) zero c in
  py_div s n.

Definition last_res_std (node : Node) : result float :=
  let c := rollouts_counter node in
  let n := visits node in
  mean ← counter_mean c n;
  match last_rollout_res node with
  | None => Raise TypeError
  | Some r => Ok (fabs (fsub mean r))
  end.

(** The default [selected_std_function], [lambda c: 0]. *)
Definition zero_std (node : Node) : result float := Ok zero.

Section libm.
Variable libm_log : float → float.
Variable libm_pow2 : float → float.

(** [log(n)] for an integer [n] *)
Definition py_log (n : nat) : result float :=
  if decide (n = 0) then Raise ValueError else Ok (libm_log (of_nat n)).

(** [x ** 2]: NaN, the infinities, the zeros and [±1.0] are settled by
    Python; any other [x] goes to the C library as [pow(|x|, 2.0)], and an
    infinite outcome is reported as [OverflowError]. *)
Definition py_pow2 (x : float) : result float :=
  match x with
  | S754_nan => Ok S754_nan
  | S754_infinity _ => Ok (S754_infinity false)
  | S754_zero _ => Ok zero
  | S754_finite _ _ _ =>
      if feqb (fabs x) one then Ok one
      else match libm_pow2 (fabs x) with
           | S754_infinity _ => Raise OverflowError
           | y => Ok y
           end
  end.

(** The loop [for k, v in c.items(): std += v*((k-mean)**2)] from [std]. *)
Fixpoint sum_squares (mean : float) (std : float) (c : list (float * nat))
    : result float :=
  match c with
  | [] => Ok std
  | (k, v) :: c' =>
      sq ← py_pow2 (fsub k mean);
      sum_squares mean (fadd std (fmul (of_nat v) sq)) c'
  end.

Definition regular_std (node : Node) : result float :=
  let c := rollouts_counter node in
  let n := visits node in
  mean ← counter_mean c n;
  std ← sum_squares mean zero c;
  q ← py_div std n;
  py_sqrt q.

(** The sort key of [UCTSelectChild] for the child [c] of a node with
    [self_visits] visits; the sub-expressions are evaluated left to right. *)
Definition ucb_key (selection_function : Node → result float) (w : float)
    (self_visits : nat) (c : Node) : result float :=
  exploit ← py_div (wins c) (visits c);
  lg ← py_log self_visits;
  q ← py_div (fmul two lg) (visits c);
  explore ← py_sqrt q;
  hv ← selection_function c;
  Ok (fadd (fmul (fsub one w) (fadd exploit explore)) (fmul w hv)).

(** The value of the sort key when none of its operations raises: the
    blended score as the source computes it. *)
Definition float_score (w : float) (h : Node → float) (pv : nat) (c : Node)
    : float :=
  fadd (fmul (fsub one w)
             (fadd (fdiv (wins c) (of_nat (visits c)))
                   (fsqrt (fdiv (fmul two (libm_log (of_nat pv)))
                                (of_nat (visits c))))))
       (fmul w (h c)).

(** [Node.UCTSelectChild]; the sort compares the keys with [<] on floats. *)
Definition UCTSelectChild (selection_function : Node → result float) (w : float)
    (heap : list Node) (self : nat) : result nat :=
  nd ← deref heap self;
  s ← sorted fltb
        (λ c, cn ← deref heap c; ucb_key selection_function w (visits nd) cn)
        (childNodes nd);
  py_last s.
End libm.

(** *** What the specification's formulas denote

    The formulas of the specification read over the rationals and the
    reals, at the numbers the floats of a node stand for. *)

(** The blended selection score. *)
Definition exact_score (w : float) (h : Node → float) (pv : nat) (c : Node) : R :=
  ((1 - to_R w) * (to_R (wins c) / INR (visits c)
                   + sqrt (2 * ln (INR pv) / INR (visits c)))
   + to_R w * to_R (h c))%R.



End Node.
Arguments Node : clear implicits.
End F64.

(** ** Nodes on which rounding shows

    [log_table] gives the logarithm at the two counts it is read at here:
    [log(1.0)] is [+0.0] and [log(2.0)] is [0.6931471805599453], the float
    nearest to ln 2.  [square] is the correctly rounded square: it is what
    the C library returns when the square is a float, as it is for [0.0]
    and for a power of two, and what it returns up to its own rounding
    otherwise. *)

Module Rounding.
Import F64.
Abbreviation Node := (F64.Node nat bool).

Definition tenth : float := fdiv one (of_Z 10).       (* 0.1 *)
Definition next_tenth : float :=                      (* 0.10000000000000002 *)
  S754_finite false 7205759403792795 (-56).
Definition quarter : float := fdiv one (of_Z 4).      (* 0.25 *)
Definition half : float := fdiv one two.              (* 0.5 *)
Definition three_halves : float := fdiv (of_Z 3) two. (* 1.5 *)
Definition huge : float :=                            (* 1e200 *)
  S754_finite false 5883593420661338 612.

Definition log_table (x : float) : float :=
  if feqb x one then zero
  else if feqb x two then S754_finite false 6243314768165359 (-53)
  else S754_nan.
Definition square (x : float) : float := fmul x x.

(** The node built for the move [m] from two chips, and a node after the
    results [rs] were backpropagated through it, oldest first. *)
Definition fresh (m : nat) : Node :=
  Node_init (Some m) (Some 0) (DoMove (TakeAway.start 2) m).
Definition after (rs : list float) (n : Node) : Node := foldl Update n rs.

Definition two_tenths : Node := after [tenth; tenth] (fresh 1).
Definition three_tenths : Node := after [tenth; tenth; tenth] (fresh 1).

(** A root after two iterations: both moves tried, each child visited
    once. *)
Definition root : Node :=
  {| move := None; parentNode := None; childNodes := [1; 2];
     wins := one; visits := 2; untriedMoves := [];
     playerJustMoved := false;
     rollouts_counter := [(one, 1); (zero, 1)];
     last_rollout_res := Some zero |}.

(** Two children with the same statistics, whose heuristic values are
    neighbouring floats. *)
Definition close_store : list Node :=
  [root; after [half] (fresh 1); after [half] (fresh 2)].
Definition close_h (c : Node) : float :=
  match move c with Some 1 => next_tenth | _ => tenth end.

(** On the same children, a heuristic that is NaN on the second. *)
Definition nan_h (c : Node) : float :=
  match move c with Some 1 => tenth | _ => S754_nan end.

(** A child with a win and heuristic value [0.0], then a child with a
    draw and heuristic value [1.5]: at weight [0.25] the two scores are
    the same number, [0.75 * (1 + sqrt (2 ln 2))]. *)
Definition tied_store : list Node :=
  [root; after [one] (fresh 1); after [half] (fresh 2)].
Definition tied_h (c : Node) : float :=
  match move c with Some 1 => zero | _ => three_halves end.
End Rounding.

(** * Properties *)

(** ** The built-ins *)

Section builtins_facts.
Context {A : Type}.

Lemma list_remove_Some `{EqDecision A} (x : A) (l l' : list A) :
  list_remove x l = Some l' ↔
  ∃ l1 l2, l = l1 ++ (x :: l2) ∧ (x ∉ l1) ∧ l' = l1 ++ l2.
Proof.
  revert l'. induction l as [|y l IH]; intros l'; simpl.
  - split; [done|]. intros (l1 & l2 & Hl & _). by destruct l1.
  - destruct (decide (y = x)) as [->|Hne].
    + split.
      * intros [= <-]. exists [], l. split_and!; [done| |done]. apply not_elem_of_nil.
      * intros (l1 & l2 & Hl & Hnin & ->). destruct l1 as [|z l1]; simplify_eq/=; [done|].
        exfalso. apply Hnin. left.
    + destruct (list_remove x l) as [r|] eqn:Hr; simpl.
      * split.
        -- intros [= <-]. destruct (proj1 (IH r) eq_refl) as (l1 & l2 & -> & Hnin & ->).
           exists (y :: l1), l2. split_and!; [done| |done].
           rewrite not_elem_of_cons. done.
        -- intros (l1 & l2 & Hl & Hnin & ->). destruct l1 as [|z l1]; simplify_eq/=.
           f_equal. apply not_elem_of_cons in Hnin as [_ Hnin].
           assert (Some r = Some (l1 ++ l2)) as [= ->]; [|done].
           apply IH. eauto.
      * split; [done|]. intros (l1 & l2 & Hl & Hnin & ->).
        destruct l1 as [|z l1]; simplify_eq/=.
        apply not_elem_of_cons in Hnin as [_ Hnin].
        assert (None = Some (l1 ++ l2)) as [=]. apply IH. eauto.
Qed.

Lemma list_remove_None `{EqDecision A} (x : A) (l : list A) :
  list_remove x l = None ↔ x ∉ l.
Proof.
  induction l as [|y l IH]; simpl.
  - split; [intros _; apply not_elem_of_nil|done].
  - rewrite not_elem_of_cons. destruct (decide (y = x)) as [->|Hne].
    + split; [done|]. intros [? _]. done.
    + destruct (list_remove x l); simpl.
      * split; [done|]. intros [_ Hn]. by apply IH in Hn.
      * split; [|done]. intros _. split; [done|]. by apply IH.
Qed.

Lemma choice_Ok (r : nat) (l : list A) :
  l ≠ [] → ∃ x, choice r l = Ok x ∧ x ∈ l.
Proof.
  intros Hl. unfold choice. destruct l as [|y l]; [done|].
  assert (r mod length (y :: l) < length (y :: l)) as Hlt.
  { apply Nat.mod_upper_bound. simpl. lia. }
  apply lookup_lt_is_Some_2 in Hlt as [x Hx]. rewrite Hx.
  exists x. split; [done|]. by eapply list_elem_of_lookup_2.
Qed.

Lemma py_last_Ok (l : list A) (x : A) :
  py_last l = Ok x ↔ last l = Some x.
Proof. unfold py_last. destruct (last l); naive_solver. Qed.
End builtins_facts.

(** ** Sorting by a key and taking the last element *)

Section sorting_facts.
Context {A K : Type} (ltb : K → K → bool).
Hypothesis ltb_irrefl : ∀ x, ltb x x = false.
Hypothesis ltb_trans : ∀ x y z, ltb x y = true → ltb y z = true → ltb x z = true.
Hypothesis ltb_cotrans : ∀ x y z, ltb x y = true → ltb x z = true ∨ ltb z y = true.

Abbreviation ascending := (StronglySorted (λ x y : K * A, ltb y.1 x.1 = false)).

Lemma insert_by_perm (x : K * A) (l : list (K * A)) :
  insert_by ltb x l ≡ₚ x :: l.
Proof.
  induction l as [|y l IH]; simpl; [done|].
  destruct (ltb y.1 x.1); [|done].
  rewrite IH. apply Permutation_swap.
Qed.

Lemma sort_decorated_perm (l : list (K * A)) : sort_decorated ltb l ≡ₚ l.
Proof using Type.
  induction l as [|x l IH]; simpl; [done|].
  rewrite insert_by_perm. by rewrite IH.
Qed.

Lemma ltb_asym x y : ltb x y = true → ltb y x = false.
Proof using ltb_irrefl ltb_trans.
  intros Hxy. destruct (ltb y x) eqn:Hyx; [|done].
  rewrite <- (ltb_irrefl x). symmetry. by eapply ltb_trans.
Qed.

Lemma insert_by_ascending (x : K * A) (l : list (K * A)) :
  ascending l → ascending (insert_by ltb x l).
Proof using ltb_irrefl ltb_trans ltb_cotrans.
  induction 1 as [|y l Hl IH Hy]; simpl.
  - repeat constructor.
  - destruct (ltb y.1 x.1) eqn:Hyx.
    + constructor; [done|].
      rewrite insert_by_perm. constructor; [|done]. by apply ltb_asym.
    + constructor; [by constructor|]. constructor; [done|].
      rewrite Forall_forall in Hy |- *. intros z Hz.
      specialize (Hy z Hz). simpl in Hy.
      destruct (ltb z.1 x.1) eqn:Hzx; [|done].
      destruct (ltb_cotrans _ _ y.1 Hzx); congruence.
Qed.

Lemma sort_decorated_ascending (l : list (K * A)) :
  ascending (sort_decorated ltb l).
Proof using ltb_irrefl ltb_trans ltb_cotrans.
  induction l; simpl; [constructor|]. by apply insert_by_ascending.
Qed.

(** The sort is stable: elements of equal key keep their order.  A
    stable ascending sort has a single possible output, so the model does
    not depend on the sorting algorithm. *)
Lemma insert_by_stable (k : K) (x : K * A) (l : list (K * A)) :
  List.filter (λ y, negb (ltb y.1 k) && negb (ltb k y.1)) (insert_by ltb x l)
  = List.filter (λ y, negb (ltb y.1 k) && negb (ltb k y.1)) (x :: l).
Proof using ltb_cotrans.
  induction l as [|y l IH]; [done|].
  cbn [insert_by]. destruct (ltb y.1 x.1) eqn:Hyx; [|done].
  cbn [List.filter] in IH |- *. rewrite IH.
  destruct (ltb y.1 k) eqn:Hyk, (ltb k y.1) eqn:Hky; simpl;
    destruct (ltb x.1 k) eqn:Hxk, (ltb k x.1) eqn:Hkx; simpl; try done.
  destruct (ltb_cotrans _ _ k Hyx); congruence.
Qed.

Lemma sort_decorated_stable (k : K) (l : list (K * A)) :
  List.filter (λ y, negb (ltb y.1 k) && negb (ltb k y.1)) (sort_decorated ltb l)
  = List.filter (λ y, negb (ltb y.1 k) && negb (ltb k y.1)) l.
Proof using ltb_cotrans.
  induction l as [|x l IH]; [done|].
  cbn [sort_decorated foldr]. rewrite insert_by_stable.
  cbn [List.filter]. by rewrite <- IH.
Qed.

Lemma last_insert_by_le (x y : K * A) (l : list (K * A)) :
  last l = Some y → ltb y.1 x.1 = false →
  last (insert_by ltb x l) = Some y.
Proof using Type.
  induction l as [|z l IH]; [done|]. intros Hlast Hyx. simpl.
  destruct l as [|z' l].
  - simpl in Hlast. simplify_eq. by rewrite Hyx.
  - rewrite last_cons_cons in Hlast.
    destruct (ltb z.1 x.1).
    + specialize (IH Hlast Hyx). simpl in IH |- *.
      destruct (ltb z'.1 x.1); simpl in *; by rewrite ?last_cons_cons in *.
    + by rewrite !last_cons_cons.
Qed.

Lemma last_insert_by_lt (x y : K * A) (l : list (K * A)) :
  ascending l → last l = Some y → ltb y.1 x.1 = true →
  last (insert_by ltb x l) = Some x.
Proof using ltb_cotrans.
  induction 1 as [|z l Hl IH Hz]; [done|]. intros Hlast Hyx. simpl.
  assert (ltb z.1 x.1 = true) as ->.
  { destruct l as [|z' l]; [by simplify_eq/=|].
    rewrite last_cons_cons in Hlast.
    apply last_Some_elem_of in Hlast.
    rewrite Forall_forall in Hz. specialize (Hz y Hlast). simpl in Hz.
    destruct (ltb_cotrans _ _ z.1 Hyx); congruence. }
  destruct l as [|z' l]; [done|].
  rewrite last_cons_cons in Hlast. specialize (IH Hlast Hyx).
  simpl in IH |- *. destruct (ltb z'.1 x.1); by rewrite last_cons_cons.
Qed.

Lemma last_sort_decorated (l : list (K * A)) :
  last (sort_decorated ltb l) = last_max ltb l.
Proof using ltb_irrefl ltb_trans ltb_cotrans.
  induction l as [|x l IH]; [done|]. simpl. rewrite <- IH.
  destruct (last (sort_decorated ltb l)) as [y|] eqn:Hlast.
  - destruct (ltb y.1 x.1) eqn:Hyx.
    + eapply last_insert_by_lt; eauto using sort_decorated_ascending.
    + by eapply last_insert_by_le.
  - apply last_None in Hlast. by rewrite Hlast.
Qed.

Lemma last_max_None (l : list (K * A)) : last_max ltb l = None ↔ l = [].
Proof using Type.
  destruct l as [|x l]; simpl; [done|].
  destruct (last_max ltb l) as [y|]; [destruct (ltb y.1 x.1)|]; done.
Qed.

(** [last_max] picks an element of greatest key with every later element
    strictly below it. *)
Lemma last_max_Some (l : list (K * A)) (x : K * A) :
  last_max ltb l = Some x →
  ∃ l1 l2, l = l1 ++ (x :: l2) ∧
    (∀ y, y ∈ l1 → ltb x.1 y.1 = false) ∧
    (∀ y, y ∈ l2 → ltb y.1 x.1 = true).
Proof using ltb_irrefl ltb_trans ltb_cotrans.
  revert x. induction l as [|z l IH]; intros x; simpl; [done|].
  destruct (last_max ltb l) as [y|] eqn:Hmax.
  - destruct (IH y eq_refl) as (l1 & l2 & -> & H1 & H2).
    destruct (ltb y.1 z.1) eqn:Hyz; intros [= <-].
    + exists [], (l1 ++ y :: l2). split_and!; [done|by intros ? ?%elem_of_nil|].
      intros u [Hu|[->|Hu]%elem_of_cons]%elem_of_app; [|done|].
      * specialize (H1 u Hu).
        destruct (ltb_cotrans _ _ u.1 Hyz) as [?|?]; [congruence|done].
      * eapply ltb_trans; eauto.
    + exists (z :: l1), l2. split_and!; [done| |done].
      intros u [->|Hu]%elem_of_cons; [done|by apply H1].
  - apply last_max_None in Hmax as ->. intros [= <-].
    exists [], []. split_and!; [done|by intros ? ?%elem_of_nil..].
Qed.
End sorting_facts.

Section sorted_last.
Context {A K : Type} (ltb : K → K → bool).
Hypothesis ltb_irrefl : ∀ x, ltb x x = false.
Hypothesis ltb_trans : ∀ x y z, ltb x y = true → ltb y z = true → ltb x z = true.
Hypothesis ltb_cotrans : ∀ x y z, ltb x y = true → ltb x z = true ∨ ltb z y = true.
Implicit Types (key : A → result K) (l : list A).

Lemma decorate_Ok key l d :
  decorate key l = Ok d → Forall2 (λ a kd, key a = Ok kd.1 ∧ kd.2 = a) l d.
Proof using Type.
  unfold decorate. revert d. induction l as [|a l IH]; intros d; simpl.
  - intros [= <-]. constructor.
  - destruct (key a) as [k|e] eqn:Hk; simpl; [|done].
    destruct (mapM _ l) as [d'|e] eqn:Hd; simpl; [|done].
    intros [= <-]. constructor; [done|]. by apply IH.
Qed.

Lemma decorate_total key l :
  (∀ a, a ∈ l → is_Ok (key a)) → is_Ok (decorate key l).
Proof using Type.
  unfold decorate. induction l as [|a l IH]; intros Hall; simpl.
  - by eexists.
  - destruct (Hall a) as [k ->]; [left|]. simpl.
    destruct IH as [d ->]; [intros; apply Hall; by right|].
    by eexists.
Qed.

Lemma decorated_elem key l d y :
  Forall2 (λ a kd, key a = Ok kd.1 ∧ kd.2 = a) l d → y ∈ l →
  ∃ ky, key y = Ok ky ∧ (ky, y) ∈ d.
Proof using Type.
  induction 1 as [|a kd l d [Hk Ha] _ IH]; [by intros ?%elem_of_nil|].
  intros [->|Hy]%elem_of_cons.
  - exists kd.1. split; [done|]. destruct kd; simpl in *; subst. left.
  - destruct (IH Hy) as (ky & ? & ?). exists ky. split; [done|by right].
Qed.

(** [sorted(l, key)[-1]] is the last of the elements of greatest key. *)
Lemma sorted_last_Ok key l c :
  (s ← sorted ltb key l; py_last s) = Ok c →
  ∃ l1 l2 k, l = l1 ++ (c :: l2) ∧ key c = Ok k ∧
    (∀ y, y ∈ l1 → ∃ ky, key y = Ok ky ∧ ltb k ky = false) ∧
    (∀ y, y ∈ l2 → ∃ ky, key y = Ok ky ∧ ltb ky k = true).
Proof using ltb_irrefl ltb_trans ltb_cotrans.
  unfold sorted. destruct (decorate key l) as [d|e] eqn:Hd; simpl; [|done].
  apply decorate_Ok in Hd. rewrite py_last_Ok, fmap_last.
  rewrite last_sort_decorated by done.
  destruct (last_max ltb d) as [[k c']|] eqn:Hmax; simpl; [|done].
  intros [= ->].
  apply last_max_Some in Hmax as (d1 & d2 & -> & H1 & H2); [|done..].
  apply Forall2_app_inv_r in Hd as (l1 & l2' & Hd1 & Hd2 & ->).
  apply Forall2_cons_inv_r in Hd2 as (c' & l2 & [Hk Hc] & Hd2 & ->).
  simpl in Hk, Hc. subst c'.
  exists l1, l2, k. split_and!; [done..| |].
  - intros y Hy. destruct (decorated_elem _ _ _ _ Hd1 Hy) as (ky & ? & Hin).
    exists ky. split; [done|]. apply (H1 _ Hin).
  - intros y Hy. destruct (decorated_elem _ _ _ _ Hd2 Hy) as (ky & ? & Hin).
    exists ky. split; [done|]. apply (H2 _ Hin).
Qed.

Lemma sorted_last_total key l :
  l ≠ [] → (∀ a, a ∈ l → is_Ok (key a)) →
  is_Ok (s ← sorted ltb key l; py_last s).
Proof using ltb_irrefl ltb_trans ltb_cotrans.
  intros Hl Hall. unfold sorted.
  destruct (decorate_total key l Hall) as [d Hd]. rewrite Hd. simpl.
  apply decorate_Ok, Forall2_length in Hd.
  unfold py_last. rewrite fmap_last, last_sort_decorated by done.
  destruct (last_max ltb d) as [x|] eqn:Hmax; simpl; [by eexists|].
  apply last_max_None in Hmax as ->. by destruct l.
Qed.
End sorted_last.

(** The two orders the source sorts by. *)
Lemma Rltb_irrefl x : Rltb x x = false.
Proof. apply bool_decide_eq_false. lra. Qed.

Lemma Rltb_trans x y z : Rltb x y = true → Rltb y z = true → Rltb x z = true.
Proof. unfold Rltb. rewrite !bool_decide_eq_true. lra. Qed.

Lemma Rltb_cotrans x y z : Rltb x y = true → Rltb x z = true ∨ Rltb z y = true.
Proof.
  unfold Rltb. rewrite !bool_decide_eq_true. intros Hxy.
  destruct (Rlt_dec x z); [by left|right; lra].
Qed.

Lemma ltb_irrefl_nat x : Nat.ltb x x = false.
Proof. apply Nat.ltb_irrefl. Qed.

Lemma ltb_trans_nat x y z : Nat.ltb x y = true → Nat.ltb y z = true → Nat.ltb x z = true.
Proof. rewrite !Nat.ltb_lt. lia. Qed.

Lemma ltb_cotrans_nat x y z : Nat.ltb x y = true → Nat.ltb x z = true ∨ Nat.ltb z y = true.
Proof. rewrite !Nat.ltb_lt. lia. Qed.

(** ** Nodes: [Update] and [AddChild] *)

Section Node_facts.
Context {State Move Player : Type} `{EqDecision Move}
        `{G : GameState State Move Player}.
Abbreviation Node := (Node Move Player).
Implicit Types (n nd : Node) (heap : list Node) (c : list (Qc * nat)).

Lemma counter_get_incr_eq k c :
  counter_get k (counter_incr k c) = counter_get k c + 1.
Proof.
  induction c as [|[k' v] c IH]; simpl.
  - by rewrite decide_True.
  - destruct (decide (k' = k)) as [->|Hne]; simpl.
    + rewrite decide_True by done. lia.
    + by rewrite decide_False.
Qed.

Lemma counter_get_incr_ne k k' c :
  k' ≠ k → counter_get k' (counter_incr k c) = counter_get k' c.
Proof.
  intros Hne. induction c as [|[k0 v] c IH]; simpl.
  - by rewrite decide_False.
  - destruct (decide (k0 = k)) as [->|Hne0]; simpl.
    + by rewrite !decide_False.
    + destruct (decide (k0 = k')); done.
Qed.

Lemma counter_total_incr k c :
  counter_total (counter_incr k c) = counter_total c + 1.
Proof.
  unfold counter_total. induction c as [|[k' v] c IH]; csimpl; [done|].
  destruct (decide (k' = k)); csimpl; [|rewrite IH]; lia.
Qed.

(** C6. [AddChild(m, s)] on a node holding [m] among its untried moves
    drops the first [m] from [untriedMoves], appends a fresh node to
    [childNodes] and returns it; the fresh node has move [m], the moves and
    [playerJustMoved] of [s], and [self] as parent.  When [m] is not among
    the untried moves the call raises [ValueError] and leaves the node as it
    was.  No other node of the store changes. *)
Theorem AddChild_spec heap (self : nat) nd (m : Move) (s : State) :
  heap !! self = Some nd →
  (m ∈ untriedMoves nd →
     ∃ l1 l2 heap' nd' new,
       untriedMoves nd = l1 ++ (m :: l2) ∧ (m ∉ l1) ∧
       AddChild heap self m s = (heap', Ok (length heap)) ∧
       heap' !! self = Some nd' ∧
       untriedMoves nd' = l1 ++ l2 ∧
       childNodes nd' = childNodes nd ++ [length heap] ∧
       heap' !! length heap = Some new ∧
       new = Node_init (Some m) (Some self) s ∧
       move new = Some m ∧
       untriedMoves new = GetMoves s ∧
       playerJustMoved new = state_playerJustMoved s ∧
       (∀ j, j ≠ self → j < length heap → heap' !! j = heap !! j))
  ∧ (m ∉ untriedMoves nd →
     ∃ heap', AddChild heap self m s = (heap', Raise ValueError) ∧
       heap' !! self = Some nd ∧
       (∀ j, j < length heap → heap' !! j = heap !! j)).
Proof.
  intros Hself. pose proof (lookup_lt_Some _ _ _ Hself) as Hlt.
  unfold AddChild. rewrite Hself. split.
  - intros Hin.
    destruct (list_remove m (untriedMoves nd)) as [u|] eqn:Hu.
    2:{ apply list_remove_None in Hu. done. }
    apply list_remove_Some in Hu as (l1 & l2 & Hl & Hnin & ->).
    eexists l1, l2, _, _, _. split_and!; try done.
    + rewrite list_lookup_insert_eq; [done|]. rewrite length_app. simpl. lia.
    + done.
    + done.
    + rewrite list_lookup_insert_ne by lia.
      rewrite lookup_app_r by lia. by rewrite Nat.sub_diag.
    + intros j Hj Hjlt. rewrite list_lookup_insert_ne by done.
      by rewrite lookup_app_l.
  - intros Hnin. apply list_remove_None in Hnin. rewrite Hnin.
    eexists. split_and!; [done| |].
    + by rewrite lookup_app_l.
    + intros j Hj. by rewrite lookup_app_l.
Qed.

(** What a history says about the statistics of a node. *)
Lemma history_stats n rs :
  history n rs →
  visits n = length rs
  ∧ counter_total (rollouts_counter n) = length rs
  ∧ last_rollout_res n = last rs
  ∧ wins n = foldl Qcplus 0%Qc rs.
Proof.
  induction 1 as [m p s|n rs r _ (Hv & Hc & Hl & Hw)|n rs u _ IH|n rs c _ IH];
    simpl; try done.
  rewrite length_app, counter_total_incr, last_snoc, foldl_app. simpl.
  rewrite Hv, Hc, Hw. split_and!; done.
Qed.
End Node_facts.

(** ** Rationals as reals *)

Lemma Qc2R_Q2Qc (q : Q) : Qc2R (Q2Qc q) = Q2R q.
Proof. unfold Qc2R. simpl. apply Qeq_eqR, Qred_correct. Qed.

Lemma Qc2R_0 : Qc2R 0 = 0%R.
Proof. unfold Qc2R. simpl. unfold Q2R. simpl. lra. Qed.

Lemma Qc2R_1 : Qc2R 1 = 1%R.
Proof. unfold Qc2R. simpl. unfold Q2R. simpl. lra. Qed.

Lemma Qc2R_plus (x y : Qc) : Qc2R (x + y) = (Qc2R x + Qc2R y)%R.
Proof. unfold Qcplus. rewrite Qc2R_Q2Qc. apply Q2R_plus. Qed.

Lemma Qc2R_mult (x y : Qc) : Qc2R (x * y) = (Qc2R x * Qc2R y)%R.
Proof. unfold Qcmult. rewrite Qc2R_Q2Qc. apply Q2R_mult. Qed.

Lemma Qc2R_opp (x : Qc) : Qc2R (- x) = (- Qc2R x)%R.
Proof. unfold Qcopp. rewrite Qc2R_Q2Qc. apply Q2R_opp. Qed.

Lemma Qc2R_minus (x y : Qc) : Qc2R (x - y) = (Qc2R x - Qc2R y)%R.
Proof. unfold Qcminus. rewrite Qc2R_plus, Qc2R_opp. lra. Qed.

Lemma Qc2R_of_nat (n : nat) : Qc2R (Qc_of_nat n) = INR n.
Proof.
  unfold Qc_of_nat. rewrite Qc2R_Q2Qc. unfold Q2R. simpl.
  rewrite INR_IZR_INZ. lra.
Qed.

Lemma Qc2R_div_nat (x : Qc) (n : nat) :
  n ≠ 0 → Qc2R (x / Qc_of_nat n) = (Qc2R x / INR n)%R.
Proof.
  intros Hn. unfold Qcdiv. rewrite Qc2R_mult. unfold Rdiv. f_equal.
  unfold Qcinv. rewrite Qc2R_Q2Qc, Q2R_inv.
  - f_equal. apply Qc2R_of_nat.
  - intros Heq. apply Qeq_eqR in Heq.
    change (Q2R (Qc_of_nat n)) with (Qc2R (Qc_of_nat n)) in Heq.
    rewrite Qc2R_of_nat in Heq. change (Q2R 0) with (Qc2R 0) in Heq.
    rewrite Qc2R_0 in Heq. apply (not_0_INR n); done.
Qed.

Lemma Qc2R_sq (x : Qc) : Qc2R (x ^ 2) = (Qc2R x ^ 2)%R.
Proof. simpl. rewrite !Qc2R_mult, Qc2R_1. lra. Qed.

Lemma Qc2R_foldl_sum (g : Qc → Qc * nat → Qc) (f : Qc → nat → R)
    (a : Qc) (c : list (Qc * nat)) :
  (∀ acc kv, Qc2R (g acc kv) = (Qc2R acc + f kv.1 kv.2)%R) →
  Qc2R (foldl g a c) = (Qc2R a + Rsum_items f c)%R.
Proof.
  intros Hg. revert a. induction c as [|kv c IH]; intros a; simpl.
  - lra.
  - rewrite IH, Hg. lra.
Qed.

Lemma Rsum_items_nonneg (f : Qc → nat → R) (c : list (Qc * nat)) :
  (∀ k v, 0 <= f k v)%R → (0 <= Rsum_items f c)%R.
Proof.
  intros Hf. induction c as [|[k v] c IH]; simpl; [lra|].
  specialize (Hf k v). lra.
Qed.

(** ** The heuristics *)

Section heuristics_facts.
Context {State Move Player : Type} `{EqDecision Move}
        `{G : GameState State Move Player}.
Abbreviation Node := (Node Move Player).
Implicit Types (node : Node).

Lemma counter_mean_Ok node :
  1 ≤ visits node →
  ∃ mean, counter_mean (rollouts_counter node) (visits node) = Ok mean
          ∧ Qc2R mean = spec_mean node.
Proof.
  intros Hv. unfold counter_mean. rewrite decide_False by lia.
  eexists. split; [done|].
  rewrite Qc2R_div_nat by lia. unfold spec_mean. f_equal.
  rewrite (Qc2R_foldl_sum _ (λ k v, Qc2R k * INR v)%R).
  - rewrite Qc2R_0. lra.
  - intros acc kv. by rewrite Qc2R_plus, Qc2R_mult, Qc2R_of_nat.
Qed.

Lemma spec_variance_nonneg node :
  1 ≤ visits node →
  (0 <= Rsum_items (λ k v, INR v * (Qc2R k - spec_mean node) ^ 2)
          (rollouts_counter node) / INR (visits node))%R.
Proof.
  intros Hv. apply Rle_mult_inv_pos; [|apply lt_0_INR; lia].
  apply Rsum_items_nonneg. intros k v.
  apply Rmult_le_pos; [apply pos_INR|]. apply pow2_ge_0.
Qed.

Lemma regular_std_Ok node :
  1 ≤ visits node → regular_std node = Ok (spec_std node).
Proof.
  intros Hv. unfold regular_std.
  destruct (counter_mean_Ok node Hv) as (mean & -> & Hmean).
  unfold mbind, result_bind.
  assert (Qc2R (foldl (λ acc kv, acc + Qc_of_nat kv.2 * (kv.1 - mean) ^ 2)%Qc
                  0%Qc (rollouts_counter node) / Qc_of_nat (visits node))
          = (Rsum_items (λ k v, INR v * (Qc2R k - spec_mean node) ^ 2)
               (rollouts_counter node) / INR (visits node))%R) as Heq.
  { rewrite Qc2R_div_nat by lia. f_equal.
    rewrite (Qc2R_foldl_sum _ (λ k v, INR v * (Qc2R k - spec_mean node) ^ 2)%R).
    - rewrite Qc2R_0. lra.
    - intros acc kv.
      by rewrite Qc2R_plus, Qc2R_mult, Qc2R_of_nat, Qc2R_sq, Qc2R_minus, Hmean. }
  unfold py_sqrt. rewrite Heq. rewrite decide_False.
  - done.
  - pose proof (spec_variance_nonneg node Hv). lra.
Qed.

Lemma last_res_std_Ok node (r : Qc) :
  1 ≤ visits node → last_rollout_res node = Some r →
  last_res_std node = Ok (Rabs (spec_mean node - Qc2R r)).
Proof.
  intros Hv Hr. unfold last_res_std.
  destruct (counter_mean_Ok node Hv) as (mean & -> & Hmean). simpl.
  by rewrite Hr, Qc2R_minus, Hmean.
Qed.

Lemma history_last node rs :
  history node rs → 1 ≤ visits node → is_Some (last_rollout_res node).
Proof.
  intros (Hv & _ & Hl & _)%history_stats Hge. rewrite Hl.
  apply last_is_Some. intros ->. simpl in Hv. lia.
Qed.

End heuristics_facts.

(** ** Selection *)

Section Selection_facts.
Context {Move Player : Type}.
Abbreviation Node := (Node Move Player).
Implicit Types (heap : list Node) (h : Node → result R) (w : R).

Lemma ln_INR_nonneg (n : nat) : 1 ≤ n → (0 <= ln (INR n))%R.
Proof.
  intros Hn. destruct (decide (n = 1)) as [->|Hne].
  - simpl. rewrite ln_1. lra.
  - rewrite <- ln_1. left. apply ln_increasing; [lra|].
    change 1%R with (INR 1). apply lt_INR. lia.
Qed.

Lemma py_div_Ok (x : R) (n : nat) : 1 ≤ n → py_div x n = Ok (x / INR n)%R.
Proof. intros Hn. unfold py_div. by rewrite decide_False by lia. Qed.

Lemma ucb_key_Ok h w (pv : nat) (c : Node) (hv : R) :
  1 ≤ pv → 1 ≤ visits c → h c = Ok hv →
  ucb_key h w pv c
  = Ok ((1 - w) * (Qc2R (wins c) / INR (visits c)
                   + sqrt (2 * ln (INR pv) / INR (visits c)))
        + w * hv)%R.
Proof.
  intros Hpv Hcv Hh. unfold ucb_key.
  rewrite py_div_Ok by done. simpl.
  unfold py_log. rewrite decide_False by lia. simpl.
  rewrite py_div_Ok by done. simpl.
  unfold py_sqrt. rewrite decide_False.
  - simpl. by rewrite Hh.
  - apply Rle_not_lt. apply Rle_mult_inv_pos; [|apply lt_0_INR; lia].
    pose proof (ln_INR_nonneg pv Hpv). lra.
Qed.

(** [UCTSelectChild] on a visited node whose children are all visited and
    on which the heuristic returns: the call returns a child whose key is
    greatest, and every child listed after it has a strictly smaller key. *)
Lemma UCTSelectChild_Ok h w heap (p : nat) (pn : Node) (hval : Node → R) :
  heap !! p = Some pn → childNodes pn ≠ [] → 1 ≤ visits pn →
  (∀ c, c ∈ childNodes pn →
     ∃ cn, heap !! c = Some cn ∧ 1 ≤ visits cn ∧ h cn = Ok (hval cn)) →
  ∃ c cn l1 l2,
    UCTSelectChild h w heap p = Ok c ∧ heap !! c = Some cn ∧
    childNodes pn = l1 ++ (c :: l2) ∧
    (∀ c' cn', c' ∈ l1 → heap !! c' = Some cn' →
       (blended_score w hval (visits pn) cn'
        <= blended_score w hval (visits pn) cn)%R) ∧
    (∀ c' cn', c' ∈ l2 → heap !! c' = Some cn' →
       (blended_score w hval (visits pn) cn'
        < blended_score w hval (visits pn) cn)%R).
Proof.
  intros Hp Hne Hpv Hch. unfold UCTSelectChild.
  replace (deref heap p) with (Ok pn) by (unfold deref; by rewrite Hp).
  unfold mbind at 1, result_bind at 1.
  set (key := λ c, cn ← deref heap c; ucb_key h w (visits pn) cn).
  assert (∀ c cn, c ∈ childNodes pn → heap !! c = Some cn →
            key c = Ok (blended_score w hval (visits pn) cn)) as Hkey.
  { intros c cn Hc Hcn. destruct (Hch c Hc) as (cn' & Hcn' & Hv & Hh).
    rewrite Hcn in Hcn'. injection Hcn' as <-.
    unfold key, deref. rewrite Hcn. simpl.
    by apply ucb_key_Ok. }
  destruct (sorted_last_total Rltb Rltb_irrefl Rltb_trans Rltb_cotrans
              key (childNodes pn)) as [c Hc]; [done| |].
  { intros c Hc. destruct (Hch c Hc) as (cn & Hcn & _).
    eexists. by eapply Hkey. }
  apply sorted_last_Ok in Hc as Hspec;
    [|apply Rltb_irrefl|apply Rltb_trans|apply Rltb_cotrans].
  destruct Hspec as (l1 & l2 & k & Hl & Hk & H1 & H2).
  assert (c ∈ childNodes pn) as Hcin.
  { rewrite Hl. apply elem_of_app. right. left. }
  destruct (Hch c Hcin) as (cn & Hcn & _).
  rewrite (Hkey c cn Hcin Hcn) in Hk. injection Hk as <-.
  exists c, cn, l1, l2. split_and!; [done..| |].
  - intros c' cn' Hc' Hcn'. destruct (H1 c' Hc') as (k' & Hk' & Hlt).
    rewrite (Hkey c' cn') in Hk'; [|rewrite Hl; apply elem_of_app; by left|done].
    injection Hk' as <-. apply bool_decide_eq_false in Hlt. lra.
  - intros c' cn' Hc' Hcn'. destruct (H2 c' Hc') as (k' & Hk' & Hlt).
    rewrite (Hkey c' cn') in Hk';
      [|rewrite Hl; apply elem_of_app; right; by right|done].
    injection Hk' as <-. by apply bool_decide_eq_true in Hlt.
Qed.

End Selection_facts.

(** ** The order of binary64 floats *)

Section float_order.
Import F64.
Implicit Types (x y z : float).

Lemma total_ltb_irrefl x : total_ltb x x = false.
Proof. apply bool_decide_eq_false. unfold lex_lt. lia. Qed.

Lemma total_ltb_trans x y z :
  total_ltb x y = true → total_ltb y z = true → total_ltb x z = true.
Proof. unfold total_ltb. rewrite !bool_decide_eq_true. unfold lex_lt. lia. Qed.

Lemma total_ltb_cotrans x y z :
  total_ltb x y = true → total_ltb x z = true ∨ total_ltb z y = true.
Proof. unfold total_ltb. rewrite !bool_decide_eq_true. unfold lex_lt. lia. Qed.

Lemma fltb_rank x y :
  is_nan x = false → is_nan y = false →
  fltb x y = true ↔ lex_lt (rank x) (rank y).
Proof.
  unfold fltb, SFltb, lex_lt.
  destruct x as [[]|[]| |[] m1 e1], y as [[]|[]| |[] m2 e2]; simpl;
    intros ? ?; try done; try (split; [intros; lia|done]); try (split; [done|intros; lia]).
  all: try change (Pos.compare_cont Eq m1 m2) with (Pos.compare m1 m2).
  all: try (destruct (Z.compare_spec e1 e2), (Pos.compare_spec m1 m2); simpl; split; try done; try lia).
Qed.

Lemma fltb_total_ltb x y :
  is_nan x = false → is_nan y = false → fltb x y = total_ltb x y.
Proof.
  intros Hx Hy. pose proof (fltb_rank x y Hx Hy) as H. unfold total_ltb.
  destruct (fltb x y).
  - symmetry. apply bool_decide_eq_true. by apply H.
  - symmetry. apply bool_decide_eq_false. intros Hlt. apply H in Hlt. done.
Qed.

Lemma feqb_rank x y :
  feqb x y = true ↔ is_nan x = false ∧ is_nan y = false ∧ rank x = rank y.
Proof.
  unfold feqb, SFeqb.
  destruct x as [[]|[]| |[] m1 e1], y as [[]|[]| |[] m2 e2]; simpl;
    try (split; [done|by intros (? & ? & ?)]); try done.
  all: change (Pos.compare_cont Eq m1 m2) with (Pos.compare m1 m2).
  all: destruct (Z.compare_spec e1 e2), (Pos.compare_spec m1 m2); simpl;
    (split; [try done; intros _; split_and!; try done; f_equal; try lia; congruence
            |try done; intros (_ & _ & [=]); lia]).
Qed.

Lemma feqb_refl x : is_nan x = false → feqb x x = true.
Proof. intros Hx. by apply feqb_rank. Qed.

Lemma feqb_sym x y : feqb x y = feqb y x.
Proof.
  destruct (feqb x y) eqn:Hxy, (feqb y x) eqn:Hyx; try done.
  - apply feqb_rank in Hxy as (? & ? & ?).
    rewrite <- Hyx. symmetry. by apply feqb_rank.
  - apply feqb_rank in Hyx as (? & ? & ?).
    rewrite <- Hxy. by apply feqb_rank.
Qed.

Lemma feqb_trans x y z : feqb x y = true → feqb y z = true → feqb x z = true.
Proof.
  rewrite !feqb_rank. intros (? & ? & ?) (? & ? & ?). split_and!; congruence.
Qed.

(** The three comparisons of floats that are not NaN. *)
Lemma fleb_fltb x y :
  is_nan x = false → is_nan y = false → fleb x y = negb (fltb y x).
Proof.
  unfold fleb, fltb, SFleb, SFltb.
  destruct x as [[]|[]| |[] m1 e1], y as [[]|[]| |[] m2 e2]; simpl;
    intros ? ?; try done.
  all: change (Pos.compare_cont Eq m1 m2) with (Pos.compare m1 m2).
  all: change (Pos.compare_cont Eq m2 m1) with (Pos.compare m2 m1).
  all: rewrite (Z.compare_antisym e1 e2), (Pos.compare_antisym m1 m2).
  all: destruct (e1 ?= e2)%Z, (m1 ?= m2)%positive; done.
Qed.
End float_order.

(** ** Sorting with two comparisons that agree on the keys *)

Section sort_ext.
Context {A K : Type} (ltb1 ltb2 : K → K → bool) (P : K → Prop).
Hypothesis ltb_agree : ∀ k k', P k → P k' → ltb1 k k' = ltb2 k k'.

Lemma insert_by_ext (x : K * A) (l : list (K * A)) :
  P x.1 → Forall (λ y, P y.1) l → insert_by ltb1 x l = insert_by ltb2 x l.
Proof using ltb_agree.
  intros Hx. induction 1 as [|y l Hy Hl IH]; simpl; [done|].
  rewrite (ltb_agree _ _ Hy Hx), IH. done.
Qed.

Lemma sort_decorated_ext (l : list (K * A)) :
  Forall (λ y, P y.1) l → sort_decorated ltb1 l = sort_decorated ltb2 l.
Proof using ltb_agree.
  induction 1 as [|x l Hx Hl IH]; simpl; [done|].
  rewrite IH. apply insert_by_ext; [done|].
  by rewrite sort_decorated_perm.
Qed.

Lemma sorted_ext (key : A → result K) (l : list A) :
  (∀ a k, a ∈ l → key a = Ok k → P k) →
  sorted ltb1 key l = sorted ltb2 key l.
Proof using ltb_agree.
  intros HP. unfold sorted.
  destruct (decorate key l) as [d|e] eqn:Hd; simpl; [|done].
  rewrite sort_decorated_ext; [done|].
  apply decorate_Ok in Hd. clear -Hd HP.
  induction Hd as [|a kd l d [Hk Ha] _ IH]; constructor.
  - eapply HP; [left|done].
  - apply IH. intros a' k' Ha' Hk'. eapply HP; [by right|done].
Qed.
End sort_ext.

(** ** Signs of rounded results *)

Section float_signs.
Import F64.
Implicit Types (x y z : float).

Lemma binary_round_aux_unsigned m e l :
  unsigned (binary_round_aux prec emax false m e l) = true.
Proof.
  unfold binary_round_aux.
  destruct (shr_fexp prec emax m e l) as [mrs' e'].
  destruct (shr_fexp prec emax _ e' loc_Exact) as [mrs'' e''].
  destruct (shr_m mrs''); [done| |done].
  by destruct (Z.leb _ _).
Qed.

Lemma binary_round_unsigned m e :
  unsigned (binary_round prec emax false m e) = true.
Proof.
  unfold binary_round. destruct (shl_align _ _ _) as [mz ez].
  apply binary_round_aux_unsigned.
Qed.

Lemma of_nat_unsigned (n : nat) : unsigned (of_nat n) = true.
Proof.
  unfold of_nat, of_Z, binary_normalize.
  destruct (Z.of_nat n) eqn:Hn; [done|apply binary_round_unsigned|lia].
Qed.

Lemma unsigned_not_negative x : unsigned x = true → fltb x zero = false.
Proof. by destruct x as [[]|[]| |[] m e]. Qed.


Lemma fmul_unsigned x y :
  unsigned x = true → unsigned y = true → unsigned (fmul x y) = true.
Proof.
  destruct x as [[]|[]| |[] m1 e1], y as [[]|[]| |[] m2 e2]; try done.
  intros _ _. apply binary_round_aux_unsigned.
Qed.


Lemma fdiv_unsigned x y :
  unsigned x = true → unsigned y = true → unsigned (fdiv x y) = true.
Proof.
  destruct x as [[]|[]| |[] m1 e1], y as [[]|[]| |[] m2 e2]; try done.
  intros _ _. unfold fdiv, SFdiv.
  destruct (SFdiv_core_binary _ _ _ _ _ _) as [[mz ez] lz].
  apply binary_round_aux_unsigned.
Qed.



(** Twice a float that is not below zero, and its quotient by a count,
    are not below zero. *)
Lemma fmul_two_not_negative x :
  fltb x zero = false → fltb (fmul two x) zero = false.
Proof.
  destruct x as [[]|[]| |[] m e]; try done.
  intros _. apply unsigned_not_negative.
  apply (fmul_unsigned two (S754_finite false m e)); done.
Qed.

Lemma fdiv_not_negative x y :
  fltb x zero = false → unsigned y = true → fltb (fdiv x y) zero = false.
Proof.
  destruct x as [[]|[]| |[] m1 e1]; try done;
    try (intros _ Hy; apply unsigned_not_negative; by apply fdiv_unsigned).
  by destruct y as [[]|[]| |[] m2 e2].
Qed.

End float_signs.

(** ** [Update] and the heuristics in binary64 *)

Section float_node_facts.
Import F64.
Context {State Move Player : Type} `{G : GameState State Move Player}.
Abbreviation Node := (F64.Node Move Player).
Implicit Types (n node : Node) (c : list (float * nat)) (x y r k : float).

Lemma float_counter_get_incr_eq r c :
  is_nan r = false → counter_get r (counter_incr r c) = counter_get r c + 1.
Proof.
  intros Hr. induction c as [|[k v] c IH]; simpl.
  - rewrite feqb_refl by done. done.
  - destruct (feqb k r) eqn:Hk; simpl; rewrite Hk; [lia|done].
Qed.

Lemma float_counter_get_incr_ne r k c :
  feqb k r = false → counter_get k (counter_incr r c) = counter_get k c.
Proof.
  intros Hne. induction c as [|[k0 v] c IH]; simpl.
  - by rewrite feqb_sym, Hne.
  - destruct (feqb k0 r) eqn:Hk0; simpl.
    + destruct (feqb k0 k) eqn:Hk0k; [|done].
      rewrite feqb_sym in Hk0k.
      by rewrite (feqb_trans _ _ _ Hk0k Hk0) in Hne.
    + by rewrite IH.
Qed.

(** C7. [Update(r)] adds one visit, replaces [wins] by the rounded sum of
    [wins] and [r], adds one to the count stored for [r] in
    [rollouts_counter] when [r] is not NaN (the counts of the other keys
    stay), and sets [last_rollout_res] to [r]; the rest of the node is
    untouched. *)
Theorem Update_float_spec n r :
  visits (Update n r) = visits n + 1
  ∧ wins (Update n r) = fadd (wins n) r
  ∧ (is_nan r = false →
     counter_get r (rollouts_counter (Update n r))
     = counter_get r (rollouts_counter n) + 1)
  ∧ (∀ k, feqb k r = false →
       counter_get k (rollouts_counter (Update n r))
       = counter_get k (rollouts_counter n))
  ∧ last_rollout_res (Update n r) = Some r
  ∧ move (Update n r) = move n
  ∧ parentNode (Update n r) = parentNode n
  ∧ childNodes (Update n r) = childNodes n
  ∧ untriedMoves (Update n r) = untriedMoves n
  ∧ playerJustMoved (Update n r) = playerJustMoved n.
Proof.
  split_and!; try reflexivity; simpl.
  - intros Hr. by apply float_counter_get_incr_eq.
  - intros k Hk. by apply float_counter_get_incr_ne.
Qed.

Lemma float_py_div_Ok x (m : nat) : 1 ≤ m → py_div x m = Ok (fdiv x (of_nat m)).
Proof. intros Hm. unfold py_div. by rewrite decide_False by lia. Qed.

Section squares.
Variable libm_pow2 : float → float.
Hypothesis libm_pow2_unsigned : ∀ x, unsigned (libm_pow2 x) = true.



End squares.

End float_node_facts.

(** ** Selection in binary64 *)

Section float_selection_facts.
Import F64.
Context {Move Player : Type}.
Abbreviation Node := (F64.Node Move Player).
Implicit Types (heap : list Node) (w : float) (h : Node → float).

Lemma float_ucb_key_Ok libm_log h w (pv : nat) (c : Node) :
  1 ≤ pv → 1 ≤ visits c → fltb (libm_log (of_nat pv)) zero = false →
  ucb_key libm_log (λ n, Ok (h n)) w pv c
  = Ok (float_score libm_log w h pv c).
Proof.
  intros Hpv Hcv Hlog. unfold ucb_key.
  rewrite float_py_div_Ok by done. unfold mbind at 1, result_bind at 1.
  unfold py_log. rewrite decide_False by lia.
  unfold mbind at 1, result_bind at 1.
  rewrite float_py_div_Ok by done. unfold mbind at 1, result_bind at 1.
  unfold py_sqrt.
  rewrite fdiv_not_negative;
    [done|by apply fmul_two_not_negative|apply of_nat_unsigned].
Qed.

(** [UCTSelectChild] on a visited node whose children are all visited,
    when the logarithm of the visits is not below zero and no key is NaN:
    the call returns a child such that no child before it has a greater key
    and every child after it has a smaller key. *)
Lemma float_UCTSelectChild_Ok libm_log h w heap (p : nat) (pn : Node) :
  heap !! p = Some pn → childNodes pn ≠ [] → 1 ≤ visits pn →
  (∀ c, c ∈ childNodes pn → ∃ cn, heap !! c = Some cn ∧ 1 ≤ visits cn) →
  fltb (libm_log (of_nat (visits pn))) zero = false →
  (∀ c cn, c ∈ childNodes pn → heap !! c = Some cn →
     is_nan (float_score libm_log w h (visits pn) cn) = false) →
  ∃ c cn l1 l2,
    UCTSelectChild libm_log (λ n, Ok (h n)) w heap p = Ok c ∧
    heap !! c = Some cn ∧ childNodes pn = l1 ++ (c :: l2) ∧
    (∀ c' cn', c' ∈ l1 → heap !! c' = Some cn' →
       fleb (float_score libm_log w h (visits pn) cn')
            (float_score libm_log w h (visits pn) cn) = true) ∧
    (∀ c' cn', c' ∈ l2 → heap !! c' = Some cn' →
       fltb (float_score libm_log w h (visits pn) cn')
            (float_score libm_log w h (visits pn) cn) = true).
Proof.
  intros Hp Hne Hpv Hch Hlog Hnan. unfold UCTSelectChild.
  replace (deref heap p) with (Ok pn) by (unfold deref; by rewrite Hp).
  unfold mbind at 1, result_bind at 1.
  set (key := λ c, cn ← deref heap c;
                   ucb_key libm_log (λ n, Ok (h n)) w (visits pn) cn).
  assert (∀ c cn, c ∈ childNodes pn → heap !! c = Some cn →
            key c = Ok (float_score libm_log w h (visits pn) cn)) as Hkey.
  { intros c cn Hc Hcn. destruct (Hch c Hc) as (cn' & Hcn' & Hv).
    rewrite Hcn in Hcn'. injection Hcn' as <-.
    unfold key, deref. rewrite Hcn. simpl. by apply float_ucb_key_Ok. }
  rewrite (sorted_ext fltb total_ltb (λ k, is_nan k = false) fltb_total_ltb).
  2:{ intros c k Hc Hk. destruct (Hch c Hc) as (cn & Hcn & _).
      rewrite (Hkey c cn Hc Hcn) in Hk. injection Hk as <-. by eapply Hnan. }
  destruct (sorted_last_total total_ltb total_ltb_irrefl total_ltb_trans
              total_ltb_cotrans key (childNodes pn)) as [c Hc]; [done| |].
  { intros c Hc. destruct (Hch c Hc) as (cn & Hcn & _).
    eexists. by eapply Hkey. }
  apply sorted_last_Ok in Hc as Hspec;
    [|apply total_ltb_irrefl|apply total_ltb_trans|apply total_ltb_cotrans].
  destruct Hspec as (l1 & l2 & k & Hl & Hk & H1 & H2).
  assert (c ∈ childNodes pn) as Hcin.
  { rewrite Hl. apply elem_of_app. right. left. }
  destruct (Hch c Hcin) as (cn & Hcn & _).
  rewrite (Hkey c cn Hcin Hcn) in Hk. injection Hk as <-.
  pose proof (Hnan c cn Hcin Hcn) as Hn.
  exists c, cn, l1, l2. split_and!; [done..| |].
  - intros c' cn' Hc' Hcn'. destruct (H1 c' Hc') as (k' & Hk' & Hlt).
    assert (c' ∈ childNodes pn) as Hin' by (rewrite Hl; apply elem_of_app; by left).
    rewrite (Hkey c' cn' Hin' Hcn') in Hk'. injection Hk' as <-.
    pose proof (Hnan c' cn' Hin' Hcn') as Hn'.
    rewrite fleb_fltb, fltb_total_ltb by done. by rewrite Hlt.
  - intros c' cn' Hc' Hcn'. destruct (H2 c' Hc') as (k' & Hk' & Hlt).
    assert (c' ∈ childNodes pn) as Hin'
      by (rewrite Hl; apply elem_of_app; right; by right).
    rewrite (Hkey c' cn' Hin' Hcn') in Hk'. injection Hk' as <-.
    pose proof (Hnan c' cn' Hin' Hcn') as Hn'.
    by rewrite fltb_total_ltb by done.
Qed.

Lemma fleb_refl (x : float) : is_nan x = false → fleb x x = true.
Proof.
  intros Hx. rewrite fleb_fltb by done.
  rewrite fltb_total_ltb by done. by rewrite total_ltb_irrefl.
Qed.

Lemma fltb_fleb (x y : float) : fltb x y = true → fleb x y = true.
Proof.
  unfold fltb, fleb, SFltb, SFleb. by destruct (SFcompare x y) as [[]|].
Qed.

(** C2. On a node [p] with children, [p.visits > 0] and every child
    visited, when the logarithm of [p.visits] is not below zero and no
    child's score is NaN, [UCTSelectChild(h, w)] returns a child of [p]
    whose blended score, as the source computes it in binary64, is not
    exceeded by the computed score of any child of [p]. *)
Theorem UCTSelectChild_maximises_key libm_log heap (p : nat) (pn : Node) w h :
  heap !! p = Some pn → childNodes pn ≠ [] → 0 < visits pn →
  (∀ c, c ∈ childNodes pn → ∃ cn, heap !! c = Some cn ∧ 0 < visits cn) →
  fltb (libm_log (of_nat (visits pn))) zero = false →
  (∀ c cn, c ∈ childNodes pn → heap !! c = Some cn →
     is_nan (float_score libm_log w h (visits pn) cn) = false) →
  ∃ c cn,
    UCTSelectChild libm_log (λ n, Ok (h n)) w heap p = Ok c ∧
    c ∈ childNodes pn ∧ heap !! c = Some cn ∧
    ∀ c' cn', c' ∈ childNodes pn → heap !! c' = Some cn' →
      fleb (float_score libm_log w h (visits pn) cn')
           (float_score libm_log w h (visits pn) cn) = true.
Proof.
  intros Hp Hne Hpv Hch Hlog Hnan.
  destruct (float_UCTSelectChild_Ok libm_log h w heap p pn Hp Hne)
    as (c & cn & l1 & l2 & Hsel & Hcn & Hl & H1 & H2); [lia| |done..|].
  { intros c Hc. destruct (Hch c Hc) as (cn & ? & ?). exists cn.
    split; [done|lia]. }
  assert (c ∈ childNodes pn) as Hcin.
  { rewrite Hl. apply elem_of_app. right. left. }
  exists c, cn. split_and!; [done..|].
  intros c' cn' Hc' Hcn'. rewrite Hl in Hc'.
  apply elem_of_app in Hc' as [Hc'|[->|Hc']%elem_of_cons].
  - by eapply H1.
  - simplify_eq. apply fleb_refl. by eapply Hnan.
  - apply fltb_fleb. by eapply H2.
Qed.
End float_selection_facts.

(** ** The exact value of the blended score *)

Section exact_score_facts.
Import F64.
Context {Move Player : Type}.
Abbreviation Node := (F64.Node Move Player).
Implicit Types (w : float) (h : Node → float) (c : Node).

Lemma to_R_eq (x : float) (q : Q) : (to_Q x == q)%Q → to_R x = Q2R q.
Proof. intros Hq. unfold to_R. by apply Qeq_eqR. Qed.

Lemma to_R_lt (x y : float) : (to_Q x < to_Q y)%Q → (to_R x < to_R y)%R.
Proof. apply Qlt_Rlt. Qed.

Lemma to_R_pos (x : float) : (0 < to_Q x)%Q → (0 < to_R x)%R.
Proof.
  intros H%Qlt_Rlt. replace (Q2R 0) with 0%R in H; [done|].
  unfold Q2R. simpl. lra.
Qed.

(** With equal statistics the exact score grows with the heuristic. *)
Lemma exact_score_heuristic w h (pv : nat) c1 c2 :
  wins c1 = wins c2 → visits c1 = visits c2 →
  (0 < to_R w)%R → (to_R (h c1) < to_R (h c2))%R →
  (exact_score w h pv c1 < exact_score w h pv c2)%R.
Proof.
  intros Hw Hv Hpos Hh. unfold exact_score. rewrite Hw, Hv.
  apply Rplus_lt_compat_l. by apply Rmult_lt_compat_l.
Qed.
End exact_score_facts.

(** ** The invariant of the search *)

Section sums.
Implicit Types (f g : nat → nat) (l : list nat).

Lemma sum_list_with_agree f g l :
  (∀ j, j ∈ l → g j = f j) → sum_list_with g l = sum_list_with f l.
Proof.
  induction l as [|x l IH]; intros Hfg; simpl; [done|].
  rewrite Hfg by left. rewrite IH; [done|]. intros j Hj. apply Hfg. by right.
Qed.

Lemma sum_list_with_bump f g l (i : nat) :
  (∀ j, j ≠ i → g j = f j) → g i = f i + 1 → NoDup l → i ∈ l →
  sum_list_with g l = sum_list_with f l + 1.
Proof.
  intros Hne Hi. induction 1 as [|x l Hx Hnd IH]; [by intros ?%elem_of_nil|].
  intros Hin. simpl. destruct (decide (x = i)) as [->|Hxi].
  - rewrite Hi. rewrite (sum_list_with_agree f g l); [lia|].
    intros j Hj. apply Hne. intros ->. done.
  - rewrite Hne by done. apply elem_of_cons in Hin as [->|Hin]; [done|].
    rewrite IH by done. lia.
Qed.
End sums.

Section Inv_facts.
Context {State Move Player : Type} `{EqDecision Move}
        `{G : GameState State Move Player}.
Abbreviation Node := (Node Move Player).
Implicit Types (heap : list Node) (nd : Node) (cur : option nat).

Variable rootstate : State.

Lemma visits_of_lookup heap i nd :
  heap !! i = Some nd → visits_of heap i = visits nd.
Proof. intros Hi. unfold visits_of. by rewrite Hi. Qed.

Lemma Inv_init : Inv rootstate [Node_init None None rootstate] None 0.
Proof.
  split.
  - intros [|i] nd Hi; simpl in Hi; [by simplify_eq|done].
  - intros [|p] pn c Hp; simpl in Hp; [|done]. simplify_eq. simpl.
    by intros ?%elem_of_nil.
  - intros [|p] pn Hp; simpl in Hp; [|done]. simplify_eq. simpl. constructor.
  - intros [|i] nd Hi; simpl in Hi; [|done]. simplify_eq.
    eexists. constructor.
  - intros [|i] nd Hi; simpl in Hi; done.
  - intros [|p] pn Hp; simpl in Hp; [|done]. simplify_eq.
    unfold child_visits. simpl. lia.
  - done.
  - eexists. split; [done|]. split; [done|]. intros Hmoves. simpl.
    split; [by left|]. unfold child_visits. simpl. done.
Qed.

(** Only the root has no parent, and a child is a node other than its
    parent and the root. *)
Lemma Inv_parent_lt heap cur n p pn c :
  Inv rootstate heap cur n → heap !! p = Some pn → c ∈ childNodes pn →
  p < c ∧ c < length heap.
Proof.
  intros HI Hp Hc.
  destruct (inv_child _ _ _ _ HI p pn c Hp Hc) as (cn & Hcn & Hpar & _).
  pose proof (inv_parent _ _ _ _ HI c cn Hcn) as Hpc. rewrite Hpar in Hpc.
  split; [by destruct Hpc|]. by eapply lookup_lt_Some.
Qed.

(** One step of backpropagation: updating the node under the cursor moves
    the cursor to its parent. *)
Lemma Inv_Update heap (i : nat) nd (n : nat) (r : Qc) :
  Inv rootstate heap (Some i) n → heap !! i = Some nd →
  Inv rootstate (<[i := Update nd r]> heap) (parentNode nd) n.
Proof.
  intros HI Hi.
  pose proof (lookup_lt_Some _ _ _ Hi) as Hlt.
  set (heap' := <[i := Update nd r]> heap).
  set (upd := λ (j : nat) (y : Node), if decide (j = i) then Update y r else y).
  assert (∀ j y, parentNode (upd j y) = parentNode y
                 ∧ childNodes (upd j y) = childNodes y
                 ∧ move (upd j y) = move y
                 ∧ untriedMoves (upd j y) = untriedMoves y
                 ∧ visits (upd j y) = visits y + (if decide (j = i) then 1 else 0))
    as Hshape.
  { intros j y. unfold upd. destruct (decide (j = i)); simpl; split_and!; try done; lia. }
  assert (∀ j y, heap !! j = Some y → heap' !! j = Some (upd j y)) as Hfwd.
  { intros j y Hj. unfold heap', upd. destruct (decide (j = i)) as [->|Hne].
    - rewrite list_lookup_insert_eq by done. congruence.
    - by rewrite list_lookup_insert_ne. }
  assert (∀ j x, heap' !! j = Some x →
            ∃ y, heap !! j = Some y ∧ x = upd j y) as Hbwd.
  { intros j x Hj. unfold heap' in Hj.
    apply list_lookup_insert_Some in Hj as [(-> & <- & _)|[Hne Hj]].
    - exists nd. unfold upd. by rewrite decide_True.
    - exists x. unfold upd. by rewrite decide_False. }
  assert (∀ j, visits_of heap' j
               = visits_of heap j + (if decide (j = i) then 1 else 0)) as Hvis.
  { intros j. unfold visits_of. destruct (heap !! j) as [y|] eqn:Hj.
    - rewrite (Hfwd _ _ Hj). simpl. apply Hshape.
    - assert (heap' !! j = None) as ->.
      { apply lookup_ge_None. unfold heap'. rewrite length_insert.
        by apply lookup_ge_None. }
      simpl. destruct (decide (j = i)) as [->|]; [|done]. congruence. }
  assert (∀ p pn, heap !! p = Some pn →
            sum_list_with (visits_of heap') (childNodes pn)
            = child_visits heap pn
              + (if decide (parentNode nd = Some p) then 1 else 0)) as Hsum.
  { intros p pn Hp. unfold child_visits.
    destruct (decide (i ∈ childNodes pn)) as [Hin|Hnin].
    - destruct (inv_child _ _ _ _ HI p pn i Hp Hin) as (cn & Hcn & Hpar & _).
      assert (cn = nd) as -> by congruence.
      rewrite decide_True by done.
      apply (sum_list_with_bump _ _ _ i); [| |by eapply inv_nodup|done].
      + intros j Hj. rewrite Hvis. rewrite decide_False by done. lia.
      + rewrite Hvis. by rewrite decide_True.
    - rewrite (sum_list_with_agree (visits_of heap)).
      + destruct (decide (parentNode nd = Some p)) as [Hpar|]; [|lia].
        pose proof (inv_parent _ _ _ _ HI i nd Hi) as Hpi. rewrite Hpar in Hpi.
        destruct Hpi as (_ & pn' & Hpn' & Hin). congruence.
      + intros j Hj. rewrite Hvis. rewrite decide_False; [lia|].
        intros ->. done. }
  split.
  - intros j x (y & Hy & ->)%Hbwd.
    destruct (Hshape j y) as (-> & _).
    pose proof (inv_parent _ _ _ _ HI j y Hy) as Hpar.
    destruct (parentNode y) as [p|]; [|done].
    destruct Hpar as (Hpj & pn & Hpn & Hin). split; [done|].
    exists (upd p pn). split; [by apply Hfwd|]. by rewrite (proj1 (proj2 (Hshape p pn))).
  - intros p x c (y & Hy & ->)%Hbwd Hc.
    rewrite (proj1 (proj2 (Hshape p y))) in Hc.
    destruct (inv_child _ _ _ _ HI p y c Hy Hc) as (cn & Hcn & Hpar & Hmv).
    exists (upd c cn). split; [by apply Hfwd|].
    destruct (Hshape c cn) as (-> & _ & -> & _). done.
  - intros p x (y & Hy & ->)%Hbwd.
    rewrite (proj1 (proj2 (Hshape p y))). by eapply inv_nodup.
  - intros j x (y & Hy & ->)%Hbwd.
    destruct (inv_history _ _ _ _ HI j y Hy) as [rs Hrs].
    unfold upd. destruct (decide (j = i)); [|by eexists].
    eexists. by constructor.
  - intros j x (y & Hy & ->)%Hbwd Hj0 Hcur.
    destruct (Hshape j y) as (_ & _ & _ & _ & ->).
    destruct (decide (j = i)) as [->|Hne]; [lia|].
    pose proof (inv_visited _ _ _ _ HI j y Hy Hj0) as Hv.
    rewrite Nat.add_0_r. apply Hv. congruence.
  - intros p x (y & Hy & ->)%Hbwd.
    unfold child_visits.
    destruct (Hshape p y) as (_ & -> & _ & _ & ->).
    rewrite (Hsum p y Hy).
    pose proof (inv_children _ _ _ _ HI p y Hy) as Hle.
    destruct (decide (p = i)) as [->|Hne].
    + rewrite decide_True in Hle by done.
      destruct (decide (parentNode nd = Some i)) as [Hpar|]; [|lia].
      pose proof (inv_parent _ _ _ _ HI i nd Hi) as Hpi. rewrite Hpar in Hpi. lia.
    + rewrite decide_False in Hle by congruence.
      destruct (decide (parentNode nd = Some p)); lia.
  - intros p Hpar. unfold heap'. rewrite length_insert.
    pose proof (inv_parent _ _ _ _ HI i nd Hi) as Hpi. rewrite Hpar in Hpi. lia.
  - destruct (inv_root _ _ _ _ HI) as (root & Hroot & Hcount & Hmoves).
    exists (upd 0 root). split; [by apply Hfwd|].
    destruct (Hshape 0 root) as (_ & Hch & _ & Hun & Hv).
    rewrite Hv, Hch, Hun. unfold child_visits in *. rewrite Hch.
    rewrite (Hsum 0 root Hroot).
    pose proof (inv_parent _ _ _ _ HI i nd Hi) as Hpi.
    destruct (decide (0 = i)) as [<-|Hne].
    + assert (nd = root) as -> by congruence.
      destruct (parentNode root) as [p|]; [lia|].
      split; [lia|]. intros Hm. destruct (Hmoves Hm) as [? Heq].
      split; [done|]. rewrite decide_True in Heq by done.
      rewrite !decide_False by done. lia.
    + destruct (parentNode nd) as [p|]; [|lia].
      split; [lia|]. intros Hm. destruct (Hmoves Hm) as [? Heq].
      split; [done|]. rewrite decide_False in Heq by congruence.
      destruct (decide (Some p = Some 0)); lia.
Qed.

(** Backpropagation from the cursor reaches the root and restores the
    invariant between iterations. *)
Lemma Backpropagate_Inv (fuel : nat) (state : State) heap cur (n : nat) :
  Inv rootstate heap cur n → (∀ i, cur = Some i → i < fuel) →
  ∃ heap', Backpropagate fuel state heap cur = Ok heap'
           ∧ Inv rootstate heap' None n.
Proof.
  revert heap cur. induction fuel as [|fuel IH]; intros heap cur HI Hfuel.
  - destruct cur as [i|]; [specialize (Hfuel i eq_refl); lia|].
    by exists heap.
  - destruct cur as [i|]; [|by exists heap]. simpl.
    pose proof (inv_cur _ _ _ _ HI i eq_refl) as Hlt.
    apply lookup_lt_is_Some_2 in Hlt as [nd Hnd].
    unfold deref. rewrite Hnd. simpl. apply IH.
    + by apply Inv_Update.
    + intros p Hp. pose proof (inv_parent _ _ _ _ HI i nd Hnd) as Hpar.
      rewrite Hp in Hpar. specialize (Hfuel i eq_refl). lia.
Qed.

(** Expansion puts the cursor on the node backpropagation starts from. *)
Lemma Expand_Inv (rng : nat → nat) heap (node : nat) nd (state : State)
    (pos k : nat) :
  Inv rootstate heap None k → heap !! node = Some nd →
  (GetMoves rootstate ≠ [] → node = 0 → untriedMoves nd ≠ []) →
  ∃ heap' c state' pos',
    Expand rng heap node state pos = Ok (heap', c, state', pos')
    ∧ Inv rootstate heap' (Some c) (S k).
Proof.
  intros HI Hnode Hroot0. unfold Expand, deref. rewrite Hnode. simpl.
  pose proof (lookup_lt_Some _ _ _ Hnode) as Hlt.
  destruct (untriedMoves nd) as [|m0 u0] eqn:Hun.
  { exists heap, node, state, pos. split; [done|].
    destruct HI as [Hpar Hch Hnd Hhist Hvis Hsum Hcur Hroot]. split; try done.
    - intros i x Hi Hi0 _. by eapply Hvis.
    - intros p pn Hp. specialize (Hsum p pn Hp). rewrite decide_False in Hsum by done.
      lia.
    - by intros ? [= <-].
    - destruct Hroot as (root & Hr & Hcount & Hmoves). exists root.
      split; [done|]. split; [lia|]. intros Hm. destruct (Hmoves Hm) as [? Heq].
      split; [done|]. rewrite decide_False in Heq by done.
      rewrite decide_False; [done|]. intros [= ->]. by apply Hroot0. }
  rewrite <- Hun.
  destruct (choice_Ok (rng pos) (untriedMoves nd)) as (m & -> & Hm);
    [by rewrite Hun|].
  simpl. unfold AddChild. rewrite Hnode.
  destruct (list_remove m (untriedMoves nd)) as [u|] eqn:Hu;
    [|by apply list_remove_None in Hu].
  set (c := length heap).
  set (new := Node_init (Some m) (Some node) (DoMove state m)).
  set (nd2 := set_childNodes _ _).
  set (heap' := <[node := nd2]> (heap ++ [new])).
  exists heap', c, (DoMove state m), (S pos). split; [done|].
  set (upd := λ (j : nat) (y : Node), if decide (j = node) then nd2 else y).
  assert (∀ j y, heap !! j = Some y →
            parentNode (upd j y) = parentNode y
            ∧ move (upd j y) = move y
            ∧ visits (upd j y) = visits y
            ∧ childNodes (upd j y)
              = childNodes y ++ (if decide (j = node) then [c] else [])) as Hshape.
  { intros j y Hj. unfold upd. destruct (decide (j = node)) as [->|].
    - assert (y = nd) as -> by congruence. done.
    - by rewrite app_nil_r. }
  assert (∀ j y, heap !! j = Some y → heap' !! j = Some (upd j y)) as Hfwd.
  { intros j y Hj. unfold heap', upd. destruct (decide (j = node)) as [->|Hne].
    - rewrite list_lookup_insert_eq; [done|]. rewrite length_app. simpl. lia.
    - rewrite list_lookup_insert_ne by done. by rewrite lookup_app_l by (by eapply lookup_lt_Some). }
  assert (heap' !! c = Some new) as Hnew.
  { unfold heap'. rewrite list_lookup_insert_ne by (unfold c; lia).
    rewrite lookup_app_r by done. unfold c. by rewrite Nat.sub_diag. }
  assert (∀ j x, heap' !! j = Some x →
            (j = c ∧ x = new) ∨ (∃ y, heap !! j = Some y ∧ x = upd j y)) as Hbwd.
  { intros j x Hj. destruct (decide (j = c)) as [->|Hjc].
    - left. split; [done|]. congruence.
    - right. assert (j < length heap) as Hjlt.
      { apply lookup_lt_Some in Hj. unfold heap' in Hj.
        rewrite length_insert, length_app in Hj. simpl in Hj. unfold c in Hjc. lia. }
      apply lookup_lt_is_Some_2 in Hjlt as [y Hy]. exists y. split; [done|].
      rewrite (Hfwd _ _ Hy) in Hj. congruence. }
  assert (∀ j, visits_of heap' j = visits_of heap j) as Hvisits.
  { intros j. unfold visits_of. destruct (heap' !! j) as [x|] eqn:Hj.
    - apply Hbwd in Hj as [[-> ->]|(y & Hy & ->)].
      + unfold c. rewrite (lookup_ge_None_2 heap) by done. done.
      + rewrite Hy. simpl. by apply Hshape.
    - rewrite lookup_ge_None_2; [done|]. apply lookup_ge_None_1 in Hj.
      unfold heap' in Hj. rewrite length_insert, length_app in Hj. lia. }
  assert (∀ p y, heap !! p = Some y →
            child_visits heap' (upd p y) = child_visits heap y) as Hsums.
  { intros p y Hp. unfold child_visits.
    destruct (Hshape p y Hp) as (_ & _ & _ & ->).
    rewrite sum_list_with_app.
    rewrite (sum_list_with_agree (visits_of heap) (visits_of heap')) by done.
    destruct (decide (p = node)); simpl; [|lia].
    rewrite Hvisits. unfold visits_of, c.
    rewrite (lookup_ge_None_2 heap) by done. simpl. lia. }
  pose proof HI as [Hpar Hch Hnd Hhist Hvis Hsum Hcur Hroot]. split.
  - intros j x [[-> ->]|(y & Hy & ->)]%Hbwd.
    + simpl. split; [done|]. exists (upd node nd). split; [by apply Hfwd|].
      destruct (Hshape node nd Hnode) as (_ & _ & _ & ->).
      rewrite decide_True by done. apply elem_of_app. right. left.
    + destruct (Hshape j y Hy) as (-> & _).
      specialize (Hpar j y Hy). destruct (parentNode y) as [p|]; [|done].
      destruct Hpar as (? & pn & Hpn & Hin). split; [done|].
      exists (upd p pn). split; [by apply Hfwd|].
      destruct (Hshape p pn Hpn) as (_ & _ & _ & ->). apply elem_of_app. by left.
  - intros p x j [[-> ->]|(y & Hy & ->)]%Hbwd Hin.
    { simpl in Hin. by apply elem_of_nil in Hin. }
    destruct (Hshape p y Hy) as (_ & _ & _ & Hchy). rewrite Hchy in Hin.
    apply elem_of_app in Hin as [Hin|Hin].
    + destruct (Hch p y j Hy Hin) as (cn & Hcn & Hp & Hmv).
      exists (upd j cn). split; [by apply Hfwd|].
      destruct (Hshape j cn Hcn) as (-> & -> & _). done.
    + destruct (decide (p = node)) as [->|]; [|by apply elem_of_nil in Hin].
      apply list_elem_of_singleton in Hin as ->.
      exists new. split; [done|]. simpl. split; [done|]. by eexists.
  - intros p x [[-> ->]|(y & Hy & ->)]%Hbwd; [constructor|].
    destruct (Hshape p y Hy) as (_ & _ & _ & ->).
    apply NoDup_app. split; [by eapply Hnd|]. split.
    + intros j Hj Hj'. destruct (decide (p = node)); [|by apply elem_of_nil in Hj'].
      apply list_elem_of_singleton in Hj' as ->.
      pose proof (Inv_parent_lt _ _ _ _ _ _ HI Hy Hj). unfold c in *. lia.
    + destruct (decide (p = node)); [apply NoDup_singleton|constructor].
  - intros j x [[-> ->]|(y & Hy & ->)]%Hbwd.
    + eexists. constructor.
    + destruct (Hhist j y Hy) as [rs Hrs]. unfold upd.
      destruct (decide (j = node)) as [->|]; [|by eexists].
      assert (y = nd) as -> by congruence.
      exists rs. unfold nd2. by do 2 constructor.
  - intros j x [[-> ->]|(y & Hy & ->)]%Hbwd Hj0 Hjc; [done|].
    destruct (Hshape j y Hy) as (_ & _ & -> & _). by eapply Hvis.
  - intros p x [[-> ->]|(y & Hy & ->)]%Hbwd.
    + unfold child_visits. simpl. lia.
    + rewrite (Hsums p y Hy). destruct (Hshape p y Hy) as (_ & _ & -> & _).
      specialize (Hsum p y Hy). rewrite decide_False in Hsum by done. lia.
  - intros ? [= <-]. unfold heap'. rewrite length_insert, length_app. simpl.
    unfold c. lia.
  - destruct Hroot as (root & Hr & Hcount & Hmoves).
    exists (upd 0 root). split; [by apply Hfwd|].
    rewrite (Hsums 0 root Hr).
    destruct (Hshape 0 root Hr) as (_ & _ & -> & Hchr).
    split; [lia|]. intros Hmv. destruct (Hmoves Hmv) as [Hor Heq].
    rewrite decide_False in Heq by done.
    rewrite decide_False by (intros [=]; unfold c in *; lia).
    split; [|done]. unfold upd in *.
    destruct (decide (0 = node)) as [<-|Hne]; [|done].
    right. rewrite Hchr. by destruct (childNodes root).
Qed.

Variable rng : nat → nat.
Variable gas : State → nat.
Variable selected_std_function : Node → result R.
Variable std_weight : R.

Abbreviation Select' := (Select selected_std_function std_weight).
Abbreviation UCT_iteration' :=
  (UCT_iteration rng gas selected_std_function std_weight rootstate).
Abbreviation UCT_loop' :=
  (UCT_loop rng gas selected_std_function std_weight rootstate).

(** Selection stops on a node that can be expanded or has no children. *)
Lemma Select_Ok (fuel : nat) heap (node : nat) (state : State) node' state' :
  Select' fuel heap node state = Ok (node', state') →
  ∃ nd', heap !! node' = Some nd'
         ∧ (untriedMoves nd' ≠ [] ∨ childNodes nd' = []).
Proof.
  revert node state. induction fuel as [|fuel IH]; intros node state; simpl;
    unfold deref; destruct (heap !! node) as [nd|] eqn:Hnd; simpl; try done.
  - destruct (untriedMoves nd) as [|m u] eqn:Hu.
    + destruct (childNodes nd) eqn:Hc; [|done]. intros ?; simplify_eq. exists nd.
      split; [done|]. by right.
    + intros ?; simplify_eq. exists nd. split; [done|]. left. by rewrite Hu.
  - destruct (untriedMoves nd) as [|m u] eqn:Hu.
    + destruct (childNodes nd) eqn:Hc.
      { intros ?; simplify_eq. exists nd. split; [done|]. by right. }
      destruct (UCTSelectChild _ _ _ _) as [c|]; simpl; [|done].
      destruct (heap !! c) as [cn|]; simpl; [|done].
      destruct (move cn); [|done]. apply IH.
    + intros ?; simplify_eq. exists nd. split; [done|]. left. by rewrite Hu.
Qed.

Lemma Select_total (fuel : nat) heap (node k : nat) (state : State) :
  heuristic_returns selected_std_function → Inv rootstate heap None k →
  node < length heap → length heap ≤ fuel + node →
  is_Ok (Select' fuel heap node state).
Proof.
  intros Hh HI. revert node state.
  induction fuel as [|fuel IH]; intros node state Hlt Hfuel.
  { lia. }
  apply lookup_lt_is_Some_2 in Hlt as [nd Hnd].
  simpl. unfold deref. rewrite Hnd. simpl.
  destruct (untriedMoves nd) as [|m u]; [|by eexists].
  destruct (childNodes nd) as [|c0 cs] eqn:Hcs; [by eexists|].
  set (hval := λ n : Node,
         match selected_std_function n with Ok x => x | Raise _ => 0%R end).
  assert (∀ c, c ∈ childNodes nd →
            ∃ cn, heap !! c = Some cn ∧ 1 ≤ visits cn
                  ∧ selected_std_function cn = Ok (hval cn)) as Hch.
  { intros c Hc.
    destruct (inv_child _ _ _ _ HI node nd c Hnd Hc) as (cn & Hcn & _).
    pose proof (Inv_parent_lt _ _ _ _ _ _ HI Hnd Hc) as [Hpc _].
    assert (1 ≤ visits cn) as Hv.
    { eapply (inv_visited _ _ _ _ HI c cn); [done|lia|done]. }
    exists cn. split_and!; [done..|].
    destruct (inv_history _ _ _ _ HI c cn Hcn) as [rs Hrs].
    destruct (Hh cn rs Hrs Hv) as [x Hx]. unfold hval. by rewrite Hx. }
  assert (1 ≤ visits nd) as Hv.
  { pose proof (inv_children _ _ _ _ HI node nd Hnd) as Hle. simpl in Hle.
    destruct (Hch c0) as (cn & Hcn & Hcv & _); [rewrite Hcs; left|].
    pose proof (sum_list_with_in c0 (visits_of heap) (childNodes nd)) as Hin.
    unfold child_visits in Hle. rewrite (visits_of_lookup _ _ _ Hcn) in Hin.
    rewrite Hcs in Hin at 1. specialize (Hin ltac:(left)). lia. }
  destruct (UCTSelectChild_Ok selected_std_function std_weight heap node nd hval)
    as (c & cn & l1 & l2 & -> & Hcn & Hl & _); [done|by rewrite Hcs|done..|].
  simpl. rewrite Hcn. simpl.
  assert (c ∈ childNodes nd) as Hc.
  { rewrite Hl. apply elem_of_app. right. left. }
  destruct (inv_child _ _ _ _ HI node nd c Hnd Hc) as (cn' & Hcn' & _ & [mv Hmv]).
  assert (cn' = cn) as -> by congruence. rewrite Hmv.
  pose proof (Inv_parent_lt _ _ _ _ _ _ HI Hnd Hc) as [Hpc Hclt].
  apply IH; lia.
Qed.

Lemma Rollout_total (fuel : nat) (state : State) (pos : nat) :
  game_ends gas → gas state ≤ fuel → is_Ok (Rollout rng fuel state pos).
Proof.
  intros Hgas. revert state pos.
  induction fuel as [|fuel IH]; intros state pos Hfuel; simpl;
    destruct (GetMoves state) as [|m0 ms] eqn:Hms; try by eexists.
  - specialize (Hgas state m0). rewrite Hms in Hgas.
    specialize (Hgas ltac:(left)). lia.
  - rewrite <- Hms.
    destruct (choice_Ok (rng pos) (GetMoves state)) as (m & -> & Hm);
      [by rewrite Hms|].
    simpl. apply IH. specialize (Hgas state m Hm). lia.
Qed.

(** After selection, the rest of an iteration cannot fail in the tree. *)
Lemma iteration_core heap (k pos node : nat) (state : State) :
  Inv rootstate heap None k →
  Select' (length heap) heap 0 (Clone rootstate) = Ok (node, state) →
  ∃ heap1 c state1 pos1,
    Expand rng heap node state pos = Ok (heap1, c, state1, pos1) ∧
    ∀ state2, ∃ heap',
      Backpropagate (length heap1) state2 heap1 (Some c) = Ok heap'
      ∧ Inv rootstate heap' None (S k).
Proof.
  intros HI Hsel. apply Select_Ok in Hsel as (nd & Hnd & Hstop).
  destruct (Expand_Inv rng heap node nd state pos k HI Hnd)
    as (heap1 & c & state1 & pos1 & Hexp & HI1).
  { intros Hm ->. destruct (inv_root _ _ _ _ HI) as (root & Hr & _ & Hmoves).
    assert (root = nd) as -> by congruence.
    destruct (Hmoves Hm) as [[?|?] _]; [done|]. by destruct Hstop. }
  exists heap1, c, state1, pos1. split; [done|]. intros state2.
  apply Backpropagate_Inv; [done|].
  intros ? [= <-]. by apply (inv_cur _ _ _ _ HI1).
Qed.

Lemma UCT_iteration_Inv heap (k pos : nat) heap' pos' :
  Inv rootstate heap None k →
  UCT_iteration' heap pos = Ok (heap', pos') →
  Inv rootstate heap' None (S k).
Proof.
  intros HI. unfold UCT_iteration.
  destruct (Select' _ _ _ _) as [[node state]|] eqn:Hsel; simpl; [|done].
  destruct (iteration_core heap k pos node state HI Hsel)
    as (heap1 & c & state1 & pos1 & -> & Hback).
  simpl. destruct (Rollout _ _ _ _) as [[state2 pos2]|]; simpl; [|done].
  destruct (Hback state2) as (heap2 & -> & HI2). simpl. intros ?; by simplify_eq.
Qed.

Lemma UCT_iteration_total heap (k pos : nat) :
  game_ends gas → heuristic_returns selected_std_function → Inv rootstate heap None k →
  is_Ok (UCT_iteration' heap pos).
Proof.
  intros Hgas Hh HI. unfold UCT_iteration.
  destruct (Select_total (length heap) heap 0 k (Clone rootstate) Hh HI)
    as [[node state] Hsel].
  { destruct (inv_root _ _ _ _ HI) as (root & Hr & _). by eapply lookup_lt_Some. }
  { lia. }
  rewrite Hsel. simpl.
  destruct (iteration_core heap k pos node state HI Hsel)
    as (heap1 & c & state1 & pos1 & -> & Hback).
  simpl. destruct (Rollout_total (gas state1) state1 pos1 Hgas)
    as [[state2 pos2] ->]; [done|].
  simpl. destruct (Hback state2) as (heap2 & -> & HI2). by eexists.
Qed.

Lemma UCT_loop_Inv (itermax : nat) heap pos :
  UCT_loop' itermax = Ok (heap, pos) → Inv rootstate heap None itermax.
Proof.
  revert heap pos. induction itermax as [|n IH]; intros heap pos; simpl.
  - intros ?; simplify_eq. apply Inv_init.
  - destruct (UCT_loop' n) as [[heap0 pos0]|]; simpl; [|done].
    eapply UCT_iteration_Inv. by eapply IH.
Qed.

Lemma UCT_loop_total (itermax : nat) :
  game_ends gas → heuristic_returns selected_std_function →
  ∃ heap pos, UCT_loop' itermax = Ok (heap, pos)
              ∧ Inv rootstate heap None itermax.
Proof.
  intros Hgas Hh. induction itermax as [|n (heap & pos & Hloop & HI)]; simpl.
  - eexists _, _. split; [done|]. apply Inv_init.
  - rewrite Hloop. simpl.
    destruct (UCT_iteration_total heap n pos Hgas Hh HI) as [[heap' pos'] Hit].
    exists heap', pos'. split; [done|]. by eapply UCT_iteration_Inv.
Qed.

(** The children of a node of the tree are nodes of the store, and
    [child_visits] adds up their visits. *)
Lemma child_visits_nodes heap cur (n p : nat) pn :
  Inv rootstate heap cur n → heap !! p = Some pn →
  ∃ cns, Forall2 (λ c cn, heap !! c = Some cn) (childNodes pn) cns
         ∧ sum_list_with visits cns = child_visits heap pn.
Proof.
  intros HI Hp. unfold child_visits.
  assert (∀ c, c ∈ childNodes pn → is_Some (heap !! c)) as Hch.
  { intros c Hc. destruct (inv_child _ _ _ _ HI p pn c Hp Hc) as (cn & -> & _).
    by eexists. }
  induction (childNodes pn) as [|c l IH].
  - exists []. split; [constructor|done].
  - destruct IH as (cns & Hall & Hsum); [intros; apply Hch; by right|].
    destruct (Hch c) as [cn Hcn]; [left|].
    exists (cn :: cns). split; [by constructor|]. simpl.
    by rewrite Hsum, (visits_of_lookup _ _ _ Hcn).
Qed.

(** The [return] of [UCT] on a tree whose root has children. *)
Lemma most_visited_Ok heap (n : nat) root :
  Inv rootstate heap None n → heap !! 0 = Some root → childNodes root ≠ [] →
  ∃ c cn m l1 l2,
    most_visited heap = Ok (Some m) ∧
    childNodes root = l1 ++ (c :: l2) ∧ heap !! c = Some cn ∧ move cn = Some m ∧
    (∀ c' cn', c' ∈ l1 → heap !! c' = Some cn' → visits cn' ≤ visits cn) ∧
    (∀ c' cn', c' ∈ l2 → heap !! c' = Some cn' → visits cn' < visits cn).
Proof.
  intros HI Hroot Hne. unfold most_visited.
  replace (deref heap 0) with (Ok root) by (unfold deref; by rewrite Hroot).
  unfold mbind at 1, result_bind at 1.
  set (key := λ c, cn ← deref heap c; Ok (visits cn)).
  assert (∀ c cn, heap !! c = Some cn → key c = Ok (visits cn)) as Hkey.
  { intros c cn Hcn. unfold key, deref. by rewrite Hcn. }
  assert (∀ c, c ∈ childNodes root →
            ∃ cn, heap !! c = Some cn ∧ is_Some (move cn)) as Hch.
  { intros c Hc.
    destruct (inv_child _ _ _ _ HI 0 root c Hroot Hc) as (cn & ? & _ & ?).
    by exists cn. }
  destruct (sorted_last_total Nat.ltb ltb_irrefl_nat ltb_trans_nat
              ltb_cotrans_nat key (childNodes root)) as [c Hc]; [done| |].
  { intros c Hc. destruct (Hch c Hc) as (cn & Hcn & _).
    eexists. by apply Hkey. }
  apply sorted_last_Ok in Hc as Hspec;
    [|apply ltb_irrefl_nat|apply ltb_trans_nat|apply ltb_cotrans_nat].
  destruct Hspec as (l1 & l2 & k & Hl & Hk & H1 & H2).
  destruct (sorted Nat.ltb key (childNodes root)) as [s|]; simpl in Hc; [|done].
  simpl. rewrite Hc. simpl.
  destruct (Hch c) as (cn & Hcn & [m Hm]).
  { rewrite Hl. apply elem_of_app. right. left. }
  unfold deref. rewrite Hcn. simpl. rewrite Hm.
  rewrite (Hkey c cn Hcn) in Hk. injection Hk as <-.
  exists c, cn, m, l1, l2. split_and!; [done..| |].
  - intros c' cn' Hc' Hcn'. destruct (H1 c' Hc') as (k' & Hk' & Hlt).
    rewrite (Hkey c' cn' Hcn') in Hk'. injection Hk' as <-.
    apply Nat.ltb_ge in Hlt. done.
  - intros c' cn' Hc' Hcn'. destruct (H2 c' Hc') as (k' & Hk' & Hlt).
    rewrite (Hkey c' cn' Hcn') in Hk'. injection Hk' as <-.
    by apply Nat.ltb_lt in Hlt.
Qed.

(** After [itermax ≥ 1] iterations from a root with a legal move the root
    has been visited [itermax] times, once through each iteration's child. *)
Lemma UCT_loop_root (itermax : nat) heap pos :
  GetMoves rootstate ≠ [] → UCT_loop' itermax = Ok (heap, pos) →
  ∃ root, heap !! 0 = Some root ∧ visits root = itermax
          ∧ child_visits heap root = itermax
          ∧ (1 ≤ itermax → childNodes root ≠ []).
Proof.
  intros Hm HI%UCT_loop_Inv.
  destruct (inv_root _ _ _ _ HI) as (root & Hr & Hcount & Hmoves).
  destruct (Hmoves Hm) as [_ Heq]. rewrite decide_False in Heq by done.
  exists root. split_and!; [done|lia|lia|].
  intros Hge Hnil. unfold child_visits in Heq. rewrite Hnil in Heq.
  simpl in Heq. lia.
Qed.

(** What [UCT] returns after a completed loop. *)
Lemma UCT_loop_return (itermax : nat) heap pos :
  GetMoves rootstate ≠ [] → 1 ≤ itermax →
  UCT_loop' itermax = Ok (heap, pos) →
  ∃ m root c cn l1 l2,
    most_visited heap = Ok (Some m) ∧ heap !! 0 = Some root ∧
    childNodes root = l1 ++ (c :: l2) ∧ heap !! c = Some cn ∧ move cn = Some m ∧
    (∀ c' cn', c' ∈ l1 → heap !! c' = Some cn' → visits cn' ≤ visits cn) ∧
    (∀ c' cn', c' ∈ l2 → heap !! c' = Some cn' → visits cn' < visits cn).
Proof.
  intros Hm Hge Hloop.
  destruct (UCT_loop_root itermax heap pos Hm Hloop)
    as (root & Hr & _ & _ & Hne).
  apply UCT_loop_Inv in Hloop as HI.
  destruct (most_visited_Ok heap itermax root HI Hr (Hne Hge))
    as (c & cn & m & l1 & l2 & Hret & Hl & Hcn & Hmv & H1 & H2).
  by exists m, root, c, cn, l1, l2.
Qed.

(** C3. From a root with a legal move and with [itermax ≥ 1]: when the
    loop of [UCT] completes, the root has [itermax] visits and the visits of
    its children add up to [itermax]; and the loop does complete when the
    game ends and the heuristic returns. *)
Theorem UCT_root_visits (itermax : nat) :
  GetMoves rootstate ≠ [] → 1 ≤ itermax →
  (∀ heap pos, UCT_loop' itermax = Ok (heap, pos) →
     ∃ root cns,
       heap !! 0 = Some root ∧ visits root = itermax ∧
       Forall2 (λ c cn, heap !! c = Some cn) (childNodes root) cns ∧
       sum_list_with visits cns = itermax)
  ∧ (game_ends gas → heuristic_returns selected_std_function →
     is_Ok (UCT_loop' itermax)).
Proof.
  intros Hm Hge. split.
  - intros heap pos Hloop.
    destruct (UCT_loop_root itermax heap pos Hm Hloop)
      as (root & Hr & Hv & Hsum & _).
    apply UCT_loop_Inv in Hloop as HI.
    destruct (child_visits_nodes heap None itermax 0 root HI Hr)
      as (cns & Hall & Hcns).
    exists root, cns. split_and!; [done..|]. by rewrite Hcns.
  - intros Hgas Hh.
    destruct (UCT_loop_total itermax Hgas Hh) as (heap & pos & Hloop & _).
    by eexists.
Qed.

(** C1. From a root with a legal move and with [itermax ≥ 1]: what [UCT]
    returns is the move of a child of the root whose [visits] is greatest
    among the children of the root; and [UCT] does return when the game
    ends and the heuristic returns. *)
Theorem UCT_most_visited (itermax : nat) :
  GetMoves rootstate ≠ [] → 1 ≤ itermax →
  (∀ mv, UCT rng gas selected_std_function std_weight rootstate itermax = Ok mv →
     ∃ m heap pos root c cn,
       mv = Some m ∧ UCT_loop' itermax = Ok (heap, pos) ∧
       heap !! 0 = Some root ∧
       c ∈ childNodes root ∧ heap !! c = Some cn ∧ move cn = Some m ∧
       ∀ c' cn', c' ∈ childNodes root → heap !! c' = Some cn' →
         visits cn' ≤ visits cn)
  ∧ (game_ends gas → heuristic_returns selected_std_function →
     is_Ok (UCT rng gas selected_std_function std_weight rootstate itermax)).
Proof.
  intros Hm Hge. split.
  - intros mv. unfold UCT.
    destruct (UCT_loop' itermax) as [[heap pos]|] eqn:Hloop; simpl; [|done].
    destruct (UCT_loop_return itermax heap pos Hm Hge Hloop)
      as (m & root & c & cn & l1 & l2 & Hret & Hr & Hl & Hcn & Hmv & H1 & H2).
    rewrite Hret. intros [= <-].
    exists m, heap, pos, root, c, cn. split_and!; try done.
    + rewrite Hl. apply elem_of_app. right. left.
    + intros c' cn' Hc' Hcn'. rewrite Hl in Hc'.
      apply elem_of_app in Hc' as [Hc'|[->|Hc']%elem_of_cons].
      * by eapply H1.
      * assert (cn' = cn) as -> by congruence. done.
      * apply Nat.lt_le_incl. by eapply H2.
  - intros Hgas Hh. unfold UCT.
    destruct (UCT_loop_total itermax Hgas Hh) as (heap & pos & Hloop & _).
    destruct (UCT_loop_return itermax heap pos Hm Hge Hloop)
      as (m & _ & _ & _ & _ & _ & Hret & _).
    rewrite Hloop. simpl. rewrite Hret. by eexists.
Qed.

(** C10. Ties go to the child added last.  [UCTSelectChild] returns a
    child such that, of the scores the source computes in binary64, none of
    a child listed before it is greater and every one of a child listed
    after it is smaller: among the children whose computed scores are equal
    and greatest it is the last.  [UCT] returns the move of a root child of
    greatest [visits] such that every root child listed after it has
    strictly fewer visits. *)
Theorem computed_ties_go_to_last_child :
  (∀ (libm_log : F64.float → F64.float) (heap : list (F64.Node Move Player))
     (p : nat) (pn : F64.Node Move Player) (w : F64.float)
     (h : F64.Node Move Player → F64.float),
     heap !! p = Some pn → F64.childNodes pn ≠ [] → 0 < F64.visits pn →
     (∀ c, c ∈ F64.childNodes pn →
        ∃ cn, heap !! c = Some cn ∧ 0 < F64.visits cn) →
     F64.fltb (libm_log (F64.of_nat (F64.visits pn))) F64.zero = false →
     (∀ c cn, c ∈ F64.childNodes pn → heap !! c = Some cn →
        F64.is_nan (F64.float_score libm_log w h (F64.visits pn) cn) = false) →
     ∃ c cn l1 l2,
       F64.UCTSelectChild libm_log (λ n, Ok (h n)) w heap p = Ok c ∧
       heap !! c = Some cn ∧ F64.childNodes pn = l1 ++ (c :: l2) ∧
       (∀ c' cn', c' ∈ l1 → heap !! c' = Some cn' →
          F64.fleb (F64.float_score libm_log w h (F64.visits pn) cn')
                   (F64.float_score libm_log w h (F64.visits pn) cn) = true) ∧
       (∀ c' cn', c' ∈ l2 → heap !! c' = Some cn' →
          F64.fltb (F64.float_score libm_log w h (F64.visits pn) cn')
                   (F64.float_score libm_log w h (F64.visits pn) cn) = true))
  ∧ (∀ itermax : nat,
     GetMoves rootstate ≠ [] → 1 ≤ itermax →
     (∀ mv, UCT rng gas selected_std_function std_weight rootstate itermax
            = Ok mv →
        ∃ m heap pos root c cn l1 l2,
          mv = Some m ∧ UCT_loop' itermax = Ok (heap, pos) ∧
          heap !! 0 = Some root ∧ childNodes root = l1 ++ (c :: l2) ∧
          heap !! c = Some cn ∧ move cn = Some m ∧
          (∀ c' cn', c' ∈ l1 → heap !! c' = Some cn' →
             visits cn' ≤ visits cn) ∧
          (∀ c' cn', c' ∈ l2 → heap !! c' = Some cn' →
             visits cn' < visits cn))
     ∧ (game_ends gas → heuristic_returns selected_std_function →
        is_Ok (UCT rng gas selected_std_function std_weight rootstate itermax))).
Proof.
  split.
  - intros libm_log heap p pn w h Hp Hne Hpv Hch Hlog Hnan.
    apply (float_UCTSelectChild_Ok libm_log h w heap p pn);
      [done|done|lia| |done|done].
    intros c Hc. destruct (Hch c Hc) as (cn & ? & ?). exists cn.
    split; [done|lia].
  - intros itermax Hm Hge. split.
    + intros mv. unfold UCT.
      destruct (UCT_loop' itermax) as [[heap pos]|] eqn:Hloop; simpl; [|done].
      destruct (UCT_loop_return itermax heap pos Hm Hge Hloop)
        as (m & root & c & cn & l1 & l2 & Hret & Hr & Hl & Hcn & Hmv & H1 & H2).
      rewrite Hret. intros [= <-].
      by exists m, heap, pos, root, c, cn, l1, l2.
    + intros Hgas Hh. unfold UCT.
      destruct (UCT_loop_total itermax Hgas Hh) as (heap & pos & Hloop & _).
      destruct (UCT_loop_return itermax heap pos Hm Hge Hloop)
        as (m & _ & _ & _ & _ & _ & Hret & _).
      rewrite Hloop. simpl. rewrite Hret. by eexists.
Qed.

(** With a visited parent and a visited child, all the arithmetic of the
    sort key succeeds; only the heuristic is left to run. *)
Lemma ucb_key_arith (pv : nat) (c : Node) :
  1 ≤ pv → 1 ≤ visits c →
  ucb_key selected_std_function std_weight pv c
  = (hv ← selected_std_function c;
     Ok ((1 - std_weight) * (Qc2R (wins c) / INR (visits c)
                             + sqrt (2 * ln (INR pv) / INR (visits c)))
         + std_weight * hv)%R).
Proof.
  intros Hpv Hcv. unfold ucb_key.
  rewrite py_div_Ok by done. simpl.
  unfold py_log. rewrite decide_False by lia. simpl.
  rewrite py_div_Ok by done. simpl.
  unfold py_sqrt. rewrite decide_False; [done|].
  apply Rle_not_lt. apply Rle_mult_inv_pos; [|apply lt_0_INR; lia].
  pose proof (ln_INR_nonneg pv Hpv). lra.
Qed.

(** C4. [Select] only reads the tree, so a call of [UCTSelectChild] in
    iteration [k + 1] sees the tree left by [k] iterations.  In that tree
    every child of every node has [visits ≥ 1], and so has every node with
    a child: the divisions by [c.visits] do not raise, nor do [log] and
    [sqrt], and the sort key reduces to the call of the heuristic. *)
Theorem selection_never_divides_by_zero (k : nat) heap pos :
  UCT_loop' k = Ok (heap, pos) →
  ∀ p pn c, heap !! p = Some pn → c ∈ childNodes pn →
    ∃ cn, heap !! c = Some cn ∧ 1 ≤ visits cn ∧ 1 ≤ visits pn ∧
      (∀ x, py_div x (visits cn) = Ok (x / INR (visits cn))%R) ∧
      ucb_key selected_std_function std_weight (visits pn) cn
      = (hv ← selected_std_function cn;
         Ok ((1 - std_weight) * (Qc2R (wins cn) / INR (visits cn)
                                 + sqrt (2 * ln (INR (visits pn)) / INR (visits cn)))
             + std_weight * hv)%R).
Proof.
  intros HI%UCT_loop_Inv p pn c Hp Hc.
  destruct (inv_child _ _ _ _ HI p pn c Hp Hc) as (cn & Hcn & _).
  pose proof (Inv_parent_lt _ _ _ _ _ _ HI Hp Hc) as [Hpc _].
  assert (1 ≤ visits cn) as Hcv.
  { eapply (inv_visited _ _ _ _ HI c cn); [done|lia|done]. }
  assert (1 ≤ visits pn) as Hpv.
  { pose proof (inv_children _ _ _ _ HI p pn Hp) as Hle. simpl in Hle.
    pose proof (sum_list_with_in c (visits_of heap) (childNodes pn) Hc) as Hin.
    rewrite (visits_of_lookup _ _ _ Hcn) in Hin. unfold child_visits in Hle. lia. }
  exists cn. split_and!; [done..| |].
  - intros x. by apply py_div_Ok.
  - by apply ucb_key_arith.
Qed.

Lemma UCT_loop_terminal (itermax : nat) :
  GetMoves rootstate = [] →
  ∃ root, UCT_loop' itermax = Ok ([root], 0) ∧ untriedMoves root = []
          ∧ childNodes root = [] ∧ parentNode root = None.
Proof.
  intros Hterm. induction itermax as [|n (root & Hloop & Hun & Hch & Hpar)].
  - eexists. simpl. split_and!; done.
  - simpl. rewrite Hloop. simpl.
    exists (Update root (GetResult rootstate (playerJustMoved root))).
    split; [|done].
    unfold UCT_iteration. simpl. unfold deref. simpl. rewrite Hun, Hch. simpl.
    unfold Expand, deref. simpl. rewrite Hun. simpl.
    unfold Clone.
    assert (∀ fuel, Rollout rng fuel rootstate 0 = Ok (rootstate, 0)) as ->.
    { intros fuel. destruct fuel; simpl; by rewrite Hterm. }
    simpl. by rewrite Hpar.
Qed.

(** C5. On a state without legal moves [UCT] raises ([IndexError], from
    taking the last element of the empty list of root children) and returns
    no move, whatever the iteration budget. *)
Theorem UCT_terminal_root_raises (itermax : nat) :
  GetMoves rootstate = [] →
  UCT rng gas selected_std_function std_weight rootstate itermax
  = Raise IndexError.
Proof.
  intros Hterm. unfold UCT.
  destruct (UCT_loop_terminal itermax Hterm) as (root & -> & _ & Hch & _).
  simpl. unfold most_visited, deref. simpl. by rewrite Hch.
Qed.

(** Properties of single nodes that [Node.__init__] establishes and the
    methods of [Node] keep are kept by an iteration, on any store. *)
Section node_property.
Variable P : Node → Prop.
Hypothesis P_init : ∀ m p s, P (Node_init m p s).
Hypothesis P_Update : ∀ nd r, P nd → P (Update nd r).
Hypothesis P_untried : ∀ nd u, P nd → P (set_untriedMoves u nd).
Hypothesis P_children : ∀ nd c, P nd → P (set_childNodes c nd).

Lemma Backpropagate_Forall (fuel : nat) (state : State) heap cur heap' :
  Forall P heap → Backpropagate fuel state heap cur = Ok heap' →
  Forall P heap'.
Proof using P_Update.
  revert heap cur. induction fuel as [|fuel IH]; intros heap cur Hall; simpl.
  - destruct cur; [done|]. by intros [= <-].
  - destruct cur as [i|]; [|by intros [= <-]].
    unfold deref. destruct (heap !! i) as [nd|] eqn:Hnd; simpl; [|done].
    apply IH. apply Forall_insert; [done|]. apply P_Update.
    by eapply Forall_lookup_1.
Qed.

Lemma Expand_Forall heap (node : nat) (state : State) (pos : nat)
    heap' c state' pos' :
  Forall P heap →
  Expand rng heap node state pos = Ok (heap', c, state', pos') →
  Forall P heap'.
Proof using P_init P_untried P_children.
  intros Hall. unfold Expand, deref.
  destruct (heap !! node) as [nd|] eqn:Hnd; simpl; [|done].
  destruct (untriedMoves nd) as [|m0 u0] eqn:Hun.
  { intros ?; by simplify_eq. }
  destruct (choice _ _) as [m|]; simpl; [|done].
  unfold AddChild. rewrite Hnd, Hun.
  destruct (list_remove m (m0 :: u0)) as [u|]; [|done].
  intros ?; simplify_eq.
  apply Forall_insert.
  - apply Forall_app. split; [done|]. constructor; [apply P_init|constructor].
  - apply P_children, P_untried. by eapply Forall_lookup_1.
Qed.

Lemma UCT_iteration_Forall heap (pos : nat) heap' pos' :
  Forall P heap → UCT_iteration' heap pos = Ok (heap', pos') →
  Forall P heap'.
Proof using P_init P_Update P_untried P_children.
  intros Hall. unfold UCT_iteration.
  destruct (Select' _ _ _ _) as [[node state]|]; simpl; [|done].
  destruct (Expand _ _ _ _ _) as [[[[heap1 c] state1] pos1]|] eqn:Hexp;
    simpl; [|done].
  destruct (Rollout _ _ _ _) as [[state2 pos2]|]; simpl; [|done].
  destruct (Backpropagate _ _ _ _) as [heap2|] eqn:Hback; simpl; [|done].
  intros ?; simplify_eq.
  eapply Backpropagate_Forall; [|done]. by eapply Expand_Forall.
Qed.
End node_property.

Lemma reachable_lookup heap cur (n i : nat) :
  Inv rootstate heap cur n → reachable heap i → is_Some (heap !! i).
Proof.
  intros HI. induction 1 as [|p pn c _ _ Hp Hc].
  - destruct (inv_root _ _ _ _ HI) as (root & -> & _). by eexists.
  - destruct (inv_child _ _ _ _ HI p pn c Hp Hc) as (cn & -> & _). by eexists.
Qed.

(** C8. The counts of [rollouts_counter] add up to [visits]: [Update]
    keeps this, every iteration of the loop keeps it for all nodes, and it
    holds for every node reachable in the tree after any number of
    iterations.  Such a node was built by [Node.__init__] and then updated
    once per visit, so a node with [visits ≥ 1] has been updated. *)
Theorem counter_total_eq_visits :
  (∀ (nd : Node) (r : Qc),
     counter_total (rollouts_counter nd) = visits nd →
     counter_total (rollouts_counter (Update nd r)) = visits (Update nd r))
  ∧ (∀ heap (pos : nat) heap' pos',
     Forall (λ nd, counter_total (rollouts_counter nd) = visits nd) heap →
     UCT_iteration' heap pos = Ok (heap', pos') →
     Forall (λ nd, counter_total (rollouts_counter nd) = visits nd) heap')
  ∧ (∀ (itermax : nat) heap pos (i : nat),
     UCT_loop' itermax = Ok (heap, pos) → reachable heap i →
     ∃ nd rs, heap !! i = Some nd ∧
       counter_total (rollouts_counter nd) = visits nd ∧
       history nd rs ∧ length rs = visits nd ∧
       (1 ≤ visits nd → rs ≠ [])).
Proof.
  assert (∀ (nd : Node) (r : Qc),
     counter_total (rollouts_counter nd) = visits nd →
     counter_total (rollouts_counter (Update nd r)) = visits (Update nd r))
    as Hupd.
  { intros nd r Heq. simpl. rewrite counter_total_incr. lia. }
  split_and!; [done| |].
  - intros heap pos heap' pos'.
    by apply (UCT_iteration_Forall
                (λ nd, counter_total (rollouts_counter nd) = visits nd)).
  - intros itermax heap pos i HI%UCT_loop_Inv Hreach.
    destruct (reachable_lookup _ _ _ _ HI Hreach) as [nd Hnd].
    destruct (inv_history _ _ _ _ HI i nd Hnd) as [rs Hrs].
    destruct (history_stats _ _ Hrs) as (Hv & Hc & _).
    exists nd, rs. split_and!; [done|lia|done|lia|].
    intros Hge ->. simpl in Hv. lia.
Qed.
End Inv_facts.

(** ** The heuristics of the source return on visited nodes *)

Section heuristics_return.
Context {State Move Player : Type} `{EqDecision Move}
        `{G : GameState State Move Player}.

Lemma zero_std_returns : heuristic_returns (zero_std (Move:=Move) (Player:=Player)).
Proof. intros nd rs _ _. by eexists. Qed.

Lemma regular_std_returns :
  heuristic_returns (regular_std (Move:=Move) (Player:=Player)).
Proof. intros nd rs _ Hv. eexists. by apply regular_std_Ok. Qed.

Lemma last_res_std_returns :
  heuristic_returns (last_res_std (Move:=Move) (Player:=Player)).
Proof.
  intros nd rs Hrs Hv. destruct (history_last nd rs Hrs Hv) as [r Hr].
  eexists. by apply last_res_std_Ok.
Qed.
End heuristics_return.

(** ** The take-away game as an instance *)

Lemma TakeAway_ends : game_ends TakeAway.chips.
Proof.
  intros [n b] m. simpl. destruct n as [|[|n]]; simpl.
  - by intros ?%elem_of_nil.
  - intros Hm%list_elem_of_singleton. lia.
  - intros [->|Hm%list_elem_of_singleton]%elem_of_cons; lia.
Qed.

Lemma TakeAway_first_iteration :
  UCT_loop TakeAway.draws TakeAway.chips zero_std 0%R (TakeAway.start 3) 1
  = Ok (TakeAway.tree1, 2).
Proof. vm_compute. reflexivity. Qed.

(** The second iteration expands the second root move; the two children
    then have one visit each and the tie goes to the child added last. *)
Example TakeAway_two_iterations :
  UCT TakeAway.draws TakeAway.chips zero_std 0%R (TakeAway.start 3) 2
  = Ok (Some 2).
Proof. vm_compute. reflexivity. Qed.

Example sorted_is_stable :
  sorted Nat.ltb (λ x, Ok (x mod 3)) [3; 4; 6; 1; 2] = Ok [3; 6; 4; 1; 2].
Proof. reflexivity. Qed.

Example list_remove_first : list_remove 2 [1; 2; 3; 2] = Some [1; 3; 2].
Proof. reflexivity. Qed.

Example Update_counts :
  rollouts_counter (Update (Update TakeAway.visited_once 1%Qc) 0%Qc)
  = [(0%Qc, 2); (1%Qc, 1)].
Proof. reflexivity. Qed.

(** ** The theorems at concrete inputs *)

Lemma UCT_most_visited_witness :
  GetMoves (TakeAway.start 3) ≠ [] ∧ 1 ≤ 2 ∧
  is_Ok (UCT TakeAway.draws TakeAway.chips zero_std 0%R (TakeAway.start 3) 2).
Proof.
  assert (GetMoves (TakeAway.start 3) ≠ []) as H1 by (simpl; discriminate).
  assert (1 ≤ 2) as H2 by lia.
  split_and!; [exact H1|exact H2|].
  destruct (UCT_most_visited (TakeAway.start 3) TakeAway.draws TakeAway.chips
              zero_std 0%R 2 H1 H2) as [_ Hret].
  apply Hret; [apply TakeAway_ends|apply zero_std_returns].
Defined.

Lemma UCT_root_visits_witness :
  GetMoves (TakeAway.start 3) ≠ [] ∧ 1 ≤ 1 ∧
  ∃ root, TakeAway.tree1 !! 0 = Some root ∧ visits root = 1.
Proof.
  assert (GetMoves (TakeAway.start 3) ≠ []) as H1 by (simpl; discriminate).
  assert (1 ≤ 1) as H2 by lia.
  split_and!; [exact H1|exact H2|].
  destruct (UCT_root_visits (TakeAway.start 3) TakeAway.draws TakeAway.chips
              zero_std 0%R 1 H1 H2) as [Hpost _].
  destruct (Hpost TakeAway.tree1 2 TakeAway_first_iteration)
    as (root & _ & Hroot & Hv & _).
  exists root. split; assumption.
Defined.

Lemma selection_never_divides_by_zero_witness :
  ∃ cn, TakeAway.tree1 !! 1 = Some cn ∧ 1 ≤ visits cn.
Proof.
  destruct (selection_never_divides_by_zero (TakeAway.start 3) TakeAway.draws
              TakeAway.chips zero_std 0%R 1 TakeAway.tree1 2
              TakeAway_first_iteration 0
              {| move := None; parentNode := None; childNodes := [1];
                 wins := 1%Qc; visits := 1; untriedMoves := [2];
                 playerJustMoved := false;
                 rollouts_counter := [(1%Qc, 1)];
                 last_rollout_res := Some 1%Qc |} 1)
    as (cn & Hcn & Hv & _).
  - reflexivity.
  - simpl. apply list_elem_of_singleton. reflexivity.
  - exists cn. split; assumption.
Defined.

Lemma UCT_terminal_root_raises_witness :
  GetMoves (TakeAway.start 0) = [] ∧
  UCT TakeAway.draws TakeAway.chips zero_std 0%R (TakeAway.start 0) 5
  = Raise IndexError.
Proof.
  split; [reflexivity|].
  apply (UCT_terminal_root_raises (TakeAway.start 0)). reflexivity.
Defined.

Lemma AddChild_spec_witness :
  (∃ heap', AddChild TakeAway.tree0 0 2 (TakeAway.start 1) = (heap', Ok 1))
  ∧ (∃ heap', AddChild TakeAway.tree0 0 5 (TakeAway.start 1)
              = (heap', Raise ValueError)).
Proof.
  split.
  - destruct (AddChild_spec TakeAway.tree0 0
                (Node_init None None (TakeAway.start 3)) 2 (TakeAway.start 1)
                eq_refl) as [Hin _].
    destruct Hin as (_ & _ & heap' & _ & _ & _ & _ & Hadd & _).
    + simpl. apply elem_of_cons. right. apply elem_of_cons. left. reflexivity.
    + exists heap'. exact Hadd.
  - destruct (AddChild_spec TakeAway.tree0 0
                (Node_init None None (TakeAway.start 3)) 5 (TakeAway.start 1)
                eq_refl) as [_ Hnin].
    destruct Hnin as (heap' & Hadd & _).
    + simpl. intros Hin.
      apply elem_of_cons in Hin as [Hin|Hin]; [discriminate|].
      apply elem_of_cons in Hin as [Hin|Hin]; [discriminate|].
      by apply elem_of_nil in Hin.
    + exists heap'. exact Hadd.
Defined.

Lemma counter_total_eq_visits_witness :
  ∃ nd, TakeAway.tree1 !! 1 = Some nd
        ∧ counter_total (rollouts_counter nd) = visits nd.
Proof.
  destruct (counter_total_eq_visits (TakeAway.start 3) TakeAway.draws
              TakeAway.chips zero_std 0%R) as (_ & _ & Hloop).
  destruct (Hloop 1 TakeAway.tree1 2 1 TakeAway_first_iteration)
    as (nd & _ & Hnd & Heq & _).
  - eapply reachable_child; [apply reachable_root|reflexivity|].
    simpl. apply list_elem_of_singleton. reflexivity.
  - exists nd. split; assumption.
Defined.


(** ** Where rounding shows *)

Section rounding_examples.
Import F64 Rounding.

Example tenth_is : tenth = S754_finite false 7205759403792794 (-56).
Proof. vm_compute. reflexivity. Qed.

(** [0.1 + 0.1 + 0.1] is [0.30000000000000004]. *)
Example three_tenths_wins :
  wins three_tenths = S754_finite false 5404319552844596 (-54).
Proof. vm_compute. reflexivity. Qed.

(** [regular_std] depends on the order in which the outcomes first came:
    [0.4] against [0.39999999999999997] (with the correctly rounded square
    for [x ** 2]). *)
Example regular_std_order :
  regular_std square (after [one; zero; zero; zero; half] (fresh 1))
  = Ok (S754_finite false 7205759403792794 (-54))
  ∧ regular_std square (after [one; half; zero; zero; zero] (fresh 1))
    = Ok (S754_finite false 7205759403792793 (-54)).
Proof. split; vm_compute; reflexivity. Qed.

(** With outcomes of magnitude [1e200] the square is out of range. *)
Example regular_std_overflow :
  regular_std square (after [huge; fsub zero huge] (fresh 1))
  = Raise OverflowError.
Proof. vm_compute. reflexivity. Qed.

(** After ten outcomes [0.1] the win rate [wins / visits] is
    [0.09999999999999999] and the mean that the heuristics compute from
    [rollouts_counter] is [0.1]. *)
Example win_rate_and_mean :
  py_div (wins (after (replicate 10 tenth) (fresh 1))) 10
  = Ok (S754_finite false 7205759403792793 (-56))
  ∧ counter_mean (rollouts_counter (after (replicate 10 tenth) (fresh 1))) 10
    = Ok tenth.
Proof. split; vm_compute; reflexivity. Qed.

(** The sum of [0.2] and [0.1] that [Update] stores is above the sum of
    the two numbers. *)
Lemma Update_float_inexact :
  (to_Q (wins two_tenths) + to_Q tenth < to_Q (wins (Update two_tenths tenth)))%Q.
Proof. vm_compute. reflexivity. Qed.


(** Two children with equal statistics and heuristic values [0.1] and the
    next float: the computed scores are both [0.8887050112577374], the last
    child is returned, and its exact score is the smaller one. *)
Lemma UCTSelectChild_float_not_exact_maximum :
  UCTSelectChild log_table (λ n, Ok (close_h n)) half close_store 0 = Ok 2
  ∧ close_store !! 1 = Some (after [half] (fresh 1))
  ∧ close_store !! 2 = Some (after [half] (fresh 2))
  ∧ (exact_score half close_h 2 (after [half] (fresh 2))
     < exact_score half close_h 2 (after [half] (fresh 1)))%R.
Proof.
  split_and!; [vm_compute; reflexivity|reflexivity|reflexivity|].
  apply exact_score_heuristic; [reflexivity|reflexivity| |].
  - apply to_R_pos. vm_compute. reflexivity.
  - apply to_R_lt. vm_compute. reflexivity.
Qed.

Example close_scores :
  float_score log_table half close_h 2 (after [half] (fresh 1))
  = S754_finite false 8004743115085277 (-53)
  ∧ float_score log_table half close_h 2 (after [half] (fresh 2))
    = S754_finite false 8004743115085277 (-53).
Proof. split; vm_compute; reflexivity. Qed.

(** A score that is NaN is below no score and above none: the sort leaves
    the child that has it where it is, and here it is returned though the
    score of the other child is a number. *)
Example UCTSelectChild_float_nan :
  UCTSelectChild log_table (λ n, Ok (nan_h n)) half close_store 0 = Ok 2
  ∧ float_score log_table half nan_h 2 (after [half] (fresh 2)) = S754_nan
  ∧ float_score log_table half nan_h 2 (after [half] (fresh 1))
    = S754_finite false 8004743115085277 (-53).
Proof. split_and!; vm_compute; reflexivity. Qed.

(** Two children whose exact scores are the same number: the computed
    score of the first, [1.6330575168866062], is above that of the second,
    [1.633057516886606], and the first is returned. *)
Lemma UCTSelectChild_float_real_tie :
  UCTSelectChild log_table (λ n, Ok (tied_h n)) quarter tied_store 0 = Ok 1
  ∧ childNodes root = [1; 2]
  ∧ tied_store !! 1 = Some (after [one] (fresh 1))
  ∧ tied_store !! 2 = Some (after [half] (fresh 2))
  ∧ exact_score quarter tied_h 2 (after [one] (fresh 1))
    = exact_score quarter tied_h 2 (after [half] (fresh 2)).
Proof.
  split_and!; [vm_compute; reflexivity|reflexivity..|].
  unfold exact_score.
  rewrite (to_R_eq quarter (1 # 4)) by (vm_compute; reflexivity).
  rewrite (to_R_eq (wins (after [one] (fresh 1))) 1) by (vm_compute; reflexivity).
  rewrite (to_R_eq (wins (after [half] (fresh 2))) (1 # 2))
    by (vm_compute; reflexivity).
  rewrite (to_R_eq (tied_h (after [one] (fresh 1))) 0)
    by (vm_compute; reflexivity).
  rewrite (to_R_eq (tied_h (after [half] (fresh 2))) (3 # 2))
    by (vm_compute; reflexivity).
  change (visits (after [one] (fresh 1))) with 1.
  change (visits (after [half] (fresh 2))) with 1.
  unfold Q2R. simpl. lra.
Qed.

Example tied_scores :
  float_score log_table quarter tied_h 2 (after [one] (fresh 1))
  = S754_finite false 7354637224525107 (-52)
  ∧ float_score log_table quarter tied_h 2 (after [half] (fresh 2))
    = S754_finite false 7354637224525106 (-52).
Proof. split; vm_compute; reflexivity. Qed.

Lemma Update_float_spec_witness :
  is_nan tenth = false
  ∧ visits (Update two_tenths tenth) = 3
  ∧ wins (Update two_tenths tenth) = S754_finite false 5404319552844596 (-54)
  ∧ counter_get tenth (rollouts_counter (Update two_tenths tenth)) = 3.
Proof.
  destruct (Update_float_spec two_tenths tenth) as (Hv & Hw & Hc & _).
  split_and!.
  - reflexivity.
  - rewrite Hv. reflexivity.
  - rewrite Hw. vm_compute. reflexivity.
  - rewrite (Hc eq_refl). vm_compute. reflexivity.
Defined.


Lemma rounding_children (P : nat → Prop) (c : nat) :
  c ∈ [1; 2] → P 1 → P 2 → P c.
Proof.
  intros Hc H1 H2. apply elem_of_cons in Hc as [->|Hc]; [exact H1|].
  apply list_elem_of_singleton in Hc as ->. exact H2.
Defined.

Lemma UCTSelectChild_maximises_key_witness :
  ∃ c cn,
    UCTSelectChild log_table (λ n, Ok (tied_h n)) quarter tied_store 0 = Ok c ∧
    c ∈ childNodes root ∧ tied_store !! c = Some cn ∧
    ∀ c' cn', c' ∈ childNodes root → tied_store !! c' = Some cn' →
      fleb (float_score log_table quarter tied_h (visits root) cn')
           (float_score log_table quarter tied_h (visits root) cn) = true.
Proof.
  apply (UCTSelectChild_maximises_key log_table tied_store 0 root quarter tied_h).
  - reflexivity.
  - simpl. discriminate.
  - simpl. lia.
  - intros c Hc. pattern c. apply (rounding_children _ c Hc).
    + eexists. split; [reflexivity|]. vm_compute. lia.
    + eexists. split; [reflexivity|]. vm_compute. lia.
  - vm_compute. reflexivity.
  - intros c cn Hc. revert cn. pattern c. apply (rounding_children _ c Hc).
    + intros cn [= <-]. vm_compute. reflexivity.
    + intros cn [= <-]. vm_compute. reflexivity.
Defined.

End rounding_examples.

Lemma computed_ties_go_to_last_child_witness :
  (∃ c cn l1 l2,
     F64.UCTSelectChild Rounding.log_table (λ n, Ok (Rounding.close_h n))
       Rounding.half Rounding.close_store 0 = Ok c ∧
     Rounding.close_store !! c = Some cn ∧
     F64.childNodes Rounding.root = l1 ++ (c :: l2) ∧
     (∀ c' cn', c' ∈ l1 → Rounding.close_store !! c' = Some cn' →
        F64.fleb
          (F64.float_score Rounding.log_table Rounding.half Rounding.close_h
             (F64.visits Rounding.root) cn')
          (F64.float_score Rounding.log_table Rounding.half Rounding.close_h
             (F64.visits Rounding.root) cn) = true) ∧
     (∀ c' cn', c' ∈ l2 → Rounding.close_store !! c' = Some cn' →
        F64.fltb
          (F64.float_score Rounding.log_table Rounding.half Rounding.close_h
             (F64.visits Rounding.root) cn')
          (F64.float_score Rounding.log_table Rounding.half Rounding.close_h
             (F64.visits Rounding.root) cn) = true))
  ∧ (∃ m (heap : list (Node nat bool)) root c cn l1 l2,
       Some 2 = Some m ∧ heap !! 0 = Some root ∧
       childNodes root = l1 ++ (c :: l2) ∧
       heap !! c = Some cn ∧ move cn = Some m ∧
       (∀ c' cn', c' ∈ l2 → heap !! c' = Some cn' →
          visits cn' < visits cn)).
Proof.
  destruct (computed_ties_go_to_last_child (TakeAway.start 3) TakeAway.draws
              TakeAway.chips zero_std 0%R) as [Hsel Huct].
  split.
  - apply (Hsel Rounding.log_table Rounding.close_store 0 Rounding.root
             Rounding.half Rounding.close_h).
    + reflexivity.
    + simpl. discriminate.
    + simpl. lia.
    + intros c Hc. pattern c. apply (rounding_children _ c Hc).
      * eexists. split; [reflexivity|]. vm_compute. lia.
      * eexists. split; [reflexivity|]. vm_compute. lia.
    + vm_compute. reflexivity.
    + intros c cn Hc. revert cn. pattern c. apply (rounding_children _ c Hc).
      * intros cn [= <-]. vm_compute. reflexivity.
      * intros cn [= <-]. vm_compute. reflexivity.
  - destruct (Huct 2) as [Hret _].
    + simpl. discriminate.
    + lia.
    + destruct (Hret (Some 2) TakeAway_two_iterations)
        as (m & heap & pos & root & c & cn & l1 & l2
            & Hm & _ & Hr & Hl & Hcn & Hmv & _ & H2).
      exists m, heap, root, c, cn, l1, l2. split_and!; assumption.
Defined.

(** * Further properties of the code *)

(** ** The outcome distribution of a node *)

Section counter_facts.
Context {State Move Player : Type} `{EqDecision Move}
        `{G : GameState State Move Player}.
Abbreviation Node := (Node Move Player).
Implicit Types (nd : Node) (c : list (Qc * nat)) (rs : list Qc).

Lemma counter_incr_keys (k : Qc) c :
  (counter_incr k c).*1 = if decide (k ∈ c.*1) then c.*1 else c.*1 ++ [k].
Proof.
  induction c as [|[k' v] c IH]; csimpl.
  - done.
  - destruct (decide (k' = k)) as [->|Hne]; csimpl.
    + rewrite decide_True; [done|]. left.
    + rewrite IH. destruct (decide (k ∈ c.*1)) as [Hin|Hnin].
      * rewrite decide_True; [done|]. by right.
      * rewrite decide_False; [done|]. rewrite not_elem_of_cons. split; [done|].
        done.
Qed.

Lemma counter_incr_positive (k : Qc) c :
  Forall (λ kv, 1 ≤ kv.2) c → Forall (λ kv, 1 ≤ kv.2) (counter_incr k c).
Proof.
  induction 1 as [|[k' v] c Hv Hc IH]; simpl.
  - repeat constructor.
  - destruct (decide (k' = k)); constructor; simpl in *; try done. lia.
Qed.

(** [rollouts_counter] is a dict of the results backpropagated so far: its
    keys are distinct, every stored count is positive, and the count of a
    result is the number of times it was backpropagated. *)
Theorem counter_records_history nd rs :
  history nd rs →
  NoDup (rollouts_counter nd).*1
  ∧ Forall (λ kv, 1 ≤ kv.2) (rollouts_counter nd)
  ∧ ∀ k, counter_get k (rollouts_counter nd)
         = length (filter (λ r, r = k) rs).
Proof.
  induction 1 as [m p s|nd rs r _ (Hnd & Hpos & Hget)|nd rs u _ IH|nd rs c _ IH];
    simpl; try done.
  - split_and!; [constructor|constructor|done].
  - split_and!.
    + rewrite counter_incr_keys. destruct (decide _) as [|Hnin]; [done|].
      apply NoDup_app. split_and!; [done| |apply NoDup_singleton].
      intros k Hk ->%list_elem_of_singleton. done.
    + by apply counter_incr_positive.
    + intros k. rewrite filter_app, length_app.
      destruct (decide (k = r)) as [->|Hne].
      * rewrite counter_get_incr_eq, Hget.
        rewrite filter_cons_True by done. done.
      * rewrite counter_get_incr_ne, Hget by done.
        rewrite filter_cons_False by done. simpl. lia.
Qed.

End counter_facts.

(** ** Errors of selection and of a search without budget *)

Section selection_errors.
Context {Move Player : Type}.
Abbreviation Node := (Node Move Player).
Implicit Types (heap : list Node).

Lemma decorate_Raise {A K : Type} (key : A → result K) (l : list A) (e : exn) :
  (∀ a, a ∈ l → is_Ok (key a) ∨ key a = Raise e) →
  (∃ a, a ∈ l ∧ key a = Raise e) →
  decorate key l = Raise e.
Proof.
  unfold decorate. induction l as [|a l IH]; intros Hall (b & Hb & Hkb).
  - by apply elem_of_nil in Hb.
  - simpl. destruct (Hall a) as [[k Hk]|Hk]; [left| |by rewrite Hk].
    rewrite Hk. simpl. rewrite IH; [done| |].
    + intros a' Ha'. apply Hall. by right.
    + apply elem_of_cons in Hb as [->|Hb]; [congruence|]. by exists b.
Qed.

Lemma UCTSelectChild_unfold (sf : Node → result R) (w : R) heap (p : nat)
    (pn : Node) :
  heap !! p = Some pn →
  UCTSelectChild sf w heap p
  = (s ← sorted Rltb (λ c, cn ← deref heap c; ucb_key sf w (visits pn) cn)
                (childNodes pn);
     py_last s).
Proof.
  intros Hp. unfold UCTSelectChild.
  replace (deref heap p) with (Ok pn) by (unfold deref; by rewrite Hp).
  reflexivity.
Qed.

(** [UCTSelectChild] outside its domain.  On a node without children it
    raises [IndexError].  On a visited node with a child that has no visit
    it raises [ZeroDivisionError].  On a node without a visit whose children
    are all visited it raises [ValueError], from [log(0)]. *)
Theorem UCTSelectChild_errors heap (p : nat) (pn : Node) (w : R) (h : Node → R) :
  heap !! p = Some pn →
  (∀ c, c ∈ childNodes pn → is_Some (heap !! c)) →
  (childNodes pn = [] →
     UCTSelectChild (λ n, Ok (h n)) w heap p = Raise IndexError)
  ∧ (1 ≤ visits pn →
     (∃ c cn, c ∈ childNodes pn ∧ heap !! c = Some cn ∧ visits cn = 0) →
     UCTSelectChild (λ n, Ok (h n)) w heap p = Raise ZeroDivisionError)
  ∧ (visits pn = 0 → childNodes pn ≠ [] →
     (∀ c cn, c ∈ childNodes pn → heap !! c = Some cn → 1 ≤ visits cn) →
     UCTSelectChild (λ n, Ok (h n)) w heap p = Raise ValueError).
Proof.
  intros Hp Hch. rewrite (UCTSelectChild_unfold _ _ _ _ _ Hp). split_and!.
  - intros ->. done.
  - intros Hv (c & cn & Hc & Hcn & Hcv). unfold sorted.
    rewrite (decorate_Raise _ _ ZeroDivisionError); [done| |].
    + intros a Ha. destruct (Hch a Ha) as [an Han].
      unfold deref. rewrite Han. simpl.
      destruct (decide (visits an = 0)) as [Hz|Hnz].
      * right. unfold ucb_key, py_div. by rewrite decide_True.
      * left. rewrite (ucb_key_Ok _ _ _ _ (h an)); [by eexists|lia|lia|done].
    + exists c. split; [done|]. unfold deref. rewrite Hcn. simpl.
      unfold ucb_key, py_div. by rewrite decide_True.
  - intros Hv Hne Hvis. unfold sorted.
    rewrite (decorate_Raise _ _ ValueError); [done| |].
    + intros a Ha. destruct (Hch a Ha) as [an Han]. right.
      unfold deref. rewrite Han. simpl. unfold ucb_key.
      rewrite py_div_Ok by (by eapply Hvis). simpl.
      unfold py_log. by rewrite decide_True.
    + destruct (childNodes pn) as [|c cs] eqn:Hcs; [done|].
      destruct (Hch c) as [cn Hcn]; [left|]. exists c. split; [left|].
      unfold deref. rewrite Hcn. simpl. unfold ucb_key.
      rewrite py_div_Ok by (eapply Hvis; [left|done]). simpl.
      unfold py_log. by rewrite decide_True.
Qed.
End selection_errors.

Section search_edge.
Context {State Move Player : Type} `{EqDecision Move}
        `{G : GameState State Move Player}.
Abbreviation Node := (Node Move Player).

(** When the game ends and the heuristic returns, nothing in a search
    can fail but the final choice among the children of the root: [UCT]
    raises, and then [IndexError], exactly when the budget is 0 or the root
    has no legal move, and returns a move otherwise. *)
Theorem UCT_raises_exactly_without_children (rng : nat → nat)
    (gas : State → nat) (h : Node → result R) (w : R) (rootstate : State)
    (itermax : nat) :
  game_ends gas → heuristic_returns h →
  (itermax = 0 ∨ GetMoves rootstate = [] →
     UCT rng gas h w rootstate itermax = Raise IndexError)
  ∧ (1 ≤ itermax → GetMoves rootstate ≠ [] →
     is_Ok (UCT rng gas h w rootstate itermax)).
Proof.
  intros Hgas Hh. split.
  - intros [->|Hterm]; [reflexivity|]. unfold UCT.
    destruct (UCT_loop_terminal rootstate rng gas h w itermax Hterm)
      as (root & -> & _ & Hch & _).
    simpl. unfold most_visited, deref. simpl. by rewrite Hch.
  - intros Hge Hm. unfold UCT.
    destruct (UCT_loop_total rootstate rng gas h w itermax Hgas Hh)
      as (heap & pos & Hloop & _).
    destruct (UCT_loop_return rootstate rng gas h w itermax heap pos Hm Hge
                Hloop) as (m & _ & _ & _ & _ & _ & Hret & _).
    rewrite Hloop. simpl. rewrite Hret. by eexists.
Qed.
End search_edge.

(** ** Backpropagation and the size of the tree *)

Section tree_facts.
Context {State Move Player : Type} `{EqDecision Move}
        `{G : GameState State Move Player}.
Abbreviation Node := (Node Move Player).
Implicit Types (heap : list Node) (nd : Node) (cur : option nat).

Variable rootstate : State.

Lemma Backpropagate_length (fuel : nat) (state : State) heap cur heap' :
  Backpropagate fuel state heap cur = Ok heap' → length heap' = length heap.
Proof.
  revert heap cur. induction fuel as [|fuel IH]; intros heap cur; simpl.
  - destruct cur; [done|]. by intros [= <-].
  - destruct cur as [i|]; [|by intros [= <-]].
    unfold deref. destruct (heap !! i) as [nd|]; simpl; [|done].
    intros Hb%IH. by rewrite length_insert in Hb.
Qed.

Lemma path_to_root_le (fuel : nat) heap cur (n i j : nat) :
  Inv rootstate heap cur n → j ∈ path_to_root fuel heap i → j ≤ i.
Proof.
  intros HI. revert i. induction fuel as [|fuel IH]; intros i; simpl.
  - by intros ?%elem_of_nil.
  - intros [->|Hj]%elem_of_cons; [done|].
    destruct (heap !! i) as [nd|] eqn:Hnd; simpl in Hj;
      [|by apply elem_of_nil in Hj].
    pose proof (inv_parent _ _ _ _ HI i nd Hnd) as Hpar.
    destruct (parentNode nd) as [p|]; [|by apply elem_of_nil in Hj].
    apply IH in Hj. lia.
Qed.

Lemma path_to_root_ext (fuel : nat) heap heap1 (i : nat) :
  (∀ j, heap1 !! j ≫= parentNode = heap !! j ≫= parentNode) →
  path_to_root fuel heap1 i = path_to_root fuel heap i.
Proof.
  intros Hext. revert i. induction fuel as [|fuel IH]; intros i; simpl; [done|].
  rewrite Hext. destruct (heap !! i ≫= parentNode); [|done]. by rewrite IH.
Qed.

(** Backpropagation from a node of the tree returns; it updates the nodes
    on the path from that node to the root, each once and with the result
    seen by that node's player, and leaves every other node as it was. *)
Theorem Backpropagate_path (fuel : nat) (state : State) heap (i n : nat) :
  Inv rootstate heap (Some i) n → i < fuel →
  ∃ heap',
    Backpropagate fuel state heap (Some i) = Ok heap' ∧
    length heap' = length heap ∧
    0 ∈ path_to_root fuel heap i ∧
    ∀ j nd, heap !! j = Some nd →
      heap' !! j
      = Some (if decide (j ∈ path_to_root fuel heap i)
              then Update nd (GetResult state (playerJustMoved nd))
              else nd).
Proof.
  revert heap i. induction fuel as [|fuel IH]; intros heap i HI Hfuel; [lia|].
  pose proof (inv_cur _ _ _ _ HI i eq_refl) as Hlt.
  apply lookup_lt_is_Some_2 in Hlt as Hnd. destruct Hnd as [nd Hnd].
  pose proof (inv_parent _ _ _ _ HI i nd Hnd) as Hpar.
  pose proof (Inv_Update rootstate heap i nd n
                (GetResult state (playerJustMoved nd)) HI Hnd) as HI1.
  simpl. unfold deref. rewrite Hnd. simpl.
  set (heap1 := <[i := Update nd (GetResult state (playerJustMoved nd))]> heap)
    in *.
  destruct (parentNode nd) as [p|] eqn:Hp.
  - destruct Hpar as [Hpi _].
    destruct (IH heap1 p HI1) as (heap' & Hback & Hlen & H0 & Hupd); [lia|].
    assert (path_to_root fuel heap1 p = path_to_root fuel heap p) as Hpath.
    { apply path_to_root_ext. intros j. unfold heap1.
      destruct (decide (j = i)) as [->|Hne].
      - rewrite list_lookup_insert_eq by done. by rewrite Hnd.
      - by rewrite list_lookup_insert_ne. }
    rewrite Hpath in H0, Hupd.
    exists heap'. split_and!; [done| | |].
    + rewrite Hlen. unfold heap1. apply length_insert.
    + by right.
    + intros j ndj Hj. destruct (decide (j = i)) as [->|Hne].
      * assert (ndj = nd) as -> by congruence.
        rewrite decide_True by left.
        rewrite (Hupd i (Update nd (GetResult state (playerJustMoved nd)))).
        2:{ unfold heap1. by rewrite list_lookup_insert_eq. }
        rewrite decide_False; [done|].
        intros Hin%(path_to_root_le _ _ _ _ _ _ HI). lia.
      * rewrite (Hupd j ndj).
        2:{ unfold heap1. by rewrite list_lookup_insert_ne. }
        destruct (decide (j ∈ path_to_root fuel heap p)) as [Hin|Hnin].
        -- rewrite decide_True; [done|]. by right.
        -- rewrite decide_False; [done|]. rewrite not_elem_of_cons. done.
  - subst i. exists heap1.
    assert (Backpropagate fuel state heap1 None = Ok heap1) as ->
      by (by destruct fuel).
    split_and!; [done|apply length_insert|left|].
    intros j ndj Hj. destruct (decide (j = 0)) as [->|Hne].
    + assert (ndj = nd) as -> by congruence.
      rewrite decide_True by left. unfold heap1.
      by rewrite list_lookup_insert_eq.
    + rewrite decide_False.
      * unfold heap1. by rewrite list_lookup_insert_ne.
      * rewrite not_elem_of_cons. split; [done|]. apply not_elem_of_nil.
Qed.

Lemma Expand_length (rng : nat → nat) heap (node : nat) (state : State)
    (pos : nat) heap' c state' pos' :
  Expand rng heap node state pos = Ok (heap', c, state', pos') →
  length heap ≤ length heap' ≤ length heap + 1.
Proof.
  unfold Expand, deref.
  destruct (heap !! node) as [nd|] eqn:Hnd; simpl; [|done].
  destruct (untriedMoves nd) as [|m0 u0] eqn:Hun.
  { intros ?; simplify_eq. lia. }
  destruct (choice _ _) as [m|]; simpl; [|done].
  unfold AddChild. rewrite Hnd, Hun.
  destruct (list_remove m (m0 :: u0)) as [u|]; [|done].
  intros ?; simplify_eq. rewrite length_insert, length_app. simpl. lia.
Qed.

Lemma UCT_iteration_length (rng : nat → nat) (gas : State → nat)
    (h : Node → result R) (w : R) heap (pos : nat) heap' pos' :
  UCT_iteration rng gas h w rootstate heap pos = Ok (heap', pos') →
  length heap ≤ length heap' ≤ length heap + 1.
Proof.
  unfold UCT_iteration.
  destruct (Select _ _ _ _ _ _) as [[node state]|]; simpl; [|done].
  destruct (Expand _ _ _ _ _) as [[[[heap1 c] state1] pos1]|] eqn:Hexp;
    simpl; [|done].
  destruct (Rollout _ _ _ _) as [[state2 pos2]|]; simpl; [|done].
  destruct (Backpropagate _ _ _ _) as [heap2|] eqn:Hback; simpl; [|done].
  intros ?; simplify_eq.
  apply Backpropagate_length in Hback. apply Expand_length in Hexp. lia.
Qed.

Lemma Inv_reachable heap cur (n i : nat) :
  Inv rootstate heap cur n → i < length heap → reachable heap i.
Proof.
  intros HI. induction i as [i IH] using lt_wf_ind. intros Hlt.
  apply lookup_lt_is_Some_2 in Hlt as [nd Hnd].
  pose proof (inv_parent _ _ _ _ HI i nd Hnd) as Hpar.
  destruct (parentNode nd) as [p|].
  - destruct Hpar as (Hpi & pn & Hpn & Hin).
    eapply reachable_child; [|done..]. apply IH; [done|].
    by eapply lookup_lt_Some.
  - subst i. constructor.
Qed.

(** The tree grows by at most one node per iteration, and every node of
    the store hangs from the root. *)
Theorem tree_size_and_reachability (rng : nat → nat) (gas : State → nat)
    (h : Node → result R) (w : R) (itermax : nat) heap pos :
  UCT_loop rng gas h w rootstate itermax = Ok (heap, pos) →
  1 ≤ length heap ≤ itermax + 1 ∧ ∀ i, i < length heap ↔ reachable heap i.
Proof.
  intros Hloop. split.
  - revert heap pos Hloop.
    induction itermax as [|k IH]; intros heap pos; simpl.
    + intros ?; simplify_eq. simpl. lia.
    + destruct (UCT_loop _ _ _ _ _ k) as [[heap0 pos0]|]; simpl; [|done].
      intros Hit%UCT_iteration_length. specialize (IH heap0 pos0 eq_refl). lia.
  - apply UCT_loop_Inv in Hloop as HI. intros i. split.
    + by eapply Inv_reachable.
    + intros [nd Hnd]%(reachable_lookup rootstate heap None itermax i HI).
      by eapply lookup_lt_Some.
Qed.
End tree_facts.

(** ** The tree follows the rules of the game *)

Section legal_facts.
Context {State Move Player : Type} `{EqDecision Move}
        `{G : GameState State Move Player}.
Abbreviation Node := (Node Move Player).
Implicit Types (heap : list Node) (nd : Node) (cur : option nat).

Variable rootstate : State.

Lemma legal_play_app (s s' s'' : State) (ms ms' : list Move) :
  legal_play s ms s' → legal_play s' ms' s'' → legal_play s (ms ++ ms') s''.
Proof.
  induction 1 as [s|s m ms s' Hm _ IH]; intros Hplay; simpl; [done|].
  constructor; [done|]. by apply IH.
Qed.

Lemma choice_elem {A : Type} (r : nat) (l : list A) (x : A) :
  choice r l = Ok x → x ∈ l.
Proof.
  unfold choice. destruct l as [|y l]; [done|].
  destruct (_ !! _) as [z|] eqn:Hz; [|done]. intros [= <-].
  by eapply list_elem_of_lookup_2.
Qed.

Lemma position_at_fuel (fuel1 fuel2 : nat) heap cur (n i : nat) :
  Inv rootstate heap cur n → i < fuel1 → i < fuel2 →
  position_at rootstate fuel1 heap i = position_at rootstate fuel2 heap i.
Proof.
  intros HI. revert fuel2 i.
  induction fuel1 as [|fuel1 IH]; intros fuel2 i H1 H2; [lia|].
  destruct fuel2 as [|fuel2]; [lia|]. simpl.
  destruct (heap !! i) as [nd|] eqn:Hnd; [|done].
  pose proof (inv_parent _ _ _ _ HI i nd Hnd) as Hpar.
  destruct (parentNode nd) as [p|]; [|done].
  destruct (move nd) as [m|]; [|done].
  f_equal. apply IH; lia.
Qed.

Lemma position_root heap cur (n : nat) :
  Inv rootstate heap cur n → position rootstate heap 0 = rootstate.
Proof.
  intros HI. unfold position. simpl.
  destruct (heap !! 0) as [nd|] eqn:Hnd; [|done].
  pose proof (inv_parent _ _ _ _ HI 0 nd Hnd) as Hpar.
  destruct (parentNode nd) as [p|]; [lia|done].
Qed.

Lemma position_child heap cur (n c p : nat) (cn : Node) (m : Move) :
  Inv rootstate heap cur n →
  heap !! c = Some cn → parentNode cn = Some p → move cn = Some m →
  position rootstate heap c = DoMove (position rootstate heap p) m.
Proof.
  intros HI Hcn Hp Hm. unfold position at 1. simpl. rewrite Hcn, Hp, Hm.
  f_equal. unfold position.
  pose proof (inv_parent _ _ _ _ HI c cn Hcn) as Hpar. rewrite Hp in Hpar.
  eapply position_at_fuel; [done|lia..].
Qed.

Lemma position_at_ext (fuel : nat) heap heap' cur (n i : nat) :
  Inv rootstate heap cur n → same_links heap heap' → i < length heap →
  position_at rootstate fuel heap' i = position_at rootstate fuel heap i.
Proof.
  intros HI Hlinks. revert i. induction fuel as [|fuel IH]; intros i Hlt; [done|].
  simpl. apply lookup_lt_is_Some_2 in Hlt as [nd Hnd].
  destruct (Hlinks i nd Hnd) as (nd' & -> & -> & ->). rewrite Hnd.
  pose proof (inv_parent _ _ _ _ HI i nd Hnd) as Hpar.
  destruct (parentNode nd) as [p|]; [|done].
  destruct (move nd) as [m|]; [|done].
  f_equal. apply IH. destruct Hpar as (_ & pn & Hpn & _).
  by eapply lookup_lt_Some.
Qed.

Lemma child_moves_ext heap heap' cur (n p : nat) (pn : Node) :
  Inv rootstate heap cur n → same_links heap heap' → heap !! p = Some pn →
  omap (λ c, heap' !! c ≫= move) (childNodes pn) = child_moves heap pn.
Proof.
  intros HI Hlinks Hp. unfold child_moves.
  assert (∀ c, c ∈ childNodes pn → is_Some (heap !! c)) as Hch.
  { intros c Hc. destruct (inv_child _ _ _ _ HI p pn c Hp Hc) as (cn & -> & _).
    by eexists. }
  induction (childNodes pn) as [|c l IH]; [done|]. csimpl.
  destruct (Hch c) as [cn Hcn]; [left|].
  destruct (Hlinks c cn Hcn) as (cn' & -> & _ & Hmv). rewrite Hcn. csimpl.
  rewrite Hmv, IH; [done|]. intros c' Hc'. apply Hch. by right.
Qed.

Lemma Backpropagate_frame (fuel : nat) (state : State) heap cur heap' :
  Backpropagate fuel state heap cur = Ok heap' →
  ∀ j nd, heap !! j = Some nd →
    ∃ nd', heap' !! j = Some nd' ∧ parentNode nd' = parentNode nd
           ∧ move nd' = move nd ∧ childNodes nd' = childNodes nd
           ∧ untriedMoves nd' = untriedMoves nd.
Proof.
  revert heap cur. induction fuel as [|fuel IH]; intros heap cur; simpl.
  - destruct cur; [done|]. intros [= <-] j nd Hj. by exists nd.
  - destruct cur as [i|]; [|intros [= <-] j nd Hj; by exists nd].
    unfold deref. destruct (heap !! i) as [ndi|] eqn:Hi; simpl; [|done].
    intros Hback j nd Hj.
    destruct (decide (j = i)) as [->|Hne].
    + assert (nd = ndi) as -> by congruence.
      destruct (IH _ _ Hback i (Update ndi (GetResult state (playerJustMoved ndi))))
        as (nd' & ? & ? & ? & ? & ?).
      { apply list_lookup_insert_eq. by eapply lookup_lt_Some. }
      by exists nd'.
    + apply (IH _ _ Hback). by rewrite list_lookup_insert_ne.
Qed.

Lemma moves_accounted_frame heap heap' cur (n : nat) :
  Inv rootstate heap cur n → length heap' = length heap →
  (∀ j nd, heap !! j = Some nd →
     ∃ nd', heap' !! j = Some nd' ∧ parentNode nd' = parentNode nd
            ∧ move nd' = move nd ∧ childNodes nd' = childNodes nd
            ∧ untriedMoves nd' = untriedMoves nd) →
  moves_accounted rootstate heap → moves_accounted rootstate heap'.
Proof.
  intros HI Hlen Hframe Hacc j nd' Hj.
  assert (same_links heap heap') as Hlinks.
  { intros i nd Hi. destruct (Hframe i nd Hi) as (x & ? & ? & ? & _).
    by exists x. }
  assert (j < length heap) as Hlt.
  { rewrite <- Hlen. by eapply lookup_lt_Some. }
  apply lookup_lt_is_Some_2 in Hlt as Hnd. destruct Hnd as [nd Hnd].
  destruct (Hframe j nd Hnd) as (x & Hx & _ & _ & Hch & Hun).
  assert (x = nd') as -> by congruence.
  unfold child_moves. rewrite Hch, Hun.
  rewrite (child_moves_ext heap heap' cur n j nd HI Hlinks Hnd).
  unfold position. rewrite (position_at_ext _ heap heap' cur n j HI Hlinks Hlt).
  by apply Hacc.
Qed.

Lemma moves_accounted_init :
  moves_accounted rootstate [Node_init None None rootstate].
Proof. intros [|i] nd Hi; simpl in Hi; [|done]. by simplify_eq. Qed.

(** Expansion keeps the accounts: the move drawn goes from the untried
    moves of the node to its new child, whose position is the state with
    that move played. *)
Lemma moves_accounted_Expand (rng : nat → nat) heap (node : nat) nd
    (state : State) (pos k : nat) heap' c state' pos' :
  Inv rootstate heap None k → moves_accounted rootstate heap →
  heap !! node = Some nd → state = position rootstate heap node →
  (GetMoves rootstate ≠ [] → node = 0 → untriedMoves nd ≠ []) →
  Expand rng heap node state pos = Ok (heap', c, state', pos') →
  Inv rootstate heap' (Some c) (S k)
  ∧ moves_accounted rootstate heap'
  ∧ state' = position rootstate heap' c
  ∧ ∃ ms, legal_play state ms state'.
Proof.
  intros HI Hacc Hnode Hstate Hroot0 Hexp.
  destruct (Expand_Inv rootstate rng heap node nd state pos k HI Hnode Hroot0)
    as (heap1 & c1 & state1 & pos1 & Hexp1 & HI1).
  rewrite Hexp in Hexp1. simplify_eq. split; [done|].
  pose proof (lookup_lt_Some _ _ _ Hnode) as Hlt.
  revert Hexp HI1. unfold Expand, deref. rewrite Hnode. simpl.
  destruct (untriedMoves nd) as [|m0 u0] eqn:Hun.
  { intros ? HI1; simplify_eq. split_and!; [done..|].
    exists []. constructor. }
  rewrite <- Hun.
  destruct (choice _ _) as [m|] eqn:Hm; simpl; [|done].
  apply choice_elem in Hm.
  unfold AddChild. rewrite Hnode.
  destruct (list_remove m (untriedMoves nd)) as [u|] eqn:Hu; [|done].
  apply list_remove_Some in Hu as (l1 & l2 & Hl & _ & ->).
  set (state := position rootstate heap node) in *.
  set (new := Node_init (Some m) (Some node) (DoMove state m)).
  set (nd2 := set_childNodes _ _).
  intros ? HI1; simplify_eq.
  set (heap' := <[node := nd2]> (heap ++ [new])) in *.
  assert (heap' !! length heap = Some new) as Hnew.
  { unfold heap'. rewrite list_lookup_insert_ne by lia.
    rewrite lookup_app_r by done. by rewrite Nat.sub_diag. }
  assert (heap' !! node = Some nd2) as Hnd2.
  { unfold heap'. rewrite list_lookup_insert_eq; [done|].
    rewrite length_app. simpl. lia. }
  assert (∀ j x, j ≠ node → heap !! j = Some x → heap' !! j = Some x) as Hold.
  { intros j x Hj Hx. unfold heap'. rewrite list_lookup_insert_ne by done.
    apply lookup_app_l_Some. done. }
  assert (same_links heap heap') as Hlinks.
  { intros j x Hx. destruct (decide (j = node)) as [->|Hne].
    - assert (x = nd) as -> by congruence. by exists nd2.
    - exists x. split; [by apply Hold|done]. }
  assert (position rootstate heap' node = state) as Hpos.
  { unfold position. by rewrite (position_at_ext _ heap heap' None k node HI). }
  assert (GetMoves state ≡ₚ child_moves heap nd ++ untriedMoves nd) as Hnode_acc.
  { symmetry. by apply Hacc. }
  assert (m ∈ GetMoves state) as Hlegal.
  { rewrite Hnode_acc. apply elem_of_app. by right. }
  assert (position rootstate heap' (length heap) = DoMove state m) as Hposc.
  { rewrite (position_child heap' (Some (length heap)) (S k) (length heap) node
               new m HI1 Hnew eq_refl eq_refl). by rewrite Hpos. }
  split_and!.
  - intros j x Hx. destruct (decide (j = length heap)) as [->|Hjc].
    { assert (x = new) as -> by congruence. rewrite Hposc. done. }
    assert (j < length heap) as Hjlt.
    { apply lookup_lt_Some in Hx. unfold heap' in Hx.
      rewrite length_insert, length_app in Hx. simpl in Hx. lia. }
    apply lookup_lt_is_Some_2 in Hjlt as Hy. destruct Hy as [y Hy].
    unfold position. rewrite (position_at_ext _ heap heap' None k j HI Hlinks Hjlt).
    destruct (decide (j = node)) as [->|Hne].
    + assert (x = nd2) as -> by congruence.
      assert (y = nd) as -> by congruence.
      change (position_at rootstate (S node) heap node) with state.
      rewrite Hnode_acc, Hl. unfold child_moves at 1.
      assert (childNodes nd2 = childNodes nd ++ [length heap]) as -> by done.
      assert (untriedMoves nd2 = l1 ++ l2) as -> by done.
      rewrite omap_app.
      rewrite (child_moves_ext heap heap' None k node nd HI Hlinks Hnode).
      assert (omap (λ c, heap' !! c ≫= move) [length heap] = [m]) as ->.
      { csimpl. by rewrite Hnew. }
      rewrite <- app_assoc. apply Permutation_app_head.
      apply (Permutation_middle l1 l2 m).
    + assert (x = y) as -> by (apply (Hold j y Hne) in Hy; congruence).
      unfold child_moves.
      rewrite (child_moves_ext heap heap' None k j y HI Hlinks Hy).
      by apply Hacc.
  - symmetry. apply Hposc.
  - exists [m]. constructor; [done|]. constructor.
Qed.

Lemma UCTSelectChild_child (sf : Node → result R) (w : R) heap (p : nat)
    (pn : Node) (c : nat) :
  heap !! p = Some pn → UCTSelectChild sf w heap p = Ok c →
  c ∈ childNodes pn.
Proof.
  intros Hp. rewrite (UCTSelectChild_unfold _ _ _ _ _ Hp).
  intros (l1 & l2 & k & -> & _)%sorted_last_Ok;
    [|apply Rltb_irrefl|apply Rltb_trans|apply Rltb_cotrans].
  apply elem_of_app. right. left.
Qed.

Lemma child_move_legal heap cur (n p c : nat) (pn cn : Node) (m : Move) :
  Inv rootstate heap cur n → moves_accounted rootstate heap →
  heap !! p = Some pn → c ∈ childNodes pn →
  heap !! c = Some cn → move cn = Some m →
  m ∈ GetMoves (position rootstate heap p).
Proof.
  intros HI Hacc Hp Hc Hcn Hm. rewrite <- (Hacc p pn Hp).
  apply elem_of_app. left. unfold child_moves.
  apply list_elem_of_omap. exists c. split; [done|]. by rewrite Hcn.
Qed.

(** Selection walks down the tree playing the moves of the nodes it
    passes; each is legal where it is played, and the state it ends with is
    the position of the node it ends on. *)
Lemma Select_position (sf : Node → result R) (w : R) (fuel : nat) heap
    (k node : nat) (state : State) node' state' :
  Inv rootstate heap None k → moves_accounted rootstate heap →
  state = position rootstate heap node →
  Select sf w fuel heap node state = Ok (node', state') →
  state' = position rootstate heap node' ∧ ∃ ms, legal_play state ms state'.
Proof.
  intros HI Hacc. revert node state.
  assert (∀ (node : nat) (state : State),
            state = position rootstate heap node →
            Ok (node, state) = Ok (node', state') →
            state' = position rootstate heap node'
            ∧ ∃ ms, legal_play state ms state') as Hstop.
  { intros node state Hst ?; simplify_eq. split; [done|].
    exists []. constructor. }
  induction fuel as [|fuel IH]; intros node state Hst; simpl;
    unfold deref; destruct (heap !! node) as [nd|] eqn:Hnd; simpl; try done.
  - destruct (untriedMoves nd); [|by apply Hstop].
    destruct (childNodes nd); [by apply Hstop|done].
  - destruct (untriedMoves nd); [|by apply Hstop].
    destruct (childNodes nd) eqn:Hcs; [by apply Hstop|].
    destruct (UCTSelectChild _ _ _ _) as [c|] eqn:Hsel; simpl; [|done].
    apply (UCTSelectChild_child _ _ _ _ _ _ Hnd) in Hsel.
    destruct (heap !! c) as [cn|] eqn:Hcn; simpl; [|done].
    destruct (move cn) as [m|] eqn:Hm; [|done].
    destruct (inv_child _ _ _ _ HI node nd c Hnd Hsel) as (cn' & Hcn' & Hpar & _).
    assert (cn' = cn) as -> by congruence.
    intros (Hpos & ms & Hplay)%IH.
    + split; [done|]. exists (m :: ms). constructor; [|done].
      subst state. by eapply child_move_legal.
    + subst state. symmetry. by eapply position_child.
Qed.

Lemma Rollout_legal (rng : nat → nat) (fuel : nat) (s : State) (pos : nat)
    s' pos' :
  Rollout rng fuel s pos = Ok (s', pos') →
  ∃ ms, legal_play s ms s' ∧ GetMoves s' = [] ∧ pos' = pos + length ms
        ∧ length ms ≤ fuel.
Proof.
  revert s pos. induction fuel as [|fuel IH]; intros s pos; simpl;
    destruct (GetMoves s) as [|m0 ms0] eqn:Hms; try done.
  - intros ?; simplify_eq. exists []. split_and!; [constructor|done|simpl; lia|done].
  - intros ?; simplify_eq. exists []. split_and!; [constructor|done|simpl; lia|simpl; lia].
  - rewrite <- Hms. destruct (choice _ _) as [m|] eqn:Hm; simpl; [|done].
    apply choice_elem in Hm.
    intros (ms & Hplay & Hend & -> & Hlen)%IH.
    exists (m :: ms). split_and!; [by constructor|done|simpl; lia|simpl; lia].
Qed.

Lemma UCT_iteration_accounted (rng : nat → nat) (gas : State → nat)
    (sf : Node → result R) (w : R) heap (k pos : nat) heap' pos' :
  Inv rootstate heap None k → moves_accounted rootstate heap →
  UCT_iteration rng gas sf w rootstate heap pos = Ok (heap', pos') →
  moves_accounted rootstate heap'.
Proof.
  intros HI Hacc. unfold UCT_iteration.
  destruct (Select _ _ _ _ _ _) as [[node state]|] eqn:Hsel; simpl; [|done].
  destruct (Select_Ok _ _ _ _ _ _ _ _ Hsel) as (nd & Hnd & Hstop).
  destruct (Select_position _ _ _ _ k _ _ _ _ HI Hacc
              (eq_sym (position_root heap None k HI)) Hsel) as [Hpos _].
  destruct (Expand _ _ _ _ _) as [[[[heap1 c] state1] pos1]|] eqn:Hexp;
    simpl; [|done].
  destruct (moves_accounted_Expand rng heap node nd state pos k heap1 c state1
              pos1 HI Hacc Hnd Hpos) as (HI1 & Hacc1 & _); [|done|].
  { intros Hm ->. destruct (inv_root _ _ _ _ HI) as (root & Hr & _ & Hmoves).
    assert (root = nd) as -> by congruence.
    destruct (Hmoves Hm) as [[?|?] _]; [done|]. by destruct Hstop. }
  destruct (Rollout _ _ _ _) as [[state2 pos2]|]; simpl; [|done].
  destruct (Backpropagate _ _ _ _) as [heap2|] eqn:Hback; simpl; [|done].
  intros ?; simplify_eq.
  eapply (moves_accounted_frame heap1 heap'); [done| | |done].
  - by eapply Backpropagate_length.
  - by eapply Backpropagate_frame.
Qed.

Lemma UCT_loop_accounted (rng : nat → nat) (gas : State → nat)
    (sf : Node → result R) (w : R) (itermax : nat) heap pos :
  UCT_loop rng gas sf w rootstate itermax = Ok (heap, pos) →
  moves_accounted rootstate heap.
Proof.
  revert heap pos. induction itermax as [|k IH]; intros heap pos; simpl.
  - intros ?; simplify_eq. apply moves_accounted_init.
  - destruct (UCT_loop _ _ _ _ _ k) as [[heap0 pos0]|] eqn:Hloop; simpl;
      [|done].
    eapply UCT_iteration_accounted; [by eapply UCT_loop_Inv|by eapply IH].
Qed.

(** After any number of completed iterations the tree mirrors the game:
    the root stands for [rootstate], a child stands for its parent's
    position with the child's move played, and for every node the moves of
    its children together with its untried moves are the legal moves of its
    position, each once.  So a node with nothing left to try and no child
    stands for a finished game. *)
Theorem tree_accounts_for_moves (rng : nat → nat) (gas : State → nat)
    (sf : Node → result R) (w : R) (itermax : nat) heap pos :
  UCT_loop rng gas sf w rootstate itermax = Ok (heap, pos) →
  position rootstate heap 0 = rootstate
  ∧ (∀ p pn c, heap !! p = Some pn → c ∈ childNodes pn →
       ∃ cn m, heap !! c = Some cn ∧ move cn = Some m ∧
         m ∈ GetMoves (position rootstate heap p) ∧
         position rootstate heap c = DoMove (position rootstate heap p) m)
  ∧ (∀ i nd, heap !! i = Some nd →
       child_moves heap nd ++ untriedMoves nd
       ≡ₚ GetMoves (position rootstate heap i))
  ∧ (∀ i nd, heap !! i = Some nd →
       untriedMoves nd = [] → childNodes nd = [] →
       GetMoves (position rootstate heap i) = []).
Proof.
  intros Hloop. apply UCT_loop_Inv in Hloop as HI.
  apply UCT_loop_accounted in Hloop as Hacc. split_and!.
  - by eapply position_root.
  - intros p pn c Hp Hc.
    destruct (inv_child _ _ _ _ HI p pn c Hp Hc) as (cn & Hcn & Hpar & [m Hm]).
    exists cn, m. split_and!; [done..| |].
    + by eapply child_move_legal.
    + by eapply position_child.
  - done.
  - intros i nd Hi Hun Hch. specialize (Hacc i nd Hi).
    unfold child_moves in Hacc. rewrite Hun, Hch in Hacc. simpl in Hacc.
    by apply Permutation_nil_l in Hacc.
Qed.

(** Whatever [UCT] returns is a legal move of [rootstate]. *)
Theorem UCT_returns_legal_move (rng : nat → nat) (gas : State → nat)
    (sf : Node → result R) (w : R) (itermax : nat) (mv : option Move) :
  UCT rng gas sf w rootstate itermax = Ok mv →
  ∃ m, mv = Some m ∧ m ∈ GetMoves rootstate.
Proof.
  unfold UCT.
  destruct (UCT_loop _ _ _ _ _ _) as [[heap pos]|] eqn:Hloop; simpl; [|done].
  apply UCT_loop_Inv in Hloop as HI. apply UCT_loop_accounted in Hloop as Hacc.
  destruct (inv_root _ _ _ _ HI) as (root & Hroot & _).
  unfold most_visited.
  replace (deref heap 0) with (Ok root) by (unfold deref; by rewrite Hroot).
  unfold mbind at 1, result_bind at 1.
  destruct (sorted _ _ _) as [s|] eqn:Hs; simpl; [|done].
  destruct (py_last s) as [c|] eqn:Hc; simpl; [|done].
  assert (c ∈ childNodes root) as Hin.
  { assert ((s ← sorted Nat.ltb (λ c, cn ← deref heap c; Ok (visits cn))
                    (childNodes root); py_last s) = Ok c) as Hlast
      by (by rewrite Hs).
    apply sorted_last_Ok in Hlast as (l1 & l2 & k & -> & _);
      [|apply ltb_irrefl_nat|apply ltb_trans_nat|apply ltb_cotrans_nat].
    apply elem_of_app. right. left. }
  destruct (inv_child _ _ _ _ HI 0 root c Hroot Hin) as (cn & Hcn & _ & [m Hm]).
  unfold deref. rewrite Hcn. simpl. intros [= <-].
  exists m. split; [done|].
  rewrite <- (position_root heap None itermax HI).
  by eapply child_move_legal.
Qed.

(** A rollout that returns has played legal moves only, one draw each and
    no more than its fuel, and has reached a state without legal moves. *)
Theorem Rollout_plays_to_the_end (rng : nat → nat) (fuel : nat) (s : State)
    (pos : nat) (s' : State) (pos' : nat) :
  Rollout rng fuel s pos = Ok (s', pos') →
  ∃ ms, legal_play s ms s' ∧ GetMoves s' = [] ∧ pos' = pos + length ms
        ∧ length ms ≤ fuel.
Proof.
  intros Hroll. destruct (Rollout_legal _ _ _ _ _ _ Hroll)
    as (ms & Hplay & Hend & Hpos & Hlen).
  exists ms. by split_and!.
Qed.

(** In every iteration selection ends on a node with an untried move or
    on a finished game, with the position of that node as working state;
    the state on which the results are read is a finished game reached from
    [rootstate] by legal moves, through the position of the node from which
    backpropagation starts. *)
Theorem iteration_plays_legally (rng : nat → nat) (gas : State → nat)
    (sf : Node → result R) (w : R) (itermax : nat) heap pos
    (node : nat) (state : State) heap1 (c : nat) (state1 : State) (pos1 : nat)
    (state2 : State) (pos2 : nat) :
  UCT_loop rng gas sf w rootstate itermax = Ok (heap, pos) →
  Select sf w (length heap) heap 0 (Clone rootstate) = Ok (node, state) →
  Expand rng heap node state pos = Ok (heap1, c, state1, pos1) →
  Rollout rng (gas state1) state1 pos1 = Ok (state2, pos2) →
  state = position rootstate heap node
  ∧ (∃ nd, heap !! node = Some nd
           ∧ (untriedMoves nd ≠ [] ∨ GetMoves state = []))
  ∧ state1 = position rootstate heap1 c
  ∧ ∃ ms, legal_play rootstate ms state2 ∧ GetMoves state2 = [].
Proof.
  intros Hloop Hsel Hexp Hroll.
  apply UCT_loop_Inv in Hloop as HI. apply UCT_loop_accounted in Hloop as Hacc.
  destruct (Select_Ok _ _ _ _ _ _ _ _ Hsel) as (nd & Hnd & Hstop).
  destruct (Select_position _ _ _ _ itermax _ _ _ _ HI Hacc
              (eq_sym (position_root heap None itermax HI)) Hsel)
    as (Hpos & ms0 & Hplay0).
  destruct (moves_accounted_Expand rng heap node nd state pos itermax heap1 c
              state1 pos1 HI Hacc Hnd Hpos)
    as (_ & _ & Hpos1 & ms1 & Hplay1); [|done|].
  { intros Hm ->. destruct (inv_root _ _ _ _ HI) as (root & Hr & _ & Hmoves).
    assert (root = nd) as -> by congruence.
    destruct (Hmoves Hm) as [[?|?] _]; [done|]. by destruct Hstop. }
  destruct (Rollout_legal _ _ _ _ _ _ Hroll) as (ms2 & Hplay2 & Hend & _).
  split_and!; [done| |done|].
  { exists nd. split; [done|].
    destruct (untriedMoves nd) as [|m u] eqn:Hun; [|by left]. right.
    destruct Hstop as [?|Hch]; [done|].
    pose proof (Hacc node nd Hnd) as Hperm.
    unfold child_moves in Hperm. rewrite Hun, Hch in Hperm. simpl in Hperm.
    rewrite Hpos. by apply Permutation_nil_l in Hperm. }
  exists (ms0 ++ ms1 ++ ms2). split; [|done].
  eapply legal_play_app; [exact Hplay0|]. by eapply legal_play_app.
Qed.
End legal_facts.

(** ** Results between 0 and 1 *)




Section unit_results.
Context {State Move Player : Type} `{EqDecision Move}
        `{G : GameState State Move Player}.
Abbreviation Node := (Node Move Player).
Implicit Types (heap : list Node) (nd : Node) (rs : list Qc).

Variable rootstate : State.
Variable rng : nat → nat.
Variable gas : State → nat.
Variable selected_std_function : Node → result R.
Variable std_weight : R.

(** Properties of single nodes kept by [Update] with a result of the
    game are kept by the search. *)
Section node_property_of_results.
Variable P : Node → Prop.
Hypothesis P_init : ∀ m p s, P (Node_init m p s).
Hypothesis P_Update :
  ∀ nd s, P nd → P (Update nd (GetResult s (playerJustMoved nd))).
Hypothesis P_untried : ∀ nd u, P nd → P (set_untriedMoves u nd).
Hypothesis P_children : ∀ nd c, P nd → P (set_childNodes c nd).


End node_property_of_results.






End unit_results.

(** ** The match driver *)

Section play_facts.
Context {State Move : Type} `{EqDecision Move}
        `{G : GameState State Move Z}.
Abbreviation Node := (Node Move Z).

Variable rng : nat → nat.
Variable gas : State → nat.

Lemma most_visited_legal (rootstate : State) (heap : list Node) (n : nat)
    (mv : option Move) :
  Inv rootstate heap None n → moves_accounted rootstate heap →
  most_visited heap = Ok mv →
  ∃ m, mv = Some m ∧ m ∈ GetMoves rootstate.
Proof.
  intros HI Hacc. destruct (inv_root _ _ _ _ HI) as (root & Hroot & _).
  unfold most_visited.
  replace (deref heap 0) with (Ok root) by (unfold deref; by rewrite Hroot).
  unfold mbind at 1, result_bind at 1.
  destruct (sorted _ _ _) as [s|] eqn:Hs; simpl; [|done].
  destruct (py_last s) as [c|] eqn:Hc; simpl; [|done].
  assert (c ∈ childNodes root) as Hin.
  { assert ((s ← sorted Nat.ltb (λ c, cn ← deref heap c; Ok (visits cn))
                    (childNodes root); py_last s) = Ok c) as Hlast
      by (by rewrite Hs).
    apply sorted_last_Ok in Hlast as (l1 & l2 & k & -> & _);
      [|apply ltb_irrefl_nat|apply ltb_trans_nat|apply ltb_cotrans_nat].
    apply elem_of_app. right. left. }
  destruct (inv_child _ _ _ _ HI 0 root c Hroot Hin) as (cn & Hcn & _ & [m Hm]).
  unfold deref. rewrite Hcn. simpl. intros [= <-].
  exists m. split; [done|].
  rewrite <- (position_root rootstate heap None n HI).
  by eapply child_move_legal.
Qed.

Lemma UCT_call_legal (pos : nat) (sf : Node → result R) (w : R)
    (state : State) (itermax : nat) (mv : option Move) (pos' : nat) :
  UCT_call rng gas pos sf w state itermax = Ok (mv, pos') →
  ∃ m, mv = Some m ∧ m ∈ GetMoves state.
Proof.
  unfold UCT_call.
  destruct (UCT_loop _ _ _ _ _ _) as [[heap used]|] eqn:Hloop; simpl; [|done].
  destruct (most_visited heap) as [mv'|] eqn:Hmv; simpl; [|done].
  intros ?; simplify_eq.
  eapply most_visited_legal; [by eapply UCT_loop_Inv| |done].
  by eapply UCT_loop_accounted.
Qed.

Lemma UCT_call_total (pos : nat) (sf : Node → result R) (w : R)
    (state : State) (itermax : nat) :
  game_ends gas → heuristic_returns sf →
  GetMoves state ≠ [] → 1 ≤ itermax →
  is_Ok (UCT_call rng gas pos sf w state itermax).
Proof.
  intros Hgas Hh Hm Hge. unfold UCT_call.
  destruct (UCT_loop_total state (λ k, rng (pos + k)) gas sf w itermax Hgas Hh)
    as (heap & used & Hloop & _).
  destruct (UCT_loop_return state (λ k, rng (pos + k)) gas sf w itermax heap
              used Hm Hge Hloop) as (m & _ & _ & _ & _ & _ & Hret & _).
  rewrite Hloop. simpl. rewrite Hret. by eexists.
Qed.

Lemma play_legal (fuel p1 p2 : nat) (w : R) (sf : Node → result R)
    (state : State) (pos : nat) (final : State) (pos' : nat) :
  play rng gas fuel p1 p2 w sf state pos = Ok (final, pos') →
  ∃ ms, legal_play state ms final ∧ GetMoves final = []
        ∧ length ms ≤ fuel.
Proof.
  revert state pos. induction fuel as [|fuel IH]; intros state pos; simpl;
    destruct (GetMoves state) as [|m0 ms0] eqn:Hms; try done.
  - intros ?; simplify_eq. exists []. split_and!; [constructor|done|done].
  - intros ?; simplify_eq. exists []. split_and!; [constructor|done|simpl; lia].
  - set (call := if decide (state_playerJustMoved state = 1%Z) then _ else _).
    destruct call as [[mv pos1]|] eqn:Hcall; simpl; [|done].
    assert (∃ m, mv = Some m ∧ m ∈ GetMoves state) as (m & -> & Hm).
    { unfold call in Hcall. destruct (decide _); by eapply UCT_call_legal. }
    intros (ms & Hplay & Hend & Hlen)%IH.
    exists (m :: ms). split_and!; [by constructor|done|simpl; lia].
Qed.

(** What [UCTPlayGame] returns is read on a finished game that was
    reached from the given state by legal moves; with players 1 and 2 it is
    1, 2 or 1.5: the player who moved last when the result is 1, the other
    player when it is 0. *)
Theorem UCTPlayGame_plays_legally (state : State) (p1 p2 : nat) (w : R)
    (sf : Node → result R) (r : Qc) :
  UCTPlayGame rng gas state p1 p2 w sf = Ok r →
  ∃ ms final,
    legal_play state ms final ∧ GetMoves final = [] ∧ length ms ≤ gas state ∧
    r = match_result final ∧
    (GetResult final (state_playerJustMoved final) = 1%Qc →
       r = Q2Qc (inject_Z (state_playerJustMoved final))) ∧
    (GetResult final (state_playerJustMoved final) = 0%Qc →
       r = Q2Qc (inject_Z (3 - state_playerJustMoved final))) ∧
    (state_playerJustMoved final = 1%Z ∨ state_playerJustMoved final = 2%Z →
       r = 1%Qc ∨ r = 2%Qc ∨ r = Q2Qc (3 # 2)).
Proof.
  unfold UCTPlayGame.
  destruct (play _ _ _ _ _ _ _ _ _) as [[final pos']|] eqn:Hplay; simpl; [|done].
  intros [= <-].
  destruct (play_legal _ _ _ _ _ _ _ _ _ Hplay) as (ms & Hlegal & Hend & Hlen).
  exists ms, final. split_and!; try done.
  - intros Hres. unfold match_result. by rewrite decide_True.
  - intros Hres. unfold match_result.
    rewrite decide_False by (by rewrite Hres). by rewrite decide_True.
  - intros Hp. unfold match_result.
    destruct (decide _); [|destruct (decide _)]; [| |by right; right];
      destruct Hp as [-> | ->]; auto.
Qed.

Lemma play_total (fuel p1 p2 : nat) (w : R) (sf : Node → result R)
    (state : State) (pos : nat) :
  game_ends gas → heuristic_returns sf → 1 ≤ p1 → 1 ≤ p2 →
  gas state ≤ fuel →
  is_Ok (play rng gas fuel p1 p2 w sf state pos).
Proof.
  intros Hgas Hh H1 H2. revert state pos.
  induction fuel as [|fuel IH]; intros state pos Hfuel; simpl;
    destruct (GetMoves state) as [|m0 ms0] eqn:Hms; try by eexists.
  - specialize (Hgas state m0). rewrite Hms in Hgas.
    specialize (Hgas ltac:(left)). lia.
  - set (call := if decide (state_playerJustMoved state = 1%Z) then _ else _).
    assert (is_Ok call) as [[mv pos1] Hcall].
    { unfold call. destruct (decide _).
      - apply UCT_call_total; [done|apply zero_std_returns|by rewrite Hms|done].
      - apply UCT_call_total; [done|done|by rewrite Hms|done]. }
    rewrite Hcall. simpl.
    assert (∃ m, mv = Some m ∧ m ∈ GetMoves state) as (m & -> & Hm).
    { unfold call in Hcall. destruct (decide _); by eapply UCT_call_legal. }
    apply IH. specialize (Hgas state m Hm). lia.
Qed.

(** A match between two players with a budget of at least one iteration
    each comes to an end when the game does and the heuristic returns. *)
Theorem UCTPlayGame_returns (state : State) (p1 p2 : nat) (w : R)
    (sf : Node → result R) :
  game_ends gas → heuristic_returns sf → 1 ≤ p1 → 1 ≤ p2 →
  is_Ok (UCTPlayGame rng gas state p1 p2 w sf).
Proof.
  intros Hgas Hh H1 H2. unfold UCTPlayGame.
  destruct (play_total (gas state) p1 p2 w sf state 0 Hgas Hh H1 H2)
    as [[final pos'] ->]; [done|].
  by eexists.
Qed.

(** On a finished game [UCTPlayGame] searches nothing and reports the
    result; on a game in progress a budget of 0 for the player to move
    makes it raise [IndexError]. *)
Theorem UCTPlayGame_edges (state : State) (p1 p2 : nat) (w : R)
    (sf : Node → result R) :
  (GetMoves state = [] →
     UCTPlayGame rng gas state p1 p2 w sf = Ok (match_result state))
  ∧ (GetMoves state ≠ [] → 1 ≤ gas state →
     (if decide (state_playerJustMoved state = 1%Z) then p1 else p2) = 0 →
     UCTPlayGame rng gas state p1 p2 w sf = Raise IndexError).
Proof.
  split.
  - intros Hend. unfold UCTPlayGame.
    assert (∀ fuel, play rng gas fuel p1 p2 w sf state 0 = Ok (state, 0)) as ->.
    { intros fuel. destruct fuel; simpl; by rewrite Hend. }
    done.
  - intros Hm Hgas Hzero. unfold UCTPlayGame.
    destruct (gas state) as [|fuel]; [lia|]. simpl.
    destruct (GetMoves state) as [|m0 ms0]; [done|].
    destruct (decide (state_playerJustMoved state = 1%Z)); subst; done.
Qed.
End play_facts.

(** ** Visits of a node and of its children *)

Section visits_facts.
Context {State Move Player : Type} `{EqDecision Move}
        `{G : GameState State Move Player}.
Abbreviation Node := (Node Move Player).

(** After any number of completed iterations a node has been visited at
    least as often as all its children together, and every node but the
    root has been visited. *)
Theorem parent_visits_dominate (rootstate : State) (rng : nat → nat)
    (gas : State → nat) (sf : Node → result R) (w : R) (itermax : nat)
    (heap : list Node) (pos : nat) :
  UCT_loop rng gas sf w rootstate itermax = Ok (heap, pos) →
  ∀ p pn, heap !! p = Some pn →
    (p ≠ 0 → 1 ≤ visits pn)
    ∧ ∃ cns, Forall2 (λ c cn, heap !! c = Some cn) (childNodes pn) cns
             ∧ sum_list_with visits cns ≤ visits pn.
Proof.
  intros HI%UCT_loop_Inv p pn Hp. split.
  - intros Hp0. by eapply (inv_visited _ _ _ _ HI p pn).
  - destruct (child_visits_nodes rootstate heap None itermax p pn HI Hp)
      as (cns & Hall & Hsum).
    exists cns. split; [done|]. rewrite Hsum.
    pose proof (inv_children _ _ _ _ HI p pn Hp) as Hle. simpl in Hle. lia.
Qed.
End visits_facts.

Section visits_exact_facts.
Context {State Move Player : Type} `{EqDecision Move}
        `{G : GameState State Move Player}.
Abbreviation Node := (Node Move Player).
Implicit Types (heap : list Node) (nd : Node) (cur : option nat).

Variable rootstate : State.

Lemma visits_of_Update heap (i : nat) nd (r : Qc) (j : nat) :
  heap !! i = Some nd →
  visits_of (<[i := Update nd r]> heap) j
  = visits_of heap j + (if decide (j = i) then 1 else 0).
Proof.
  intros Hi. pose proof (lookup_lt_Some _ _ _ Hi) as Hlt. unfold visits_of.
  destruct (decide (j = i)) as [->|Hne].
  - rewrite list_lookup_insert_eq by done. rewrite Hi. done.
  - rewrite list_lookup_insert_ne by done. lia.
Qed.

Lemma child_visits_Update heap (i : nat) nd (n : nat) (r : Qc) (p : nat) pn :
  Inv rootstate heap (Some i) n → heap !! i = Some nd → heap !! p = Some pn →
  sum_list_with (visits_of (<[i := Update nd r]> heap)) (childNodes pn)
  = child_visits heap pn + (if decide (parentNode nd = Some p) then 1 else 0).
Proof.
  intros HI Hi Hp. unfold child_visits.
  destruct (decide (i ∈ childNodes pn)) as [Hin|Hnin].
  - destruct (inv_child _ _ _ _ HI p pn i Hp Hin) as (cn & Hcn & Hpar & _).
    assert (cn = nd) as -> by congruence.
    rewrite decide_True by done.
    apply (sum_list_with_bump _ _ _ i); [| |by eapply inv_nodup|done].
    + intros j Hj. rewrite (visits_of_Update _ _ _ _ _ Hi).
      rewrite decide_False by done. lia.
    + rewrite (visits_of_Update _ _ _ _ _ Hi). by rewrite decide_True.
  - rewrite (sum_list_with_agree (visits_of heap)).
    + destruct (decide (parentNode nd = Some p)) as [Hpar|]; [|lia].
      pose proof (inv_parent _ _ _ _ HI i nd Hi) as Hpi. rewrite Hpar in Hpi.
      destruct Hpi as (_ & pn' & Hpn' & Hin). congruence.
    + intros j Hj. rewrite (visits_of_Update _ _ _ _ _ Hi).
      rewrite decide_False; [lia|]. intros ->. done.
Qed.

Lemma visits_exact_Update heap (i : nat) nd (n : nat) (r : Qc) :
  Inv rootstate heap (Some i) n → visits_exact heap (Some i) →
  heap !! i = Some nd →
  visits_exact (<[i := Update nd r]> heap) (parentNode nd).
Proof.
  intros HI Hex Hi p pn' Hp Hp0 Hmoves.
  pose proof (lookup_lt_Some _ _ _ Hi) as Hlt.
  pose proof (inv_parent _ _ _ _ HI i nd Hi) as Hpi.
  unfold child_visits.
  destruct (decide (p = i)) as [->|Hne].
  - rewrite list_lookup_insert_eq in Hp by done. injection Hp as <-.
    simpl in *. rewrite (child_visits_Update heap i nd n r i nd HI Hi Hi).
    specialize (Hex i nd Hi Hp0 Hmoves). rewrite decide_True in Hex by done.
    destruct (decide (parentNode nd = Some i)) as [Hpar|]; [|lia].
    rewrite Hpar in Hpi. lia.
  - rewrite list_lookup_insert_ne in Hp by done.
    rewrite (child_visits_Update heap i nd n r p pn' HI Hi Hp).
    specialize (Hex p pn' Hp Hp0 Hmoves).
    rewrite decide_False in Hex by congruence.
    destruct (decide (parentNode nd = Some p)); lia.
Qed.

Lemma visits_exact_Backpropagate (fuel : nat) (state : State) heap cur
    (n : nat) heap' :
  Inv rootstate heap cur n → visits_exact heap cur →
  Backpropagate fuel state heap cur = Ok heap' →
  visits_exact heap' None.
Proof.
  revert heap cur. induction fuel as [|fuel IH]; intros heap cur HI Hex; simpl.
  - destruct cur; [done|]. by intros [= <-].
  - destruct cur as [i|]; [|by intros [= <-]].
    unfold deref. destruct (heap !! i) as [nd|] eqn:Hnd; simpl; [|done].
    apply IH; [by apply Inv_Update|by eapply visits_exact_Update].
Qed.

Lemma visits_exact_Expand (rng : nat → nat) heap (node : nat) nd
    (state : State) (pos k : nat) heap' c state' pos' :
  Inv rootstate heap None k → visits_exact heap None →
  heap !! node = Some nd →
  untriedMoves nd ≠ [] ∨ childNodes nd = [] →
  Expand rng heap node state pos = Ok (heap', c, state', pos') →
  visits_exact heap' (Some c).
Proof.
  intros HI Hex Hnode Hstop.
  pose proof (lookup_lt_Some _ _ _ Hnode) as Hlt.
  unfold Expand, deref. rewrite Hnode. simpl.
  destruct (untriedMoves nd) as [|m0 u0] eqn:Hun.
  { intros ?; simplify_eq. intros p pn Hp Hp0 Hmoves.
    destruct (decide (Some c = Some p)) as [[= ->]|Hne].
    - assert (pn = nd) as -> by congruence. rewrite Hun in Hmoves.
      destruct Hstop as [?|Hch]; [done|]. rewrite Hch in Hmoves.
      by destruct Hmoves.
    - specialize (Hex p pn Hp Hp0 Hmoves). rewrite decide_False in Hex by done.
      lia. }
  rewrite <- Hun. destruct (choice _ _) as [m|]; simpl; [|done].
  unfold AddChild. rewrite Hnode.
  destruct (list_remove m (untriedMoves nd)) as [u|] eqn:Hu; [|done].
  set (new := Node_init (Some m) (Some node) (DoMove state m)).
  set (nd2 := set_childNodes _ _).
  intros ?; simplify_eq.
  set (heap' := <[node := nd2]> (heap ++ [new])).
  assert (heap' !! length heap = Some new) as Hnew.
  { unfold heap'. rewrite list_lookup_insert_ne by lia.
    rewrite lookup_app_r by done. by rewrite Nat.sub_diag. }
  assert (∀ j, visits_of heap' j = visits_of heap j) as Hvisits.
  { intros j. unfold visits_of, heap'.
    destruct (decide (j = node)) as [->|Hne].
    - rewrite list_lookup_insert_eq by (rewrite length_app; simpl; lia).
      by rewrite Hnode.
    - rewrite list_lookup_insert_ne by done.
      destruct (decide (j < length heap)).
      + by rewrite lookup_app_l.
      + rewrite (lookup_ge_None_2 heap) by lia.
        destruct (decide (j = length heap)) as [->|].
        * rewrite lookup_app_r by done. by rewrite Nat.sub_diag.
        * rewrite lookup_ge_None_2; [done|]. rewrite length_app. simpl. lia. }
  intros p pn Hp Hp0 Hmoves. unfold child_visits.
  rewrite (sum_list_with_agree (visits_of heap) (visits_of heap')) by done.
  destruct (decide (p = length heap)) as [->|Hpc].
  { assert (pn = new) as -> by congruence. simpl. by rewrite decide_True. }
  rewrite decide_False by congruence.
  destruct (decide (p = node)) as [->|Hne].
  - assert (pn = nd2) as ->.
    { unfold heap' in Hp. rewrite list_lookup_insert_eq in Hp; [congruence|].
      rewrite length_app. simpl. lia. }
    simpl. rewrite sum_list_with_app. simpl.
    unfold visits_of at 2. rewrite (lookup_ge_None_2 heap) by done. simpl.
    assert (untriedMoves nd ≠ [] ∨ childNodes nd ≠ []) as Hm by (left; by rewrite Hun).
    specialize (Hex node nd Hnode Hp0 Hm). rewrite decide_False in Hex by done.
    unfold child_visits in Hex. lia.
  - unfold heap' in Hp. rewrite list_lookup_insert_ne in Hp by done.
    assert (p < length heap) as Hplt.
    { apply lookup_lt_Some in Hp. rewrite length_app in Hp. simpl in Hp. lia. }
    rewrite lookup_app_l in Hp by done.
    specialize (Hex p pn Hp Hp0 Hmoves). rewrite decide_False in Hex by done.
    unfold child_visits in Hex. lia.
Qed.

Lemma UCT_loop_visits_exact (rng : nat → nat) (gas : State → nat)
    (sf : Node → result R) (w : R) (itermax : nat) heap pos :
  UCT_loop rng gas sf w rootstate itermax = Ok (heap, pos) →
  visits_exact heap None.
Proof.
  revert heap pos. induction itermax as [|k IH]; intros heap pos; simpl.
  - intros ?; simplify_eq. intros [|p] pn Hp Hp0; [done|]. done.
  - destruct (UCT_loop _ _ _ _ _ k) as [[heap0 pos0]|] eqn:Hloop; simpl;
      [|done].
    apply UCT_loop_Inv in Hloop as HI. specialize (IH heap0 pos0 eq_refl).
    unfold UCT_iteration.
    destruct (Select _ _ _ _ _ _) as [[node state]|] eqn:Hsel; simpl; [|done].
    destruct (Select_Ok _ _ _ _ _ _ _ _ Hsel) as (nd & Hnd & Hstop).
    destruct (Expand _ _ _ _ _) as [[[[heap1 c] state1] pos1]|] eqn:Hexp;
      simpl; [|done].
    destruct (Expand_Inv rootstate rng heap0 node nd state pos0 k HI Hnd)
      as (heap1' & c' & state1' & pos1' & Hexp' & HI1).
    { intros Hm ->. destruct (inv_root _ _ _ _ HI) as (root & Hr & _ & Hmoves).
      assert (root = nd) as -> by congruence.
      destruct (Hmoves Hm) as [[?|?] _]; [done|]. by destruct Hstop. }
    rewrite Hexp in Hexp'. simplify_eq.
    destruct (Rollout _ _ _ _) as [[state2 pos2]|]; simpl; [|done].
    destruct (Backpropagate _ _ _ _) as [heap2|] eqn:Hback; simpl; [|done].
    intros ?; simplify_eq.
    eapply visits_exact_Backpropagate; [done| |done].
    by eapply visits_exact_Expand.
Qed.

(** After any number of completed iterations, a node whose position has
    legal moves has exactly the visits of its children, plus one, unless it
    is the root, for the iteration that built it. *)
Theorem visits_are_counted (rng : nat → nat) (gas : State → nat)
    (sf : Node → result R) (w : R) (itermax : nat) heap pos :
  UCT_loop rng gas sf w rootstate itermax = Ok (heap, pos) →
  ∀ p pn, heap !! p = Some pn →
    GetMoves (position rootstate heap p) ≠ [] →
    ∃ cns, Forall2 (λ c cn, heap !! c = Some cn) (childNodes pn) cns ∧
      visits pn = (if decide (p = 0) then 0 else 1) + sum_list_with visits cns.
Proof.
  intros Hloop p pn Hp Hmoves.
  apply UCT_loop_Inv in Hloop as HI.
  apply UCT_loop_accounted in Hloop as Hacc.
  apply UCT_loop_visits_exact in Hloop as Hex.
  destruct (child_visits_nodes rootstate heap None itermax p pn HI Hp)
    as (cns & Hall & Hsum).
  exists cns. split; [done|]. rewrite Hsum.
  destruct (decide (p = 0)) as [->|Hp0].
  - destruct (inv_root _ _ _ _ HI) as (root & Hr & _ & Hroot).
    assert (root = pn) as -> by congruence.
    rewrite (position_root rootstate heap None itermax HI) in Hmoves.
    destruct (Hroot Hmoves) as [_ Heq]. rewrite decide_False in Heq by done.
    lia.
  - assert (untriedMoves pn ≠ [] ∨ childNodes pn ≠ []) as Hnt.
    { destruct (untriedMoves pn) as [|m u] eqn:Hun; [|by left]. right.
      intros Hch. apply Hmoves. pose proof (Hacc p pn Hp) as Hperm.
      unfold child_moves in Hperm. rewrite Hun, Hch in Hperm.
      by apply Permutation_nil_l in Hperm. }
    specialize (Hex p pn Hp Hp0 Hnt). rewrite decide_False in Hex by done.
    lia.
Qed.
End visits_exact_facts.

(** ** The weight 0 *)

Section zero_weight.
Context {State Move Player : Type} `{EqDecision Move}
        `{G : GameState State Move Player}.
Abbreviation Node := (Node Move Player).
Implicit Types (heap : list Node) (h : Node → R).





End zero_weight.

(** ** The further properties at concrete inputs *)


Lemma TakeAway_visited_once_history :
  history (State := TakeAway.state) TakeAway.visited_once [0%Qc].
Proof. apply (history_Update _ [] 0%Qc). constructor. Qed.

Lemma Subtraction_ends : game_ends Subtraction.chips.
Proof.
  intros [n p] m. unfold GetMoves, DoMove. cbn [Subtraction.game Subtraction.chips].
  intros Hm%list_elem_of_In%in_seq. lia.
Qed.

Lemma TakeAway_expand_first :
  Expand TakeAway.draws TakeAway.tree0 0 (TakeAway.start 3) 0
  = Ok ([ {| move := None; parentNode := None; childNodes := [1];
             wins := 0%Qc; visits := 0; untriedMoves := [2];
             playerJustMoved := false;
             rollouts_counter := []; last_rollout_res := None |};
          Node_init (Some 1) (Some 0) (TakeAway.mk 2 true) ],
        1, TakeAway.mk 2 true, 1).
Proof. reflexivity. Qed.

Lemma TakeAway_second_iteration_steps :
  Select zero_std 0%R (length TakeAway.tree1) TakeAway.tree1 0
    (Clone (TakeAway.start 3)) = Ok (0, TakeAway.start 3)
  ∧ ∃ heap1,
      Expand TakeAway.draws TakeAway.tree1 0 (TakeAway.start 3) 2
      = Ok (heap1, 2, TakeAway.mk 1 true, 3)
      ∧ Rollout TakeAway.draws (TakeAway.chips (TakeAway.mk 1 true))
          (TakeAway.mk 1 true) 3
        = Ok (TakeAway.mk 0 false, 4).
Proof. split; [reflexivity|]. eexists. split; reflexivity. Qed.

Lemma Subtraction_match :
  UCTPlayGame Subtraction.draws Subtraction.chips (Subtraction.start 2) 1 1
    0%R zero_std = Ok 2%Qc.
Proof. vm_compute. reflexivity. Qed.

Lemma UCT_raises_exactly_without_children_witness :
  UCT TakeAway.draws TakeAway.chips regular_std (1 / 2)%R (TakeAway.start 3) 0
  = Raise IndexError
  ∧ is_Ok (UCT TakeAway.draws TakeAway.chips regular_std (1 / 2)%R
             (TakeAway.start 3) 7).
Proof.
  destruct (UCT_raises_exactly_without_children TakeAway.draws TakeAway.chips
              regular_std (1 / 2)%R (TakeAway.start 3) 0
              TakeAway_ends regular_std_returns) as [Hraise _].
  destruct (UCT_raises_exactly_without_children TakeAway.draws TakeAway.chips
              regular_std (1 / 2)%R (TakeAway.start 3) 7
              TakeAway_ends regular_std_returns) as [_ Hret].
  split.
  - apply Hraise. left. reflexivity.
  - apply Hret; [lia|simpl; discriminate].
Defined.

Lemma counter_records_history_witness :
  counter_get 0%Qc (rollouts_counter TakeAway.visited_once) = 1.
Proof.
  destruct (counter_records_history (State := TakeAway.state)
              TakeAway.visited_once [0%Qc] TakeAway_visited_once_history)
    as (_ & _ & Hget).
  rewrite Hget. reflexivity.
Defined.

Lemma UCTSelectChild_errors_witness :
  UCTSelectChild (λ _, Ok 0%R) 0%R TakeAway.tree0 0 = Raise IndexError
  ∧ UCTSelectChild (λ _, Ok 0%R) 0%R
      [ {| move := None; parentNode := None; childNodes := [1];
           wins := 1%Qc; visits := 1; untriedMoves := [2];
           playerJustMoved := false;
           rollouts_counter := [(1%Qc, 1)]; last_rollout_res := Some 1%Qc |};
        Node_init (Some 1) (Some 0) (TakeAway.mk 2 true) ] 0
    = Raise ZeroDivisionError.
Proof.
  split.
  - destruct (UCTSelectChild_errors TakeAway.tree0 0
                (Node_init None None (TakeAway.start 3)) 0%R (λ _, 0%R))
      as [Hempty _].
    + reflexivity.
    + intros c Hc. simpl in Hc. by apply elem_of_nil in Hc.
    + apply Hempty. reflexivity.
  - set (root := {| move := None; parentNode := None; childNodes := [1];
           wins := 1%Qc; visits := 1; untriedMoves := [2 : nat];
           playerJustMoved := false;
           rollouts_counter := [(1%Qc, 1)]; last_rollout_res := Some 1%Qc |}).
    destruct (UCTSelectChild_errors
                [root; Node_init (Some 1) (Some 0) (TakeAway.mk 2 true)] 0
                root 0%R (λ _, 0%R)) as (_ & Hzero & _).
    + reflexivity.
    + intros c Hc. simpl in Hc. apply list_elem_of_singleton in Hc. subst c.
      by eexists.
    + apply Hzero; [simpl; lia|].
      exists 1, (Node_init (Some 1) (Some 0) (TakeAway.mk 2 true)).
      split_and!; [simpl; apply list_elem_of_singleton; reflexivity|
                   reflexivity|reflexivity].
Defined.

Lemma Backpropagate_path_witness :
  ∃ heap1 heap',
    Backpropagate 2 (TakeAway.mk 0 false) heap1 (Some 1) = Ok heap'
    ∧ length heap' = 2.
Proof.
  destruct (Expand_Inv (TakeAway.start 3) TakeAway.draws TakeAway.tree0 0
              (Node_init None None (TakeAway.start 3)) (TakeAway.start 3) 0 0
              (Inv_init (TakeAway.start 3)) eq_refl)
    as (heap1 & c & state1 & pos1 & Hexp & HI).
  { intros _ _. simpl. discriminate. }
  rewrite TakeAway_expand_first in Hexp. injection Hexp as <- <- <- <-.
  destruct (Backpropagate_path (TakeAway.start 3) 2 (TakeAway.mk 0 false)
              _ 1 1 HI) as (heap' & Hback & Hlen & _); [lia|].
  eexists _, heap'. split; [exact Hback|]. rewrite Hlen. reflexivity.
Defined.

Lemma tree_size_and_reachability_witness :
  1 ≤ length TakeAway.tree1 ≤ 1 + 1 ∧ reachable TakeAway.tree1 1.
Proof.
  destruct (tree_size_and_reachability (TakeAway.start 3) TakeAway.draws
              TakeAway.chips zero_std 0%R 1 TakeAway.tree1 2
              TakeAway_first_iteration) as [Hlen Hreach].
  split; [exact Hlen|]. apply Hreach. simpl. lia.
Defined.

Lemma tree_accounts_for_moves_witness :
  [1] ++ [2] ≡ₚ GetMoves (TakeAway.start 3).
Proof.
  destruct (tree_accounts_for_moves (TakeAway.start 3) TakeAway.draws
              TakeAway.chips zero_std 0%R 1 TakeAway.tree1 2
              TakeAway_first_iteration)
    as (_ & _ & Hacc & _).
  exact (Hacc 0 _ eq_refl).
Defined.

Lemma UCT_returns_legal_move_witness :
  ∃ m, Some 2 = Some m ∧ m ∈ GetMoves (TakeAway.start 3).
Proof.
  exact (UCT_returns_legal_move (TakeAway.start 3) TakeAway.draws
           TakeAway.chips zero_std 0%R 2 (Some 2) TakeAway_two_iterations).
Defined.

Lemma Rollout_plays_to_the_end_witness :
  ∃ ms, legal_play (TakeAway.start 3) ms (TakeAway.mk 0 false)
        ∧ GetMoves (TakeAway.mk 0 false) = [] ∧ 2 = 0 + length ms
        ∧ length ms ≤ 3.
Proof.
  apply (Rollout_plays_to_the_end TakeAway.draws 3 (TakeAway.start 3) 0
           (TakeAway.mk 0 false) 2).
  reflexivity.
Defined.

Lemma iteration_plays_legally_witness :
  ∃ ms, legal_play (TakeAway.start 3) ms (TakeAway.mk 0 false)
        ∧ GetMoves (TakeAway.mk 0 false) = [].
Proof.
  destruct TakeAway_second_iteration_steps as (Hsel & heap1 & Hexp & Hroll).
  destruct (iteration_plays_legally (TakeAway.start 3) TakeAway.draws
              TakeAway.chips zero_std 0%R 1 TakeAway.tree1 2 0
              (TakeAway.start 3) heap1 2 (TakeAway.mk 1 true) 3
              (TakeAway.mk 0 false) 4
              TakeAway_first_iteration Hsel Hexp Hroll)
    as (_ & _ & _ & Hplay).
  exact Hplay.
Defined.


Lemma UCTPlayGame_plays_legally_witness :
  ∃ ms final, legal_play (Subtraction.start 2) ms final
              ∧ GetMoves final = [] ∧ 2%Qc = match_result final.
Proof.
  destruct (UCTPlayGame_plays_legally Subtraction.draws Subtraction.chips
              (Subtraction.start 2) 1 1 0%R zero_std 2%Qc Subtraction_match)
    as (ms & final & Hplay & Hend & _ & Hres & _).
  exists ms, final. split_and!; assumption.
Defined.

Lemma UCTPlayGame_returns_witness :
  1 ≤ 50 ∧
  is_Ok (UCTPlayGame Subtraction.draws Subtraction.chips
           (Subtraction.start 15) 50 50 (1 / 10)%R regular_std).
Proof.
  assert (1 ≤ 50) as H1 by lia. split; [exact H1|].
  exact (UCTPlayGame_returns Subtraction.draws Subtraction.chips
           (Subtraction.start 15) 50 50 (1 / 10)%R regular_std
           Subtraction_ends regular_std_returns H1 H1).
Defined.

Lemma UCTPlayGame_edges_witness :
  UCTPlayGame Subtraction.draws Subtraction.chips (Subtraction.start 0) 5 5
    0%R zero_std = Ok (match_result (Subtraction.start 0))
  ∧ UCTPlayGame Subtraction.draws Subtraction.chips (Subtraction.start 4) 5 0
      0%R zero_std = Raise IndexError.
Proof.
  split.
  - destruct (UCTPlayGame_edges Subtraction.draws Subtraction.chips
                (Subtraction.start 0) 5 5 0%R zero_std) as [Hend _].
    apply Hend. reflexivity.
  - destruct (UCTPlayGame_edges Subtraction.draws Subtraction.chips
                (Subtraction.start 4) 5 0 0%R zero_std) as [_ Hzero].
    apply Hzero; [simpl; discriminate|simpl; lia|reflexivity].
Defined.

Lemma parent_visits_dominate_witness :
  ∃ cns, Forall2 (λ c cn, TakeAway.tree1 !! c = Some cn) [1] cns
         ∧ sum_list_with visits cns ≤ 1.
Proof.
  destruct (parent_visits_dominate (TakeAway.start 3) TakeAway.draws
              TakeAway.chips zero_std 0%R 1 TakeAway.tree1 2
              TakeAway_first_iteration 0 _ eq_refl) as [_ Hsum].
  exact Hsum.
Defined.

Lemma visits_are_counted_witness :
  ∃ cns, Forall2 (λ c cn, TakeAway.tree1 !! c = Some cn) [] cns
         ∧ 1 = 1 + sum_list_with visits cns.
Proof.
  destruct (visits_are_counted (TakeAway.start 3) TakeAway.draws
              TakeAway.chips zero_std 0%R 1 TakeAway.tree1 2
              TakeAway_first_iteration 1 _ eq_refl) as (cns & Hall & Hv).
  - simpl. discriminate.
  - exists cns. split; [exact Hall|exact Hv].
Defined.
